(** * queue.c: a circular doubly-linked queue of strings

    A shallow embedding of [queue.c] (the queue of lab0-c, built on the
    intrusive list of [list.h]) together with the properties of its public
    operations.

    The C heap is a record of finite maps; every C function is a function in
    a state monad over that heap whose result is either a value and a heap, a
    fault (undefined behaviour: a dereference of a pointer that is not live,
    an access past the end of a buffer, an invalid [free]), or an exhausted
    loop budget. *)

From Stdlib Require Import ZArith Lia Strings.Byte Strings.String.
From stdpp Require Import gmap list sorting.

Open Scope Z_scope.

(** ** Machine model *)

(** Pointers are addresses; [NULL] is address 0. *)
Abbreviation ptr := Z (only parsing).

Definition NULL : ptr := 0.

(** LP64 sizes: [size_t] and pointers are 8 bytes wide. *)
Definition sizeof_size_t : Z := 8.
Definition SIZE_MOD : Z := 2 ^ 64.
Definition sizeof_list_head : Z := 16.
Definition sizeof_element_t : Z := 24.

(** The conversion of a [size_t] to the 32-bit [int] that [q_size]
    returns. *)
Definition int_of_size_t (n : Z) : Z :=
  let r := n mod 2 ^ 32 in if decide (r < 2 ^ 31) then r else r - 2 ^ 32.

(** [struct list_head { struct list_head *prev, *next; }] *)
Record list_head := mk_list_head { next : ptr; prev : ptr }.

(** [element_t] is [{ char *value; struct list_head list; }]: the link node
    of the element at address [e] lives at [e + offsetof(element_t, list)]. *)
Definition offsetof_list : Z := 8.
Definition list_of (e : ptr) : ptr := e + offsetof_list.
Definition container_of (node : ptr) : ptr := node - offsetof_list.

(** The heap.  [nodes] holds every live [struct list_head] (a sentinel, or the
    [list] member of an element) under its own address; [vals] holds the
    [value] member of every live element under the element's address; [bufs]
    holds every live character buffer, whose length is its allocated size.
    [brk] is the next unused address and [plan] says which of the coming
    allocation requests fail ([true] is a failure; an empty plan never
    fails). *)
Record mem := Mem {
  nodes : gmap Z list_head;
  vals : gmap Z Z;
  bufs : gmap Z (list byte);
  brk : Z;
  plan : list bool
}.

Definition empty_mem : mem := Mem ∅ ∅ ∅ 16 [].

Definition with_nodes (m : mem) (nd : gmap Z list_head) : mem :=
  Mem nd (vals m) (bufs m) (brk m) (plan m).
Definition with_vals (m : mem) (vs : gmap Z Z) : mem :=
  Mem (nodes m) vs (bufs m) (brk m) (plan m).
Definition with_bufs (m : mem) (bs : gmap Z (list byte)) : mem :=
  Mem (nodes m) (vals m) bs (brk m) (plan m).
Definition with_plan (m : mem) (pl : list bool) : mem :=
  Mem (nodes m) (vals m) (bufs m) (brk m) pl.

Inductive outcome (A : Type) : Type :=
| Ok (a : A) (m : mem)
| Fault
| OutOfFuel.
Arguments Ok {A} a m.
Arguments Fault {A}.
Arguments OutOfFuel {A}.

Definition M (A : Type) : Type := mem → outcome A.

Definition ret {A} (a : A) : M A := λ m, Ok a m.
Definition bind {A B} (c : M A) (k : A → M B) : M B :=
  λ m, match c m with
       | Ok a m' => k a m'
       | Fault => Fault
       | OutOfFuel => OutOfFuel
       end.
Definition out_of_fuel {A} : M A := λ _, OutOfFuel.

Declare Scope c_scope.
Delimit Scope c_scope with C.
Notation "'let*' x ':=' c 'in' k" := (bind c (λ x, k))
  (at level 10, x name, c at level 100, k at level 200) : c_scope.
Notation "c '>>' k" := (bind c (λ _, k))
  (at level 100, k at level 200, right associativity) : c_scope.
Open Scope c_scope.

(** *** Loads and stores *)

Definition load_next (p : ptr) : M ptr :=
  λ m, match nodes m !! p with Some h => Ok (next h) m | None => Fault end.
Definition load_prev (p : ptr) : M ptr :=
  λ m, match nodes m !! p with Some h => Ok (prev h) m | None => Fault end.
Definition store_next (p v : ptr) : M unit :=
  λ m, match nodes m !! p with
       | Some h => Ok tt (with_nodes m (<[p := mk_list_head v (prev h)]> (nodes m)))
       | None => Fault
       end.
Definition store_prev (p v : ptr) : M unit :=
  λ m, match nodes m !! p with
       | Some h => Ok tt (with_nodes m (<[p := mk_list_head (next h) v]> (nodes m)))
       | None => Fault
       end.
Definition load_value (e : ptr) : M ptr :=
  λ m, match vals m !! e with Some v => Ok v m | None => Fault end.
Definition store_value (e v : ptr) : M unit :=
  λ m, match vals m !! e with
       | Some _ => Ok tt (with_vals m (<[e := v]> (vals m)))
       | None => Fault
       end.

(** *** The allocator of [harness.h]: [malloc] and [free] *)

(** Modelled from the spec: [harness.h] redirects [malloc] and [free] to a
    test allocator that is not part of the sources; per the spec an
    allocation either yields fresh storage or fails with a null result.
    Fresh storage is zero-filled here (the queue code writes every field and
    byte before it reads it). *)
Definition alloc_fails : M bool :=
  λ m, match plan m with
       | [] => Ok false m
       | b :: pl => Ok b (with_plan m pl)
       end.

(** [malloc(sizeof(struct list_head))] *)
Definition malloc_list_head : M ptr :=
  let* f := alloc_fails in
  if f then ret NULL
  else λ m, let p := brk m in
            Ok p (Mem (<[p := mk_list_head 0 0]> (nodes m)) (vals m) (bufs m)
                      (p + sizeof_list_head) (plan m)).

(** [malloc(sizeof(element_t))] *)
Definition malloc_element : M ptr :=
  let* f := alloc_fails in
  if f then ret NULL
  else λ m, let p := brk m in
            Ok p (Mem (<[list_of p := mk_list_head 0 0]> (nodes m))
                      (<[p := 0]> (vals m)) (bufs m)
                      (p + sizeof_element_t) (plan m)).

(** [malloc(n)] for a character buffer of [n] bytes. *)
Definition malloc_chars (n : Z) : M ptr :=
  let* f := alloc_fails in
  if f then ret NULL
  else λ m, let p := brk m in
            Ok p (Mem (nodes m) (vals m)
                      (<[p := replicate (Z.to_nat n) x00]> (bufs m))
                      (p + Z.max n 1) (plan m)).

(** [free(p)] is a no-op on [NULL] and a fault on anything that is not the
    start of a live block; the three uses in [queue.c] differ in the static
    type of the pointer they release. *)

(** [free(p)] for [char *p] *)
Definition free_chars (p : ptr) : M unit :=
  λ m, if decide (p = NULL) then Ok tt m
       else match bufs m !! p with
            | Some _ => Ok tt (with_bufs m (delete p (bufs m)))
            | None => Fault
            end.

(** [free(p)] for [element_t *p] *)
Definition free_element (p : ptr) : M unit :=
  λ m, if decide (p = NULL) then Ok tt m
       else match vals m !! p, nodes m !! list_of p with
            | Some _, Some _ =>
              Ok tt (Mem (delete (list_of p) (nodes m)) (delete p (vals m))
                         (bufs m) (brk m) (plan m))
            | _, _ => Fault
            end.

(** [free(p)] for [struct list_head *p] *)
Definition free_list_head (p : ptr) : M unit :=
  λ m, if decide (p = NULL) then Ok tt m
       else match nodes m !! p with
            | Some _ => Ok tt (with_nodes m (delete p (nodes m)))
            | None => Fault
            end.

(** *** The string functions of [<string.h>] *)

#[global] Instance byte_eq_decision : EqDecision byte.
Proof.
  intros x y. destruct (Byte.eqb x y) eqn:E.
  - left. by apply byte_dec_bl.
  - right. by apply eqb_false.
Defined.

Definition byte_Z (b : byte) : Z := Z.of_N (Byte.to_N b).

(** The characters of the C string that starts a sequence of bytes: the
    bytes before the first NUL. *)
Fixpoint cstr (b : list byte) : list byte :=
  match b with
  | [] => []
  | c :: b' => if decide (c = x00) then [] else c :: cstr b'
  end.

(** A buffer holds a string when a NUL occurs in it. *)
Definition terminated (b : list byte) : Prop := (length (cstr b) < length b)%nat.

(** [strlen(s)] for the argument string of the insertions. *)
Definition strlen (s : list byte) : Z := Z.of_nat (length (cstr s)).

(** The [n] bytes that [strncpy(_, src, n)] writes: the characters of [src],
    cut at [n], padded with NULs up to [n]. *)
Definition strncpy_image (src : list byte) (n : nat) : list byte :=
  take n (cstr src) ++ replicate (n - length (cstr src)) x00.

(** Overwrite the first [n] bytes of the buffer at [dst] with the [n] bytes
    [bs n]; a fault when the buffer is shorter than [n] bytes. *)
Definition store_bytes (dst : ptr) (n : Z) (bs : nat → list byte) : M unit :=
  λ m, match bufs m !! dst with
       | Some b =>
         if decide (n ≤ Z.of_nat (length b))
         then Ok tt (with_bufs m (<[dst := bs (Z.to_nat n) ++ drop (Z.to_nat n) b]> (bufs m)))
         else Fault
       | None => Fault
       end.

(** [strncpy(dst, s, n)] where the source is the argument string [s]. *)
Definition strncpy_arg (dst : ptr) (s : list byte) (n : Z) : M unit :=
  store_bytes dst n (strncpy_image s).

(** [strncpy(dst, src, n)] where both are buffers of the heap; reading the
    source stops at its NUL or after [n] bytes. *)
Definition strncpy (dst src : ptr) (n : Z) : M unit :=
  λ m, match bufs m !! src with
       | Some b =>
         if decide (terminated b ∨ n ≤ Z.of_nat (length b))
         then store_bytes dst n (strncpy_image b) m
         else Fault
       | None => Fault
       end.

(** [dst[i] = c] *)
Definition store_byte (dst : ptr) (i : Z) (c : byte) : M unit :=
  λ m, match bufs m !! dst with
       | Some b =>
         if decide (0 ≤ i < Z.of_nat (length b))
         then Ok tt (with_bufs m (<[dst := <[Z.to_nat i := c]> b]> (bufs m)))
         else Fault
       | None => Fault
       end.

(** [strcmp] on the bytes of two objects: the difference of the first pair
    of bytes (as [unsigned char]) that differ; [None] when the comparison
    runs off the end of an object. *)
Fixpoint strcmp_bytes (a b : list byte) : option Z :=
  match a, b with
  | x :: a', y :: b' =>
    if decide (x = y)
    then if decide (x = x00) then Some 0 else strcmp_bytes a' b'
    else Some (byte_Z x - byte_Z y)
  | _, _ => None
  end.

(** [strcmp(p, q)] on two buffers of the heap. *)
Definition strcmp (p q : ptr) : M Z :=
  λ m, match bufs m !! p, bufs m !! q with
       | Some a, Some b =>
         match strcmp_bytes a b with Some c => Ok c m | None => Fault end
       | _, _ => Fault
       end.

(** ** list.h *)

(** Modelled from the spec: [list.h] is not among the sources.  Section 4.1
    of the spec gives the contracts: [init_empty] makes a node a self-loop,
    [link_after]/[link_before] splice a node after/before an anchor,
    [unlink] relinks the two neighbours of a node to each other and leaves
    the node's own pointers alone, the safe unlink also re-self-loops the
    node, [move_to_front] is unlink then link-after, and the two predicates
    look at the sentinel's neighbours only. *)
Definition INIT_LIST_HEAD (head : ptr) : M unit :=
  store_next head head >> store_prev head head.

Definition list_add (node head : ptr) : M unit :=
  let* nxt := load_next head in
  store_prev nxt node >>
  store_next node nxt >>
  store_prev node head >>
  store_next head node.

Definition list_add_tail (node head : ptr) : M unit :=
  let* prv := load_prev head in
  store_next prv node >>
  store_next node head >>
  store_prev node prv >>
  store_prev head node.

Definition list_del (node : ptr) : M unit :=
  let* nxt := load_next node in
  let* prv := load_prev node in
  store_prev nxt prv >>
  store_next prv nxt.

Definition list_del_init (node : ptr) : M unit :=
  list_del node >> INIT_LIST_HEAD node.

Definition list_move (node head : ptr) : M unit :=
  list_del node >> list_add node head.

Definition list_empty (head : ptr) : M bool :=
  let* n := load_next head in ret (bool_decide (n = head)).

Definition list_is_singular (head : ptr) : M bool :=
  let* e := list_empty head in
  if e then ret false
  else let* p := load_prev head in
       let* n := load_next head in
       ret (bool_decide (p = n)).

(** Modelled from the spec: the forward traversal of [list.h] that captures
    the successor of the current node before the body runs,
    [for (node = head->next, safe = node->next; node != head;
          node = safe, safe = node->next)].
    The body receives [node], [safe] and the local variables it updates. *)
Fixpoint for_each_safe_from {St} (fuel : nat) (head node safe : ptr)
    (body : ptr → ptr → St → M St) (s : St) : M St :=
  match fuel with
  | O => out_of_fuel
  | S fuel' =>
    if decide (node = head) then ret s
    else let* s' := body node safe s in
         let* safe' := load_next safe in
         for_each_safe_from fuel' head safe safe' body s'
  end.

Definition list_for_each_safe {St} (fuel : nat) (head : ptr)
    (body : ptr → ptr → St → M St) (s : St) : M St :=
  let* node := load_next head in
  let* safe := load_next node in
  for_each_safe_from fuel head node safe body s.

(** Modelled from the spec: the plain forward traversal of [list.h],
    [for (node = head->next; node != head; node = node->next)]. *)
Fixpoint for_each_from {St} (fuel : nat) (head node : ptr)
    (body : ptr → St → M St) (s : St) : M St :=
  match fuel with
  | O => out_of_fuel
  | S fuel' =>
    if decide (node = head) then ret s
    else let* s' := body node s in
         let* node' := load_next node in
         for_each_from fuel' head node' body s'
  end.

Definition list_for_each {St} (fuel : nat) (head : ptr)
    (body : ptr → St → M St) (s : St) : M St :=
  let* node := load_next head in
  for_each_from fuel head node body s.

(** ** queue.c *)

(** Each function keeps its name; a loop becomes a recursive function with
    a budget of iterations ([fuel]), and the functions that contain a loop
    take the budget as their first argument. *)

(** [q_new], lines 20-28. *)
Definition q_new : M ptr :=
  let* q := malloc_list_head in
  if decide (q = NULL) then ret NULL
  else INIT_LIST_HEAD q >> ret q.

(** [q_release_element], lines 170-174. *)
Definition q_release_element (e : ptr) : M unit :=
  let* v := load_value e in
  free_chars v >> free_element e.

(** [q_free], lines 31-48. *)
Definition q_free (fuel : nat) (l : ptr) : M unit :=
  if decide (l = NULL) then ret tt
  else
    let* e := list_empty l in
    if e then free_list_head l
    else
      list_for_each_safe fuel l
        (λ cur _ (_ : unit), q_release_element (container_of cur)) tt >>
      free_list_head l.

(** [q_insert_head], lines 57-82.  [sizeof(length)] is the size of the
    variable [length], a [size_t]. *)
Definition q_insert_head (head : ptr) (s : list byte) : M bool :=
  if decide (head = NULL) then ret false
  else
    let* node := malloc_element in
    if decide (node = NULL) then ret false
    else
      let length := (strlen s + 1) mod SIZE_MOD in
      let* v := malloc_chars sizeof_size_t in
      store_value node v >>
      let* nv := load_value node in
      if decide (nv ≠ NULL) then
        strncpy_arg nv s length >>
        list_add (list_of node) head >>
        ret true
      else
        free_element node >> ret false.

(** [q_insert_tail], lines 91-112. *)
Definition q_insert_tail (head : ptr) (s : list byte) : M bool :=
  if decide (head = NULL) then ret false
  else
    let* node := malloc_element in
    if decide (node = NULL) then ret false
    else
      let len := (strlen s + 1) mod SIZE_MOD in
      let* v := malloc_chars sizeof_size_t in
      store_value node v >>
      let* nv := load_value node in
      if decide (nv ≠ NULL) then
        strncpy_arg nv s len >>
        list_add_tail (list_of node) head >>
        ret true
      else
        free_element node >> ret false.

(** The two insertions differ only in the call that links the new node;
    [q_insert_with link] is their common text. *)
Definition q_insert_with (link : ptr → ptr → M unit) (head : ptr) (s : list byte) : M bool :=
  if decide (head = NULL) then ret false
  else
    let* node := malloc_element in
    if decide (node = NULL) then ret false
    else
      let length := (strlen s + 1) mod SIZE_MOD in
      let* v := malloc_chars sizeof_size_t in
      store_value node v >>
      let* nv := load_value node in
      if decide (nv ≠ NULL) then
        strncpy_arg nv s length >>
        link (list_of node) head >>
        ret true
      else
        free_element node >> ret false.

(** The copy-out shared by the two removals:
    [if (sp) { strncpy(sp, e->value, bufsize - 1); sp[bufsize - 1] = '\0'; }] *)
Definition copy_out (e sp : ptr) (bufsize : Z) : M unit :=
  if decide (sp ≠ NULL) then
    let* v := load_value e in
    strncpy sp v ((bufsize - 1) mod SIZE_MOD) >>
    store_byte sp ((bufsize - 1) mod SIZE_MOD) x00
  else ret tt.

(** [q_remove_head], lines 128-143. *)
Definition q_remove_head (head sp : ptr) (bufsize : Z) : M ptr :=
  if decide (head = NULL) then ret NULL
  else
    let* emp := list_empty head in
    if emp then ret NULL
    else
      let* first := load_next head in
      let e := container_of first in
      let* n := load_next head in
      list_del_init n >>
      copy_out e sp bufsize >>
      ret e.

(** [q_remove_tail], lines 149-164. *)
Definition q_remove_tail (head sp : ptr) (bufsize : Z) : M ptr :=
  if decide (head = NULL) then ret NULL
  else
    let* emp := list_empty head in
    if emp then ret NULL
    else
      let* last := load_prev head in
      let e := container_of last in
      let* p := load_prev head in
      list_del_init p >>
      copy_out e sp bufsize >>
      ret e.

(** [q_size], lines 180-193. *)
Definition q_size (fuel : nat) (head : ptr) : M Z :=
  if decide (head = NULL) then ret 0
  else
    let* len := list_for_each fuel head (λ _ len, ret ((len + 1) mod SIZE_MOD)) 0 in
    ret (int_of_size_t len).

(** [while (front != back && back->prev != front)
      { front = front->next; back = back->prev; }] *)
Fixpoint delete_mid_walk (fuel : nat) (front back : ptr) : M ptr :=
  match fuel with
  | O => out_of_fuel
  | S fuel' =>
    if decide (front = back) then ret front
    else
      let* bp := load_prev back in
      if decide (bp = front) then ret front
      else
        let* front' := load_next front in
        let* back' := load_prev back in
        delete_mid_walk fuel' front' back'
  end.

(** [q_delete_mid], lines 203-224. *)
Definition q_delete_mid (fuel : nat) (head : ptr) : M bool :=
  if decide (head = NULL) then ret false
  else
    let* emp := list_empty head in
    if emp then ret false
    else
      let* front := load_next head in
      let* back := load_prev head in
      let* front := delete_mid_walk fuel front back in
      list_del front >>
      q_release_element (container_of front) >>
      ret true.

(** The body of the traversal of [q_delete_dup]; the local [last_dup] is the
    state threaded through the loop. *)
Definition delete_dup_body (head ptr_ next_ : ptr) (last_dup : bool) : M bool :=
  let cur_element := container_of ptr_ in
  let* match_ :=
    if decide (next_ ≠ head) then
      let* v1 := load_value cur_element in
      let* v2 := load_value (container_of next_) in
      let* c := strcmp v1 v2 in
      ret (bool_decide (c = 0))
    else ret false in
  (if match_ || last_dup then
     list_del ptr_ >> q_release_element cur_element
   else ret tt) >>
  ret match_.

(** [q_delete_dup], lines 235-260. *)
Definition q_delete_dup (fuel : nat) (head : ptr) : M bool :=
  if decide (head = NULL) then ret false
  else
    let* emp := list_empty head in
    (if negb emp then
       list_for_each_safe fuel head (delete_dup_body head) false >> ret tt
     else ret tt) >>
    ret true.

(** [for (node = head->next; (node->next != head) && (node != head);
         node = node->next) { ... }] *)
Fixpoint swap_loop (fuel : nat) (head node : ptr) : M unit :=
  match fuel with
  | O => out_of_fuel
  | S fuel' =>
    let* nn := load_next node in
    if decide (nn ≠ head) then
      if decide (node ≠ head) then
        let* nxt := load_next node in
        list_del node >>
        list_add node nxt >>
        let* node' := load_next node in
        swap_loop fuel' head node'
      else ret tt
    else ret tt
  end.

(** [q_swap], lines 283-309. *)
Definition q_swap (fuel : nat) (head : ptr) : M unit :=
  if decide (head = NULL) then ret tt
  else
    let* emp := list_empty head in
    if emp then ret tt
    else
      let* node := load_next head in
      swap_loop fuel head node.

(** [q_reverse], lines 319-344. *)
Definition q_reverse (fuel : nat) (head : ptr) : M unit :=
  if decide (head = NULL) then ret tt
  else
    let* emp := list_empty head in
    if emp then ret tt
    else
      list_for_each_safe fuel head
        (λ node _ (_ : unit), list_move node head) tt.

(** [sorted_merge], lines 346-363. *)
Fixpoint sorted_merge (fuel : nat) (front back : ptr) : M ptr :=
  match fuel with
  | O => out_of_fuel
  | S fuel' =>
    if decide (front = NULL ∨ back = NULL)
    then ret (if decide (front ≠ NULL) then front else back)
    else
      let* vf := load_value (container_of front) in
      let* vb := load_value (container_of back) in
      let* c := strcmp vf vb in
      if decide (c > 0) then
        let result := back in
        let* bn := load_next back in
        let* r := sorted_merge fuel' front bn in
        store_next result r >>
        ret result
      else
        let result := front in
        let* fn := load_next front in
        let* r := sorted_merge fuel' fn back in
        store_next result r >>
        ret result
  end.

(** [while (fast && fast->next) { slow = slow->next; fast = fast->next->next; }];
    the result is the final [slow]. *)
Fixpoint split_walk (fuel : nat) (slow fast : ptr) : M ptr :=
  match fuel with
  | O => out_of_fuel
  | S fuel' =>
    if decide (fast = NULL) then ret slow
    else
      let* fn := load_next fast in
      if decide (fn = NULL) then ret slow
      else
        let* slow' := load_next slow in
        let* fn' := load_next fast in
        let* fast' := load_next fn' in
        split_walk fuel' slow' fast'
  end.

(** [merge_sort], lines 366-385, of type [void (struct list_head **head)]:
    here the argument is the value of
    [*head] on entry and the result is its value on return; no node of the
    chain aliases the cell [head] points at. *)
Fixpoint merge_sort (fuel : nat) (head : ptr) : M ptr :=
  match fuel with
  | O => out_of_fuel
  | S fuel' =>
    if decide (head = NULL) then ret head
    else
      let* hn := load_next head in
      if decide (hn = NULL) then ret head
      else
        let slow := head in
        let* fast := load_next slow in
        let* slow := split_walk fuel slow fast in
        let front := head in
        let* back := load_next slow in
        store_next slow NULL >>
        let* front := merge_sort fuel' front in
        let* back := merge_sort fuel' back in
        sorted_merge fuel front back
  end.

(** [while (tmp->next) { tmp->next->prev = tmp; tmp = tmp->next; }];
    the result is the final [tmp]. *)
Fixpoint rethread (fuel : nat) (tmp : ptr) : M ptr :=
  match fuel with
  | O => out_of_fuel
  | S fuel' =>
    let* tn := load_next tmp in
    if decide (tn ≠ NULL) then
      store_prev tn tmp >>
      let* tmp' := load_next tmp in
      rethread fuel' tmp'
    else ret tmp
  end.

(** [q_sort], lines 392-409. *)
Definition q_sort (fuel : nat) (head : ptr) : M unit :=
  if decide (head = NULL) then ret tt
  else
    let* emp := list_empty head in
    if emp then ret tt
    else
      let* sing := list_is_singular head in
      if sing then ret tt
      else
        let* hp := load_prev head in
        store_next hp NULL >>
        let* first := load_next head in
        let* sorted := merge_sort fuel first in
        store_next head sorted >>
        let tmp := head in
        let* tmp := rethread fuel tmp in
        store_next tmp head >>
        store_prev head tmp.

(** ** Abstract view of a queue *)

(** The two link fields of the heap, as maps from a node to its neighbour. *)
Definition nx (m : mem) : gmap Z Z := next <$> nodes m.
Definition pv (m : mem) : gmap Z Z := prev <$> nodes m.

(** [path f p xs q]: following [f] from [p] visits [xs] in order and then
    reaches [q]. *)
Fixpoint path (f : gmap Z Z) (p : Z) (xs : list Z) (q : Z) : Prop :=
  match xs with
  | [] => f !! p = Some q
  | x :: xs' => f !! p = Some x ∧ path f x xs' q
  end.

(** [chain f p xs]: [p] points at a NULL-terminated singly-linked chain
    whose nodes are [xs], in order. *)
Definition chain (f : gmap Z Z) (p : ptr) (xs : list ptr) : Prop :=
  match xs with
  | [] => p = NULL
  | x :: r => p = x ∧ path f x r NULL
  end.

(** [back_linked f p xs]: the [prev] of each node of [xs] is the node in
    front of it, [p] being in front of the first. *)
Fixpoint back_linked (f : gmap Z Z) (p : ptr) (xs : list ptr) : Prop :=
  match xs with
  | [] => True
  | x :: r => f !! x = Some p ∧ back_linked f x r
  end.

(** The sentinel [head] and the nodes [l] form a ring: [next] leads from the
    sentinel through [l] back to the sentinel, and [prev] does so through
    [l] backwards. *)
Definition ring (m : mem) (head : ptr) (l : list ptr) : Prop :=
  NoDup (head :: l) ∧
  path (nx m) head l head ∧
  path (pv m) head (reverse l) head.

(** The ring invariant as the data model words it: every node [x] of the
    ring satisfies [x->next->prev == x] and [x->prev->next == x]. *)
Definition circular (m : mem) (cyc : list ptr) : Prop :=
  ∀ x, x ∈ cyc →
    ∃ h hn hp, nodes m !! x = Some h ∧
               nodes m !! next h = Some hn ∧ prev hn = x ∧
               nodes m !! prev h = Some hp ∧ next hp = x.

(** The sentinel is a self-loop. *)
Definition self_loop (m : mem) (head : ptr) : Prop :=
  nodes m !! head = Some (mk_list_head head head).

(** An element of a queue: the address of its link node, the address of its
    string buffer and the bytes of that buffer. *)
Record elem := Elem { e_node : ptr; e_val : ptr; e_buf : list byte }.

Definition e_str (e : elem) : list byte := cstr (e_buf e).

(** The heap holds the element: its [value] member points at its buffer and
    the buffer holds a string. *)
Definition owns (m : mem) (e : elem) : Prop :=
  e_node e ≠ NULL ∧ container_of (e_node e) ≠ NULL ∧ e_val e ≠ NULL ∧
  vals m !! container_of (e_node e) = Some (e_val e) ∧
  bufs m !! e_val e = Some (e_buf e) ∧
  terminated (e_buf e).

(** The element was released: its node, its [value] member and its buffer
    are gone from the heap. *)
Definition released (m : mem) (e : elem) : Prop :=
  nodes m !! e_node e = None ∧
  vals m !! container_of (e_node e) = None ∧
  bufs m !! e_val e = None.

(** The heap after [q_release_element] on a live element. *)
Definition release (m : mem) (e : elem) : mem :=
  Mem (delete (e_node e) (nodes m)) (delete (container_of (e_node e)) (vals m))
      (delete (e_val e) (bufs m)) (brk m) (plan m).

(** The caller's output buffer for a removal from the elements [es]: either
    no buffer, or a live buffer of at least [bufsize >= 1] bytes that is
    not the string of an element. *)
Definition out_buffer (m : mem) (sp : ptr) (bufsize : Z) (es : list elem) : Prop :=
  sp = NULL ∨
  match bufs m !! sp with
  | Some b => 1 ≤ bufsize ≤ Z.of_nat (length b) ∧ bufsize < SIZE_MOD ∧
              sp ∉ e_val <$> es
  | None => False
  end.

(** What a removal leaves in an output buffer that held [b]: the first
    [bufsize - 1] characters of the string [s], NULs up to and including
    offset [bufsize - 1], and the old bytes from offset [bufsize] on. *)
Definition copied (s : list byte) (bufsize : Z) (b : list byte) : list byte :=
  let n := Z.to_nat (bufsize - 1) in
  take n s ++ replicate (n - length s) x00 ++ x00 :: drop (S n) b.

(** The element that an insertion of the string [s] creates in the heap
    [m], and the heap once the element is allocated and the string copied,
    before the element is linked. *)
Definition new_elem (m : mem) (s : list byte) : elem :=
  Elem (list_of (brk m)) (brk m + sizeof_element_t)
       (strncpy_image s (Z.to_nat (strlen s + 1)) ++
        drop (Z.to_nat (strlen s + 1)) (replicate (Z.to_nat sizeof_size_t) x00)).

Definition prepared (m : mem) (s : list byte) : mem :=
  Mem (<[list_of (brk m) := mk_list_head 0 0]> (nodes m))
      (<[brk m := brk m + sizeof_element_t]> (vals m))
      (<[brk m + sizeof_element_t := e_buf (new_elem m s)]> (bufs m))
      (brk m + sizeof_element_t + sizeof_size_t)
      (tail (tail (plan m))).

(** [head] is a queue holding the elements [es], in traversal order. *)
Definition queue (m : mem) (head : ptr) (es : list elem) : Prop :=
  head ≠ NULL ∧
  ring m head (e_node <$> es) ∧
  Forall (owns m) es ∧
  NoDup (e_val <$> es).

(** The ring invariant of a queue whose node sequence is [l]. *)
Definition ring_invariant (m : mem) (head : ptr) (l : list ptr) : Prop :=
  ring m head l ∧ circular m (head :: l) ∧ (l = [] ↔ self_loop m head).

(** Every address in use lies below [brk]. *)
Definition mem_wf (m : mem) : Prop :=
  0 < brk m ∧
  map_Forall (λ k _, 0 < k < brk m) (nodes m) ∧
  map_Forall (λ k _, 0 < k < brk m) (vals m) ∧
  map_Forall (λ k _, 0 < k < brk m) (bufs m).

(** Nothing was allocated or released, and no string was touched, between
    [m] and [m']: only link fields may differ. *)
Definition relinked (m m' : mem) : Prop :=
  dom (nodes m') = dom (nodes m) ∧ vals m' = vals m ∧ bufs m' = bufs m ∧
  brk m' = brk m ∧ plan m' = plan m.

(** The heap [m'] after the element [e] was removed from a queue of [m]
    that then holds [es]: [e] is unlinked, still live and owned, its node is
    a self-loop, and only the output buffer (if any) has new contents. *)
Definition removed (m : mem) (head sp : ptr) (bufsize : Z) (e : elem)
    (es : list elem) (m' : mem) : Prop :=
  queue m' head es ∧ owns m' e ∧ self_loop m' (e_node e) ∧
  dom (nodes m') = dom (nodes m) ∧ vals m' = vals m ∧
  brk m' = brk m ∧ plan m' = plan m ∧
  bufs m' = if decide (sp = NULL) then bufs m
            else match bufs m !! sp with
                 | Some b => <[sp := copied (e_str e) bufsize b]> (bufs m)
                 | None => bufs m
                 end.

(** *** Order on strings *)

(** [strcmp] on two strings given by their characters. *)
Fixpoint str_cmp (a b : list byte) : Z :=
  match a, b with
  | [], [] => 0
  | [], y :: _ => - byte_Z y
  | x :: _, [] => byte_Z x
  | x :: a', y :: b' => if decide (x = y) then str_cmp a' b' else byte_Z x - byte_Z y
  end.

Definition elem_le (e1 e2 : elem) : Prop := str_cmp (e_str e1) (e_str e2) ≤ 0.

#[global] Instance elem_le_dec : RelDecision elem_le.
Proof. intros e1 e2. unfold elem_le. apply _. Defined.

(** *** What the operations compute, on sequences *)

(** Pairwise swap. *)
Fixpoint swap_pairs {A} (l : list A) : list A :=
  match l with
  | a :: b :: r => b :: a :: swap_pairs r
  | _ => l
  end.

(** The index at which the two-pointer walk of [q_delete_mid] stops. *)
Definition mid_index (n : nat) : nat := ((n - 1) `div` 2)%nat.

(** The merge of [sorted_merge] is [list_merge elem_le]: the front element
    goes first unless it compares greater than the back element.  The
    recursion of [merge_sort]: the front half takes the extra element. *)
Fixpoint msort (fuel : nat) (es : list elem) : list elem :=
  match fuel with
  | O => es
  | S fuel' =>
    match es with
    | [] | [_] => es
    | _ =>
      let k := ((length es + 1) `div` 2)%nat in
      list_merge elem_le (msort fuel' (take k es)) (msort fuel' (drop k es))
    end
  end.

(** The pass of [q_delete_dup] over the elements still to visit. *)
Fixpoint dup_scan (last_dup : bool) (es : list elem) : list elem :=
  match es with
  | [] => []
  | e :: r =>
    let match_ := match r with
                  | e' :: _ => bool_decide (str_cmp (e_str e) (e_str e') = 0)
                  | [] => false
                  end in
    if match_ || last_dup then dup_scan match_ r else e :: dup_scan match_ r
  end.

(** The number of elements of [es] whose string is [s]. *)
Definition occurrences (s : list byte) (es : list elem) : nat :=
  length (filter (λ e, e_str e = s) es).

(** The elements whose string occurs exactly once. *)
Definition uniques (es : list elem) : list elem :=
  filter (λ e, occurrences (e_str e) es = 1%nat) es.

(** *** Deciding the predicates on a given heap *)

#[global] Instance path_dec f p xs q : Decision (path f p xs q).
Proof. revert p. induction xs as [|x xs IH]; intros p; simpl; apply _. Defined.

#[global] Instance ring_dec m head l : Decision (ring m head l).
Proof. unfold ring. apply _. Defined.

#[global] Instance terminated_dec b : Decision (terminated b).
Proof. unfold terminated. apply _. Defined.

#[global] Instance owns_dec m e : Decision (owns m e).
Proof. unfold owns. apply _. Defined.

#[global] Instance released_dec m e : Decision (released m e).
Proof. unfold released. apply _. Defined.

#[global] Instance queue_dec m head es : Decision (queue m head es).
Proof. unfold queue. apply _. Defined.

#[global] Instance mem_wf_dec m : Decision (mem_wf m).
Proof. unfold mem_wf. apply _. Defined.

#[global] Instance out_buffer_dec m sp bufsize es : Decision (out_buffer m sp bufsize es).
Proof. unfold out_buffer. destruct (bufs m !! sp); apply _. Defined.

(** *** Reading a queue off a heap, and a few concrete queues *)

(** The elements met by following [next] from [node] up to [head]. *)
Fixpoint traverse (fuel : nat) (m : mem) (head node : ptr) : list elem :=
  match fuel with
  | O => []
  | S fuel' =>
    if decide (node = head) then []
    else match nodes m !! node, vals m !! container_of node with
         | Some h, Some v =>
           match bufs m !! v with
           | Some b => Elem node v b :: traverse fuel' m head (next h)
           | None => []
           end
         | _, _ => []
         end
  end.

Definition elements (m : mem) (head : ptr) : list elem :=
  match nodes m !! head with
  | Some h => traverse (size (nodes m)) m head (next h)
  | None => []
  end.

Definition bytes (s : String.string) : list byte := String.list_byte_of_string s.

Fixpoint insert_tail_all (head : ptr) (ss : list String.string) : M unit :=
  match ss with
  | [] => ret tt
  | s :: r => q_insert_tail head (bytes s) >> insert_tail_all head r
  end.

(** The heap after [q_new] and one [q_insert_tail] per string, starting
    from the empty heap; the sentinel of the queue is at [demo_head]. *)
Definition demo_head : ptr := brk empty_mem.

Definition demo (ss : list String.string) : mem :=
  match (let* h := q_new in insert_tail_all h ss) empty_mem with
  | Ok _ m => m
  | Fault | OutOfFuel => empty_mem
  end.

(** The heap [demo ss] with one more buffer, of [n] bytes, at address
    [brk (demo ss)]: an output buffer for a removal. *)
Definition demo_out (ss : list String.string) (n : Z) : mem :=
  match malloc_chars n (demo ss) with
  | Ok _ m => m
  | Fault | OutOfFuel => empty_mem
  end.

(** *** Hoare-style reading of a run *)

(** The run of [c] from [m] returns, and leaves at [head] a queue with the
    ring invariant. *)
Definition keeps_ring {A} (c : M A) (m : mem) (head : ptr) : Prop :=
  ∃ r m' es', c m = Ok r m' ∧ queue m' head es' ∧
              ring_invariant m' head (e_node <$> es').

(** The output buffer [sp] of a removal, between the heaps [m] and [m']:
    it holds the first [bufsize - 1] characters of [s] and a terminator,
    within its first [bufsize] bytes. *)
Definition copied_out (m m' : mem) (sp : ptr) (bufsize : Z) (s : list byte) : Prop :=
  sp ≠ NULL →
  ∀ b, bufs m !! sp = Some b →
    ∃ out, bufs m' !! sp = Some out ∧
           length out = length b ∧
           cstr out = take (Z.to_nat (bufsize - 1)) s ∧
           out !! Z.to_nat (bufsize - 1) = Some x00 ∧
           drop (Z.to_nat bufsize) out = drop (Z.to_nat bufsize) b.

(** [wp c m Q]: from [m] the computation [c] returns normally, with a result
    and a heap that satisfy [Q]. *)
Definition wp {A} (c : M A) (m : mem) (Q : A → mem → Prop) : Prop :=
  match c m with
  | Ok a m' => Q a m'
  | Fault | OutOfFuel => False
  end.

(** ** Further notions *)

(** The heap after [q_release_element] on each element of [es] in turn, as
    the traversal of [q_free] does. *)
Fixpoint release_all (m : mem) (es : list elem) : mem :=
  match es with
  | [] => m
  | e :: r => release_all (release m e) r
  end.

(** The element [e] differs in its string from the neighbour [o], if it has
    one. *)
Definition differs (o : option elem) (e : elem) : Prop :=
  match o with
  | Some x => e_str x ≠ e_str e
  | None => True
  end.

(** Strictly ascending order of two elements under [strcmp]. *)
Definition elem_lt (e1 e2 : elem) : Prop := str_cmp (e_str e1) (e_str e2) < 0.

(** The elements of [es] whose string is [s], in their order in [es]. *)
Definition with_str (s : list byte) (es : list elem) : list elem :=
  filter (λ e, e_str e = s) es.

#[global] Instance chain_dec f p xs : Decision (chain f p xs).
Proof. unfold chain. destruct xs; apply _. Defined.

(** The heap [m] with the [next] field of the node [p] set to [NULL]: the
    end of a NULL-terminated chain, as [q_sort] and [merge_sort] cut one. *)
Definition cut (p : ptr) (m : mem) : mem :=
  match store_next p NULL m with
  | Ok _ m' => m'
  | Fault | OutOfFuel => m
  end.

(** ** Reasoning about runs *)

Section wp_rules.
Context {A B : Type}.

Lemma wp_ret (a : A) m Q : Q a m → wp (ret a) m Q.
Proof. done. Qed.

Lemma wp_bind (c : M A) (k : A → M B) m Q :
  wp c m (λ a m', wp (k a) m' Q) → wp (bind c k) m Q.
Proof. unfold wp, bind. by destruct (c m). Qed.

Lemma wp_mono (c : M A) m (Q Q' : A → mem → Prop) :
  wp c m Q → (∀ a m', Q a m' → Q' a m') → wp c m Q'.
Proof. unfold wp. destruct (c m); auto. Qed.

Lemma wp_run (c : M A) m Q : wp c m Q → ∃ a m', c m = Ok a m' ∧ Q a m'.
Proof. unfold wp. destruct (c m); naive_solver. Qed.

Lemma run_wp (c : M A) m a m' (Q : A → mem → Prop) :
  c m = Ok a m' → Q a m' → wp c m Q.
Proof. unfold wp. by intros ->. Qed.
End wp_rules.

(** ** The link fields as maps *)

Lemma nx_lookup m p : nx m !! p = next <$> nodes m !! p.
Proof. unfold nx. by rewrite lookup_fmap. Qed.

Lemma pv_lookup m p : pv m !! p = prev <$> nodes m !! p.
Proof. unfold pv. by rewrite lookup_fmap. Qed.

Lemma nx_live m p : is_Some (nx m !! p) ↔ is_Some (nodes m !! p).
Proof. rewrite nx_lookup. apply fmap_is_Some. Qed.

Lemma pv_live m p : is_Some (pv m !! p) ↔ is_Some (nodes m !! p).
Proof. rewrite pv_lookup. apply fmap_is_Some. Qed.

Lemma nx_live_Some m p v : nx m !! p = Some v → is_Some (nodes m !! p).
Proof. intros H. apply nx_live. eauto. Qed.

Lemma pv_live_Some m p v : pv m !! p = Some v → is_Some (nodes m !! p).
Proof. intros H. apply pv_live. eauto. Qed.

Lemma live_dom m p : is_Some (nodes m !! p) ↔ p ∈ dom (nodes m).
Proof. by rewrite elem_of_dom. Qed.

Lemma relinked_refl m : relinked m m.
Proof. by repeat split. Qed.

Lemma relinked_trans m1 m2 m3 : relinked m1 m2 → relinked m2 m3 → relinked m1 m3.
Proof.
  intros (?&?&?&?&?) (?&?&?&?&?). repeat split; congruence.
Qed.

Lemma relinked_live m m' p :
  relinked m m' → is_Some (nodes m !! p) → is_Some (nodes m' !! p).
Proof. intros (Hd&_). rewrite !live_dom. by rewrite Hd. Qed.

Lemma relinked_owns m m' e : relinked m m' → owns m e → owns m' e.
Proof.
  intros (_&Hv&Hb&_) (?&?&?&?&?&?). unfold owns. rewrite Hv, Hb. done.
Qed.

Lemma mem_wf_alt m :
  mem_wf m ↔
  0 < brk m ∧
  (∀ k, is_Some (nodes m !! k) → 0 < k < brk m) ∧
  (∀ k, is_Some (vals m !! k) → 0 < k < brk m) ∧
  (∀ k, is_Some (bufs m !! k) → 0 < k < brk m).
Proof.
  unfold mem_wf, map_Forall. split.
  - intros (?&Hn&Hv&Hb). split_and!; [done|..]; intros k [x Hx]; eauto.
  - intros (?&Hn&Hv&Hb). split_and!; [done|..]; intros k x Hx; eauto.
Qed.

Lemma relinked_mem_wf m m' : relinked m m' → mem_wf m → mem_wf m'.
Proof.
  intros (Hd&Hv&Hb&Hk&_) (?&Hn&?&?)%mem_wf_alt. apply mem_wf_alt.
  rewrite Hv, Hb, Hk. split_and!; try done.
  intros k Hl. apply Hn. by rewrite live_dom, <- Hd, <- live_dom.
Qed.

(** ** Loads and stores *)

Lemma wp_load_next m p v (Q : Z → mem → Prop) :
  nx m !! p = Some v → Q v m → wp (load_next p) m Q.
Proof.
  rewrite nx_lookup. unfold wp, load_next.
  destruct (nodes m !! p); simpl; [|done]. by intros [= ->].
Qed.

Lemma wp_load_prev m p v (Q : Z → mem → Prop) :
  pv m !! p = Some v → Q v m → wp (load_prev p) m Q.
Proof.
  rewrite pv_lookup. unfold wp, load_prev.
  destruct (nodes m !! p); simpl; [|done]. by intros [= ->].
Qed.

Lemma wp_store_next m p v (Q : unit → mem → Prop) :
  is_Some (nodes m !! p) →
  (∀ m', nx m' = <[p := v]> (nx m) → pv m' = pv m → relinked m m' → Q tt m') →
  wp (store_next p v) m Q.
Proof.
  intros [h Hh] HQ. unfold wp, store_next. rewrite Hh. apply HQ.
  - unfold nx. simpl. by rewrite fmap_insert.
  - unfold pv. simpl. rewrite fmap_insert. simpl.
    apply insert_id. by rewrite lookup_fmap, Hh.
  - repeat split; simpl; try done.
    rewrite dom_insert_L. apply elem_of_dom_2 in Hh. set_solver.
Qed.

Lemma wp_store_prev m p v (Q : unit → mem → Prop) :
  is_Some (nodes m !! p) →
  (∀ m', pv m' = <[p := v]> (pv m) → nx m' = nx m → relinked m m' → Q tt m') →
  wp (store_prev p v) m Q.
Proof.
  intros [h Hh] HQ. unfold wp, store_prev. rewrite Hh. apply HQ.
  - unfold pv. simpl. by rewrite fmap_insert.
  - unfold nx. simpl. rewrite fmap_insert. simpl.
    apply insert_id. by rewrite lookup_fmap, Hh.
  - repeat split; simpl; try done.
    rewrite dom_insert_L. apply elem_of_dom_2 in Hh. set_solver.
Qed.

Lemma wp_load_value m e v (Q : Z → mem → Prop) :
  vals m !! e = Some v → Q v m → wp (load_value e) m Q.
Proof. unfold wp, load_value. by intros ->. Qed.

(** ** Paths *)

Lemma default_last_cons {A} (p x : A) (xs : list A) :
  default p (last (x :: xs)) = default x (last xs).
Proof. rewrite last_cons. by destruct (last xs). Qed.

Lemma default_last_snoc {A} (p x : A) (xs : list A) :
  default p (last (xs ++ [x])) = x.
Proof. by rewrite last_snoc. Qed.

Lemma default_last_in {A} (p : A) (xs : list A) :
  default p (last xs) ∈ p :: xs.
Proof.
  destruct (last xs) as [y|] eqn:Hl; simpl; [|set_solver].
  apply last_Some_elem_of in Hl. set_solver.
Qed.

Lemma default_head_in {A} (q : A) (xs : list A) :
  default q (head xs) ∈ xs ++ [q].
Proof. destruct xs; set_solver. Qed.

Section paths.
Implicit Types (f : gmap Z Z) (p q x : Z) (xs ys : list Z).

Lemma path_app f p xs y ys q :
  path f p (xs ++ y :: ys) q ↔ path f p xs y ∧ path f y ys q.
Proof.
  revert p. induction xs as [|x xs IH]; intros p; simpl; [done|].
  rewrite IH. naive_solver.
Qed.

Lemma path_snoc f p xs y q :
  path f p (xs ++ [y]) q ↔ path f p xs y ∧ f !! y = Some q.
Proof. by rewrite path_app. Qed.

Lemma path_frame f f' p xs q :
  (∀ k, k ∈ p :: xs → f' !! k = f !! k) → path f p xs q → path f' p xs q.
Proof.
  revert p. induction xs as [|x xs IH]; intros p Hf; simpl.
  - rewrite Hf by set_solver. done.
  - rewrite Hf by set_solver. intros [? ?]. split; [done|].
    apply IH; [|done]. intros k Hk. apply Hf. set_solver.
Qed.

Lemma path_insert_ne f p xs q k v :
  k ∉ p :: xs → path f p xs q → path (<[k := v]> f) p xs q.
Proof.
  intros Hk. apply path_frame. intros k' Hk'.
  rewrite lookup_insert_ne; [done|]. set_solver.
Qed.

Lemma path_live f p xs q k : path f p xs q → k ∈ p :: xs → is_Some (f !! k).
Proof.
  revert p. induction xs as [|x xs IH]; intros p; simpl.
  - intros ? ->%list_elem_of_singleton. eauto.
  - intros [? ?] [->|?]%elem_of_cons; eauto.
Qed.

(** The successor of the node in front of [ys], and the node in front of
    the position after [xs]. *)
Lemma path_redirect f p xs q q' :
  NoDup (p :: xs) → path f p xs q →
  path (<[default p (last xs) := q']> f) p xs q'.
Proof.
  revert p. induction xs as [|x xs IH]; intros p Hnd; simpl.
  - intros _. by rewrite lookup_insert_eq.
  - intros [Hp Hx]. apply NoDup_cons in Hnd as [Hnp Hnd].
    rewrite default_last_cons.
    split.
    + rewrite lookup_insert_ne; [done|].
      intros <-. apply Hnp. destruct (last xs) as [y|] eqn:Hl; simpl.
      * apply last_Some_elem_of in Hl. set_solver.
      * set_solver.
    + by apply IH.
Qed.

(** Unlinking [x]: its predecessor is pointed at its successor. *)
Lemma path_delete f p xs x ys q :
  NoDup (p :: xs ++ x :: ys) → path f p (xs ++ x :: ys) q →
  path (<[default p (last xs) := default q (head ys)]> f) p (xs ++ ys) q.
Proof.
  intros Hnd [Hxs Hys]%path_app.
  assert (NoDup (p :: xs)) as Hnd1.
  { rewrite app_comm_cons in Hnd. by apply NoDup_app in Hnd as [? _]. }
  assert (default p (last xs) ∉ x :: ys) as Hout.
  { apply NoDup_cons in Hnd as [Hp Hnd]. apply NoDup_app in Hnd as (_&Hd&_).
    destruct (last xs) as [y|] eqn:Hl; simpl.
    - apply last_Some_elem_of in Hl. by apply Hd.
    - set_solver. }
  destruct ys as [|y ys]; simpl in *.
  - rewrite app_nil_r. by eapply path_redirect.
  - destruct Hys as [Hx Hys]. apply path_app. split.
    + by eapply path_redirect.
    + apply path_insert_ne; [|done]. set_solver.
Qed.

(** Linking [x] in after the position that follows [xs]. *)
Lemma path_insert f p xs x ys q :
  NoDup (p :: xs ++ ys) → x ∉ p :: xs ++ ys → path f p (xs ++ ys) q →
  path (<[default p (last xs) := x]> (<[x := default q (head ys)]> f))
       p (xs ++ x :: ys) q.
Proof.
  intros Hnd Hx Hp.
  assert (NoDup (p :: xs)) as Hnd1.
  { rewrite app_comm_cons in Hnd. by apply NoDup_app in Hnd as [? _]. }
  assert (default p (last xs) ∈ p :: xs) as Hin.
  { destruct (last xs) as [y|] eqn:Hl; simpl.
    - apply last_Some_elem_of in Hl. set_solver.
    - set_solver. }
  assert (default p (last xs) ∉ ys) as Hout.
  { rewrite app_comm_cons in Hnd. apply NoDup_app in Hnd as (_&Hd&_).
    by apply Hd. }
  assert (x ≠ default p (last xs)) as Hne.
  { intros ->. apply Hx. rewrite app_comm_cons. set_solver. }
  apply path_app. destruct ys as [|y ys]; simpl in *.
  - rewrite app_nil_r in *. split.
    + eapply path_redirect; [done|]. apply path_insert_ne; [|done].
      set_solver.
    + rewrite lookup_insert_ne by done. by rewrite lookup_insert_eq.
  - apply path_app in Hp as [Hxs Hys]. split.
    + eapply path_redirect; [done|]. apply path_insert_ne; [|done].
      set_solver.
    + split.
      * rewrite lookup_insert_ne by done. by rewrite lookup_insert_eq.
      * apply path_insert_ne; [set_solver|].
        apply path_insert_ne; [set_solver|]. done.
Qed.

Lemma path_functional f p xs ys q :
  q ∉ xs → q ∉ ys → path f p xs q → path f p ys q → xs = ys.
Proof.
  revert p ys. induction xs as [|x xs IH]; intros p [|y ys]; simpl.
  - done.
  - intros _ Hq Hp [Hy _]. set_solver.
  - intros Hq _ [Hx _] Hp. set_solver.
  - intros Hq1 Hq2 [Hx Hxs] [Hy Hys]. simplify_eq. f_equal.
    eapply IH; [| |done|done]; set_solver.
Qed.
End paths.

Lemma path_between (f : gmap Z Z) p xs ys q :
  path f p (xs ++ ys) q → f !! default p (last xs) = Some (default q (head ys)).
Proof.
  revert p. induction xs as [|x xs IH]; intros p; simpl.
  - destruct ys; simpl; naive_solver.
  - intros [_ Hp]. rewrite default_last_cons. by apply IH.
Qed.

(** ** Rings *)

Lemma reverse_middle {A} (a b : list A) x :
  reverse (a ++ x :: b) = reverse b ++ x :: reverse a.
Proof. rewrite reverse_app, reverse_cons, <- app_assoc. done. Qed.

Lemma snoc_middle {A} (a b : list A) x : a ++ x :: b = (a ++ [x]) ++ b.
Proof. by rewrite <- app_assoc. Qed.

Lemma NoDup_reverse {A} (l : list A) : NoDup l → NoDup (reverse l).
Proof. by rewrite reverse_Permutation. Qed.

Lemma ring_eq m h l l' : ring m h l → l = l' → ring m h l'.
Proof. by intros ? <-. Qed.

(** Equations between lists that differ in the nesting of appends. *)
Ltac list_assoc := repeat (simpl; rewrite <- app_assoc); simpl; done.

Lemma node_lookup m p a b :
  nx m !! p = Some a → pv m !! p = Some b →
  nodes m !! p = Some (mk_list_head a b).
Proof.
  rewrite nx_lookup, pv_lookup. destruct (nodes m !! p) as [[??]|]; simpl; congruence.
Qed.

Section ring_facts.
Context (m : mem) (h : Z).
Implicit Types (l a b : list Z) (x : Z).

Lemma ring_NoDup l : ring m h l → NoDup (h :: l).
Proof. by intros (?&_). Qed.

Lemma ring_between a b :
  ring m h (a ++ b) →
  nx m !! default h (last a) = Some (default h (head b)) ∧
  pv m !! default h (head b) = Some (default h (last a)).
Proof.
  intros (_&Hn&Hp). split.
  - by apply path_between in Hn.
  - rewrite reverse_app in Hp. apply path_between in Hp.
    by rewrite last_reverse, head_reverse in Hp.
Qed.

Lemma ring_next_head l : ring m h l → nx m !! h = Some (default h (head l)).
Proof. intros Hr. by apply (ring_between [] l) in Hr as [? _]. Qed.

Lemma ring_prev_head l : ring m h l → pv m !! h = Some (default h (last l)).
Proof.
  intros Hr. rewrite <- (app_nil_r l) in Hr.
  by apply (ring_between l []) in Hr as [_ ?].
Qed.

Lemma ring_next a x b :
  ring m h (a ++ x :: b) → nx m !! x = Some (default h (head b)).
Proof.
  intros Hr. rewrite snoc_middle in Hr.
  apply ring_between in Hr as [? _]. by rewrite default_last_snoc in *.
Qed.

Lemma ring_prev a x b :
  ring m h (a ++ x :: b) → pv m !! x = Some (default h (last a)).
Proof. intros Hr. by apply ring_between in Hr as [_ ?]. Qed.

Lemma ring_live l x : ring m h l → x ∈ h :: l → is_Some (nodes m !! x).
Proof.
  intros (_&Hn&_) Hx. apply nx_live. by eapply path_live.
Qed.

Lemma ring_head_ne l x : ring m h l → x ∈ l → x ≠ h.
Proof. intros (Hnd&_) Hx ->. by apply NoDup_cons in Hnd as [? _]. Qed.

Lemma ring_first_ne l : ring m h l → l ≠ [] → default h (head l) ≠ h.
Proof.
  intros Hr Hl. destruct l as [|x l]; [done|]. simpl.
  eapply ring_head_ne; [done|]. set_solver.
Qed.

Lemma ring_last_ne l : ring m h l → l ≠ [] → default h (last l) ≠ h.
Proof.
  intros Hr Hl. destruct (last l) as [x|] eqn:E; simpl.
  - eapply ring_head_ne; [done|]. by eapply last_Some_elem_of.
  - by apply last_None in E.
Qed.

Lemma ring_self_loop l : ring m h l → (l = [] ↔ self_loop m h).
Proof.
  intros Hr. unfold self_loop. split.
  - intros ->. apply node_lookup.
    + by apply ring_next_head in Hr.
    + by apply ring_prev_head in Hr.
  - intros Hs. destruct l as [|x l]; [done|]. exfalso.
    pose proof (ring_next_head _ Hr) as Hn. rewrite nx_lookup, Hs in Hn.
    simpl in Hn. injection Hn as Hn.
    eapply (ring_head_ne (x :: l) x); [done|set_solver|done].
Qed.

(** Every node of a ring is the [prev] of its [next] and the [next] of
    its [prev]. *)
Lemma ring_circular l : ring m h l → circular m (h :: l).
Proof.
  intros Hr x Hx.
  assert (∀ a b, ring m h (a ++ b) →
    ∃ h1 h2, nodes m !! default h (last a) = Some h1 ∧
             nodes m !! default h (head b) = Some h2 ∧
             next h1 = default h (head b) ∧
             prev h2 = default h (last a)) as Hpair.
  { intros a b [Hn Hp]%ring_between.
    rewrite nx_lookup in Hn. rewrite pv_lookup in Hp.
    destruct (nodes m !! default h (last a)) as [h1|]; [|done].
    destruct (nodes m !! default h (head b)) as [h2|]; [|done].
    simpl in *. exists h1, h2. naive_solver. }
  apply elem_of_cons in Hx as [->|Hx].
  - destruct (Hpair [] l Hr) as (h1&h2&E1&E2&E3&E4).
    pose proof Hr as Hr'. rewrite <- (app_nil_r l) in Hr'.
    destruct (Hpair l [] Hr') as (h3&h4&E5&E6&E7&E8).
    simpl in *. simplify_eq. exists h1, h2, h3. rewrite E3, E8. done.
  - apply list_elem_of_split in Hx as (a&b&->).
    destruct (Hpair a (x :: b) Hr) as (h1&h2&E1&E2&E3&E4).
    pose proof Hr as Hr'. rewrite snoc_middle in Hr'.
    destruct (Hpair (a ++ [x]) b Hr') as (h3&h4&E5&E6&E7&E8).
    rewrite default_last_snoc in *. simpl in *. simplify_eq.
    exists h2, h4, h1. rewrite E7, E4. done.
Qed.

Lemma ring_ring_invariant l : ring m h l → ring_invariant m h l.
Proof.
  intros Hr. split_and!; [done|by apply ring_circular|by apply ring_self_loop].
Qed.
End ring_facts.

(** ** The primitives of list.h on rings *)

Lemma wp_list_empty m h l (Q : bool → mem → Prop) :
  ring m h l → Q (bool_decide (l = [])) m → wp (list_empty h) m Q.
Proof.
  intros Hr HQ. unfold list_empty. apply wp_bind.
  eapply wp_load_next; [by eapply ring_next_head|]. apply wp_ret.
  destruct l as [|x l]; simpl.
  - by rewrite bool_decide_eq_true_2.
  - rewrite bool_decide_eq_false_2; [done|].
    eapply (ring_head_ne m h (x :: l)); [done|set_solver].
Qed.

Lemma wp_list_is_singular m h l (Q : bool → mem → Prop) :
  ring m h l → Q (bool_decide (length l = 1%nat)) m →
  wp (list_is_singular h) m Q.
Proof.
  intros Hr HQ. unfold list_is_singular. apply wp_bind.
  eapply wp_list_empty; [done|].
  destruct l as [|x l]; simpl; [by apply wp_ret|].
  apply wp_bind. eapply wp_load_prev; [by eapply ring_prev_head|].
  apply wp_bind. eapply wp_load_next; [by eapply ring_next_head|].
  apply wp_ret. simpl. destruct l as [|y l]; simpl in *.
  - by rewrite bool_decide_eq_true_2.
  - rewrite bool_decide_eq_false_2; [done|].
    rewrite default_last_cons. intros E.
    apply ring_NoDup in Hr. apply NoDup_cons in Hr as [_ Hr].
    apply NoDup_cons in Hr as [Hx _]. apply Hx. rewrite <- E.
    apply default_last_in.
Qed.

Lemma wp_list_del m h a x b (Q : unit → mem → Prop) :
  ring m h (a ++ x :: b) →
  (∀ m', ring m' h (a ++ b) → relinked m m' →
         nx m' !! x = nx m !! x → pv m' !! x = pv m !! x → Q tt m') →
  wp (list_del x) m Q.
Proof.
  intros Hr HQ. pose proof Hr as (Hnd&Hn&Hp).
  pose proof (default_last_in h a) as Hla.
  pose proof (default_head_in h b) as Hhb.
  assert (default h (last a) ≠ x) as Hne1.
  { intros E. rewrite E in Hla. apply NoDup_cons in Hnd as [H1 H2].
    apply NoDup_app in H2 as (_&H2&_).
    apply elem_of_cons in Hla as [->|Hla]; [set_solver|].
    apply H2 in Hla. set_solver. }
  assert (default h (head b) ≠ x) as Hne2.
  { intros E. rewrite E in Hhb. apply NoDup_cons in Hnd as [H1 H2].
    apply NoDup_app in H2 as (_&_&H2). apply NoDup_cons in H2 as [H2 _].
    set_solver. }
  unfold list_del.
  apply wp_bind. eapply wp_load_next; [by eapply ring_next|].
  apply wp_bind. eapply wp_load_prev; [by eapply ring_prev|].
  apply wp_bind. apply wp_store_prev.
  { eapply ring_live; [done|]. set_solver. }
  intros m1 Hp1 Hn1 Hrel1.
  apply wp_store_next.
  { eapply relinked_live; [done|]. eapply ring_live; [done|]. set_solver. }
  intros m2 Hn2 Hp2 Hrel2.
  apply HQ.
  - split_and!.
    + apply NoDup_cons in Hnd as [H1 H2]. apply NoDup_cons. split; [set_solver|].
      apply NoDup_app in H2 as (?&?&[? ?]%NoDup_cons).
      apply NoDup_app. set_solver.
    + rewrite Hn2, Hn1. by eapply path_delete.
    + rewrite Hp2, Hp1. rewrite reverse_app.
      rewrite reverse_middle in Hp.
      eapply path_delete in Hp.
      * by rewrite last_reverse, head_reverse in Hp.
      * rewrite <- reverse_middle. apply NoDup_cons.
        apply NoDup_cons in Hnd as [H1 H2]. split.
        -- by rewrite elem_of_reverse.
        -- by apply NoDup_reverse.
  - by eapply relinked_trans.
  - rewrite Hn2, Hn1. by rewrite lookup_insert_ne.
  - rewrite Hp2, Hp1. by rewrite lookup_insert_ne.
Qed.

(** [list_add] of a node that is not in the ring, after the node that
    follows [a] (the sentinel when [a] is empty). *)
Lemma wp_list_add m h a b node (Q : unit → mem → Prop) :
  ring m h (a ++ b) → node ∉ h :: a ++ b → is_Some (nodes m !! node) →
  (∀ m', ring m' h (a ++ node :: b) → relinked m m' → Q tt m') →
  wp (list_add node (default h (last a))) m Q.
Proof.
  intros Hr Hnode Hlive HQ. pose proof Hr as (Hnd&Hn&Hp).
  pose proof (default_last_in h a) as Hla.
  pose proof (default_head_in h b) as Hhb.
  pose proof (ring_between _ _ _ _ Hr) as [Hnext Hprev].
  assert (default h (last a) ∈ h :: a ++ b) as Hla'.
  { rewrite app_comm_cons. set_solver. }
  assert (default h (head b) ∈ h :: a ++ b) as Hhb' by set_solver.
  unfold list_add.
  apply wp_bind. eapply wp_load_next; [done|].
  apply wp_bind. apply wp_store_prev; [by eapply ring_live|].
  intros m1 Hp1 Hn1 Hrel1.
  apply wp_bind. apply wp_store_next; [by eapply relinked_live|].
  intros m2 Hn2 Hp2 Hrel2.
  apply wp_bind. apply wp_store_prev.
  { eapply relinked_live; [done|]. by eapply relinked_live. }
  intros m3 Hp3 Hn3 Hrel3.
  apply wp_store_next.
  { do 3 (eapply relinked_live; [done|]). by eapply ring_live. }
  intros m4 Hn4 Hp4 Hrel4.
  apply HQ.
  - split_and!.
    + apply NoDup_cons in Hnd as [H1 H2]. apply NoDup_cons. split; [set_solver|].
      apply NoDup_app in H2 as (?&?&?). apply NoDup_app. split_and!; [done| |].
      * set_solver.
      * apply NoDup_cons. set_solver.
    + rewrite Hn4, Hn3, Hn2, Hn1. by apply path_insert.
    + rewrite Hp4, Hp3, Hp2, Hp1. rewrite reverse_middle.
      rewrite reverse_app in Hp. rewrite insert_insert_ne by set_solver.
      rewrite <- (last_reverse b), <- (head_reverse a).
      apply path_insert; [| |done].
      * rewrite <- reverse_app. apply NoDup_cons.
        apply NoDup_cons in Hnd as [H1 H2]. split.
        -- by rewrite elem_of_reverse.
        -- by apply NoDup_reverse.
      * rewrite <- reverse_app. rewrite not_elem_of_cons, elem_of_reverse. set_solver.
  - do 3 (eapply relinked_trans; [done|]). done.
Qed.

(** [list_add_tail] of a node that is not in the ring, before the node that
    starts [b] (the sentinel when [b] is empty). *)
Lemma wp_list_add_tail m h a b node (Q : unit → mem → Prop) :
  ring m h (a ++ b) → node ∉ h :: a ++ b → is_Some (nodes m !! node) →
  (∀ m', ring m' h (a ++ node :: b) → relinked m m' → Q tt m') →
  wp (list_add_tail node (default h (head b))) m Q.
Proof.
  intros Hr Hnode Hlive HQ. pose proof Hr as (Hnd&Hn&Hp).
  pose proof (default_last_in h a) as Hla.
  pose proof (default_head_in h b) as Hhb.
  pose proof (ring_between _ _ _ _ Hr) as [Hnext Hprev].
  assert (default h (last a) ∈ h :: a ++ b) as Hla'.
  { rewrite app_comm_cons. set_solver. }
  assert (default h (head b) ∈ h :: a ++ b) as Hhb' by set_solver.
  unfold list_add_tail.
  apply wp_bind. eapply wp_load_prev; [done|].
  apply wp_bind. apply wp_store_next; [by eapply ring_live|].
  intros m1 Hn1 Hp1 Hrel1.
  apply wp_bind. apply wp_store_next; [by eapply relinked_live|].
  intros m2 Hn2 Hp2 Hrel2.
  apply wp_bind. apply wp_store_prev.
  { eapply relinked_live; [done|]. by eapply relinked_live. }
  intros m3 Hp3 Hn3 Hrel3.
  apply wp_store_prev.
  { do 3 (eapply relinked_live; [done|]). by eapply ring_live. }
  intros m4 Hp4 Hn4 Hrel4.
  apply HQ.
  - split_and!.
    + apply NoDup_cons in Hnd as [H1 H2]. apply NoDup_cons. split; [set_solver|].
      apply NoDup_app in H2 as (?&?&?). apply NoDup_app. split_and!; [done| |].
      * set_solver.
      * apply NoDup_cons. set_solver.
    + rewrite Hn4, Hn3, Hn2, Hn1. rewrite insert_insert_ne by set_solver.
      by apply path_insert.
    + rewrite Hp4, Hp3, Hp2, Hp1. rewrite reverse_middle.
      rewrite reverse_app in Hp.
      rewrite <- (last_reverse b), <- (head_reverse a).
      apply path_insert; [| |done].
      * rewrite <- reverse_app. apply NoDup_cons.
        apply NoDup_cons in Hnd as [H1 H2]. split.
        -- by rewrite elem_of_reverse.
        -- by apply NoDup_reverse.
      * rewrite <- reverse_app. rewrite not_elem_of_cons, elem_of_reverse. set_solver.
  - do 3 (eapply relinked_trans; [done|]). done.
Qed.

Lemma ring_frame_insert m m' h l :
  ring m h l →
  (∀ k, k ∈ h :: l → nx m' !! k = nx m !! k) →
  (∀ k, k ∈ h :: l → pv m' !! k = pv m !! k) →
  ring m' h l.
Proof.
  intros (Hnd&Hn&Hp) H1 H2. split_and!; [done| |].
  - eapply path_frame; [|done]. done.
  - eapply path_frame; [|done]. intros k Hk. apply H2.
    rewrite elem_of_cons, elem_of_reverse in Hk. set_solver.
Qed.

Lemma wp_INIT_LIST_HEAD m h l x (Q : unit → mem → Prop) :
  ring m h l → x ∉ h :: l → is_Some (nodes m !! x) →
  (∀ m', ring m' h l → relinked m m' → self_loop m' x → Q tt m') →
  wp (INIT_LIST_HEAD x) m Q.
Proof.
  intros Hr Hx Hlive HQ. unfold INIT_LIST_HEAD.
  apply wp_bind. apply wp_store_next; [done|]. intros m1 Hn1 Hp1 Hrel1.
  apply wp_store_prev; [by eapply relinked_live|]. intros m2 Hp2 Hn2 Hrel2.
  apply HQ.
  - eapply ring_frame_insert; [done| |].
    + intros k Hk. rewrite Hn2, Hn1. rewrite lookup_insert_ne; [done|]. set_solver.
    + intros k Hk. rewrite Hp2, Hp1. rewrite lookup_insert_ne; [done|]. set_solver.
  - by eapply relinked_trans.
  - apply node_lookup.
    + rewrite Hn2, Hn1. by rewrite lookup_insert_eq.
    + rewrite Hp2. by rewrite lookup_insert_eq.
Qed.

Lemma ring_middle_notin m h a x b :
  ring m h (a ++ x :: b) → x ∉ h :: a ++ b.
Proof.
  intros (Hnd&_). apply NoDup_cons in Hnd as [H1 H2].
  apply NoDup_app in H2 as (?&Hd&[? ?]%NoDup_cons).
  rewrite not_elem_of_cons, not_elem_of_app. split_and!; [set_solver| |done].
  intros Hx. apply Hd in Hx. set_solver.
Qed.

Lemma wp_list_del_init m h a x b (Q : unit → mem → Prop) :
  ring m h (a ++ x :: b) →
  (∀ m', ring m' h (a ++ b) → relinked m m' → self_loop m' x → Q tt m') →
  wp (list_del_init x) m Q.
Proof.
  intros Hr HQ. unfold list_del_init. apply wp_bind.
  eapply wp_list_del; [done|]. intros m1 Hr1 Hrel1 _ _.
  eapply wp_INIT_LIST_HEAD; [done|by eapply ring_middle_notin| |].
  { eapply relinked_live; [done|]. eapply ring_live; [done|]. set_solver. }
  intros m2 Hr2 Hrel2 Hs. apply HQ; [done| |done]. by eapply relinked_trans.
Qed.

Lemma wp_list_move m h a x b (Q : unit → mem → Prop) :
  ring m h (a ++ x :: b) →
  (∀ m', ring m' h (x :: a ++ b) → relinked m m' → Q tt m') →
  wp (list_move x h) m Q.
Proof.
  intros Hr HQ. unfold list_move. apply wp_bind.
  eapply wp_list_del; [done|]. intros m1 Hr1 Hrel1 _ _.
  apply (wp_list_add m1 h [] (a ++ b) x); [done|exact (ring_middle_notin m h a x b Hr)| |].
  { eapply relinked_live; [done|]. eapply ring_live; [done|]. set_solver. }
  intros m2 Hr2 Hrel2. apply HQ; [done|]. by eapply relinked_trans.
Qed.

Lemma wp_list_add_after m h a y b node (Q : unit → mem → Prop) :
  ring m h (a ++ y :: b) → node ∉ h :: a ++ y :: b → is_Some (nodes m !! node) →
  (∀ m', ring m' h (a ++ y :: node :: b) → relinked m m' → Q tt m') →
  wp (list_add node y) m Q.
Proof.
  intros Hr Hn Hl HQ. rewrite <- (default_last_snoc h y a).
  rewrite snoc_middle in Hr, Hn.
  eapply wp_list_add; [done..|]. intros m'. rewrite <- snoc_middle. apply HQ.
Qed.

Lemma wp_list_add_head m h l node (Q : unit → mem → Prop) :
  ring m h l → node ∉ h :: l → is_Some (nodes m !! node) →
  (∀ m', ring m' h (node :: l) → relinked m m' → Q tt m') →
  wp (list_add node h) m Q.
Proof. intros Hr Hn Hl HQ. by apply (wp_list_add m h [] l node). Qed.

Lemma wp_list_add_tail_head m h l node (Q : unit → mem → Prop) :
  ring m h l → node ∉ h :: l → is_Some (nodes m !! node) →
  (∀ m', ring m' h (l ++ [node]) → relinked m m' → Q tt m') →
  wp (list_add_tail node h) m Q.
Proof.
  intros Hr Hn Hl HQ.
  pose proof (wp_list_add_tail m h l [] node Q) as H.
  simpl in H. rewrite app_nil_r in H. by apply H.
Qed.

(** ** Queues *)

Lemma queue_ring m h es : queue m h es → ring m h (e_node <$> es).
Proof. by intros (?&?&?). Qed.

Lemma queue_relinked m m' h es es' :
  queue m h es → relinked m m' → ring m' h (e_node <$> es') → es' ≡ₚ es →
  queue m' h es'.
Proof.
  intros (Hh&Hr&Ho&Hnd) Hrel Hr' Hperm. split_and!; [done|done| |].
  - rewrite Hperm. eapply Forall_impl; [done|]. intros e. by apply relinked_owns.
  - by rewrite Hperm.
Qed.

(** ** q_swap *)

Lemma swap_pairs_length {A} (l : list A) : length (swap_pairs l) = length l.
Proof.
  induction l as [l IH] using (induction_ltof1 _ (@length A)). unfold ltof in IH.
  destruct l as [|a [|b r]]; simpl; [done..|]. rewrite IH; simpl; lia.
Qed.

Lemma swap_pairs_perm {A} (l : list A) : swap_pairs l ≡ₚ l.
Proof.
  induction l as [l IH] using (induction_ltof1 _ (@length A)). unfold ltof in IH.
  destruct l as [|a [|b r]]; simpl; [done..|].
  rewrite IH by (simpl; lia). apply perm_swap.
Qed.

Lemma swap_pairs_fmap {A B} (f : A → B) (l : list A) :
  f <$> swap_pairs l = swap_pairs (f <$> l).
Proof.
  induction l as [l IH] using (induction_ltof1 _ (@length A)). unfold ltof in IH.
  destruct l as [|a [|b r]]; simpl; [done..|]. rewrite IH; simpl; [done|lia].
Qed.

Lemma swap_pairs_involutive {A} (l : list A) : swap_pairs (swap_pairs l) = l.
Proof.
  induction l as [l IH] using (induction_ltof1 _ (@length A)). unfold ltof in IH.
  destruct l as [|a [|b r]]; simpl; [done..|]. rewrite IH; simpl; [done|lia].
Qed.

Lemma swap_pairs_odd_last {A} (l : list A) x :
  Nat.Even (length l) → swap_pairs (l ++ [x]) = swap_pairs l ++ [x].
Proof.
  induction l as [l IH] using (induction_ltof1 _ (@length A)). unfold ltof in IH.
  destruct l as [|a [|b r]]; simpl; [done| |].
  - intros [k Hk]. lia.
  - intros [k Hk]. rewrite IH; [done|simpl; lia|]. exists (k - 1)%nat. lia.
Qed.

Lemma wp_swap_loop fuel : ∀ m h done rest (Q : unit → mem → Prop),
  ring m h (done ++ rest) → (length rest < fuel)%nat →
  (∀ m', ring m' h (done ++ swap_pairs rest) → relinked m m' → Q tt m') →
  wp (swap_loop fuel h (default h (head rest))) m Q.
Proof.
  induction fuel as [|fuel IH]; intros m h done rest Q Hr Hf HQ; [lia|].
  simpl. destruct rest as [|x [|y r]]; simpl in *.
  - apply wp_bind. eapply wp_load_next; [by eapply ring_next_head|].
    rewrite app_nil_r in *.
    destruct (decide (default h (head done) ≠ h)); [|apply wp_ret, HQ; [done|apply relinked_refl]].
    rewrite decide_False by naive_solver.
    apply wp_ret, HQ; [done|apply relinked_refl].
  - apply wp_bind. eapply wp_load_next; [by eapply ring_next|]. simpl.
    rewrite decide_False by naive_solver.
    apply wp_ret, HQ; [done|apply relinked_refl].
  - assert (x ≠ h ∧ y ≠ h) as [Hx Hy].
    { split; eapply (ring_head_ne m h); try done; set_solver. }
    apply wp_bind. eapply wp_load_next; [by eapply ring_next|]. simpl.
    rewrite decide_True by done. rewrite decide_True by done.
    apply wp_bind. eapply wp_load_next; [by eapply ring_next|]. simpl.
    apply wp_bind. eapply wp_list_del; [done|]. intros m1 Hr1 Hrel1 _ _.
    apply wp_bind. eapply wp_list_add_after; [done| |..].
    { exact (ring_middle_notin m h done x (y :: r) Hr). }
    { eapply relinked_live; [done|]. eapply ring_live; [done|]. set_solver. }
    intros m2 Hr2 Hrel2.
    apply wp_bind. eapply wp_load_next.
    { apply (ring_next m2 h (done ++ [y]) x r). by rewrite <- app_assoc. }
    apply (IH m2 h (done ++ [y; x]) r); [|lia|].
    + by rewrite <- app_assoc.
    + intros m3 Hr3 Hrel3. apply HQ.
      * by rewrite <- app_assoc in Hr3.
      * do 2 (eapply relinked_trans; [done|]). done.
Qed.

Lemma wp_q_swap fuel m h l (Q : unit → mem → Prop) :
  h ≠ NULL → ring m h l → (length l < fuel)%nat →
  (∀ m', ring m' h (swap_pairs l) → relinked m m' → (l = [] → m' = m) → Q tt m') →
  wp (q_swap fuel h) m Q.
Proof.
  intros Hh Hr Hf HQ. unfold q_swap. rewrite decide_False by done.
  apply wp_bind. eapply wp_list_empty; [done|].
  destruct l as [|x l]; simpl bool_decide; cbv iota.
  - apply wp_ret, HQ; [done|apply relinked_refl|done].
  - apply wp_bind. eapply wp_load_next; [by eapply ring_next_head|].
    apply (wp_swap_loop fuel m h [] (x :: l)); [done..|].
    intros m' ? ?. by apply HQ.
Qed.

(** ** q_reverse *)

Lemma wp_reverse_loop fuel : ∀ m h done rest safe (Q : unit → mem → Prop),
  ring m h (done ++ rest) → (length rest < fuel)%nat →
  (∀ x r, rest = x :: r → safe = default h (head r)) →
  (∀ m', ring m' h (reverse rest ++ done) → relinked m m' → Q tt m') →
  wp (for_each_safe_from fuel h (default h (head rest)) safe
        (λ node _ (_ : unit), list_move node h) tt) m Q.
Proof.
  induction fuel as [|fuel IH]; intros m h done rest safe Q Hr Hf Hs HQ; [lia|].
  simpl. destruct rest as [|x r]; simpl in *.
  - rewrite decide_True by done. rewrite app_nil_r in Hr.
    apply wp_ret, HQ; [done|apply relinked_refl].
  - assert (x ≠ h) as Hx.
    { eapply (ring_head_ne m h); [done|]. set_solver. }
    rewrite decide_False by done. rewrite (Hs x r eq_refl).
    apply wp_bind. eapply wp_list_move; [done|]. intros m1 Hr1 Hrel1.
    destruct r as [|y r]; simpl.
    + apply wp_bind. eapply wp_load_next; [by eapply ring_next_head|].
      apply (IH m1 h (x :: done ++ []) []); [by rewrite app_nil_r|simpl; lia|done|].
      intros m2 Hr2 Hrel2. simpl in Hr2. rewrite app_nil_r in Hr2.
      apply HQ; [done|]. by eapply relinked_trans.
    + apply wp_bind. eapply wp_load_next.
      { by apply (ring_next m1 h (x :: done) y r). }
      apply (IH m1 h (x :: done) (y :: r)); [done|simpl in *; lia|by intros ? ? [= <- <-]|].
      intros m2 Hr2 Hrel2. apply HQ.
      * rewrite (reverse_cons _ x), <- app_assoc. done.
      * by eapply relinked_trans.
Qed.

Lemma wp_q_reverse fuel m h l (Q : unit → mem → Prop) :
  h ≠ NULL → ring m h l → (length l < fuel)%nat →
  (∀ m', ring m' h (reverse l) → relinked m m' → (l = [] → m' = m) → Q tt m') →
  wp (q_reverse fuel h) m Q.
Proof.
  intros Hh Hr Hf HQ. unfold q_reverse. rewrite decide_False by done.
  apply wp_bind. eapply wp_list_empty; [done|].
  destruct l as [|x l]; simpl bool_decide; cbv iota.
  - apply wp_ret, HQ; [done|apply relinked_refl|done].
  - unfold list_for_each_safe.
    apply wp_bind. eapply wp_load_next; [by eapply ring_next_head|].
    apply wp_bind. eapply wp_load_next; [by eapply (ring_next m h [] x l)|].
    apply (wp_reverse_loop fuel m h [] (x :: l)); [done|done|by intros ? ? [= <- <-]|].
    intros m'. rewrite app_nil_r. intros ? ?. by apply HQ.
Qed.

(** ** Releasing an element *)

Lemma list_of_container_of p : list_of (container_of p) = p.
Proof. unfold list_of, container_of. lia. Qed.

Lemma container_of_list_of p : container_of (list_of p) = p.
Proof. unfold list_of, container_of. lia. Qed.

Lemma container_of_inj p q : container_of p = container_of q → p = q.
Proof. unfold container_of. lia. Qed.

Lemma wp_q_release_element m e (Q : unit → mem → Prop) :
  owns m e → is_Some (nodes m !! e_node e) → Q tt (release m e) →
  wp (q_release_element (container_of (e_node e))) m Q.
Proof.
  intros (Hn&Hc&Hv&Hval&Hbuf&_) [nd Hnd] HQ. unfold q_release_element.
  apply wp_bind. eapply wp_load_value; [done|].
  apply wp_bind. unfold wp at 1, free_chars.
  rewrite decide_False by done. rewrite Hbuf.
  unfold wp, free_element. rewrite decide_False by done. simpl.
  rewrite Hval, list_of_container_of, Hnd. done.
Qed.

Lemma release_released m e : released (release m e) e.
Proof. unfold released, release. simpl. by rewrite !lookup_delete_eq. Qed.

Lemma release_ring m h l e : ring m h l → e_node e ∉ h :: l → ring (release m e) h l.
Proof.
  intros Hr Hx. eapply ring_frame_insert; [done| |]; intros k Hk.
  - rewrite !nx_lookup. simpl. rewrite lookup_delete_ne; [done|]. set_solver.
  - rewrite !pv_lookup. simpl. rewrite lookup_delete_ne; [done|]. set_solver.
Qed.

Lemma release_owns m e e' :
  owns m e' → e_node e' ≠ e_node e → e_val e' ≠ e_val e → owns (release m e) e'.
Proof.
  intros (?&?&?&?&?&?) Hn Hv. unfold owns, release. simpl.
  rewrite !lookup_delete_ne; [done|done|]. intros E. by apply container_of_inj in E.
Qed.

Lemma release_mem_wf m e : mem_wf m → mem_wf (release m e).
Proof.
  intros (?&Hn&Hv&Hb)%mem_wf_alt. apply mem_wf_alt.
  unfold release. simpl. split_and!; [done|..].
  - intros k [x Hk]. apply Hn. apply lookup_delete_Some in Hk as [_ Hk]. eauto.
  - intros k [x Hk]. apply Hv. apply lookup_delete_Some in Hk as [_ Hk]. eauto.
  - intros k [x Hk]. apply Hb. apply lookup_delete_Some in Hk as [_ Hk]. eauto.
Qed.

Lemma queue_split_NoDup m h ea e ec :
  queue m h (ea ++ e :: ec) →
  Forall (λ e', e_node e' ≠ e_node e ∧ e_val e' ≠ e_val e) (ea ++ ec).
Proof.
  intros (_&(Hnd&_)&_&Hv). apply NoDup_cons in Hnd as [_ Hnd].
  rewrite fmap_app, fmap_cons in Hnd, Hv.
  apply NoDup_app in Hnd as (_&Hd1&[Hd2 _]%NoDup_cons).
  apply NoDup_app in Hv as (_&Hv1&[Hv2 _]%NoDup_cons).
  apply Forall_app. split; apply Forall_forall; intros e' He'.
  - split; intros E.
    + apply (Hd1 (e_node e')); [by apply list_elem_of_fmap_2|]. rewrite E. set_solver.
    + apply (Hv1 (e_val e')); [by apply list_elem_of_fmap_2|]. rewrite E. set_solver.
  - split; intros E.
    + apply Hd2. rewrite <- E. by apply list_elem_of_fmap_2.
    + apply Hv2. rewrite <- E. by apply list_elem_of_fmap_2.
Qed.

(** The queue after one of its elements was unlinked and released. *)
Lemma queue_release m m1 h ea e ec :
  queue m h (ea ++ e :: ec) → relinked m m1 →
  ring m1 h ((e_node <$> ea) ++ (e_node <$> ec)) →
  queue (release m1 e) h (ea ++ ec).
Proof.
  intros Hq Hrel1 Hr1. pose proof (queue_split_NoDup _ _ _ _ _ Hq) as Hne.
  destruct Hq as (Hh&Hr&Ho&Hv).
  rewrite fmap_app, fmap_cons in Hr.
  apply Forall_app in Ho as [Ho1 Ho2]. apply Forall_cons in Ho2 as [Hoe Ho2].
  split_and!; [done|..].
  - rewrite fmap_app. apply release_ring; [done|].
    by eapply ring_middle_notin.
  - assert (Forall (owns m) (ea ++ ec)) as Ho by (by apply Forall_app).
    eapply Forall_impl; [apply Forall_and; split; [exact Ho|exact Hne]|]. simpl.
    intros e' [Ho' [? ?]]. apply release_owns; [|done..].
    by eapply relinked_owns.
  - rewrite fmap_app, fmap_cons in Hv. rewrite fmap_app.
    apply NoDup_app in Hv as (?&Hd&[? ?]%NoDup_cons).
    apply NoDup_app. split_and!; [done| |done].
    intros x Hx Hx'. apply (Hd x); [done|]. set_solver.
Qed.

Lemma queue_owns m h es e : queue m h es → e ∈ es → owns m e.
Proof. intros (_&_&Ho&_) He. by eapply Forall_forall in Ho. Qed.

Lemma queue_live m h es e : queue m h es → e ∈ es → is_Some (nodes m !! e_node e).
Proof.
  intros (_&Hr&_) He. eapply ring_live; [done|].
  apply elem_of_cons. right. by apply list_elem_of_fmap_2.
Qed.

(** ** q_delete_mid *)

Lemma list_ends {A} (l : list A) :
  l = [] ∨ (∃ x, l = [x]) ∨ (∃ x mid y, l = x :: mid ++ [y]).
Proof.
  destruct l as [|x l]; [by left|]. right.
  destruct (decide (l = [])) as [->|Hl]; [left; eauto|]. right.
  destruct l as [|y l] using rev_ind; [done|]. eauto.
Qed.

Lemma mid_index_odd k : mid_index (2 * k + 1) = k.
Proof.
  unfold mid_index. replace (2 * k + 1 - 1)%nat with (k * 2)%nat by lia.
  apply Nat.div_mul. lia.
Qed.

Lemma mid_index_even k : mid_index (2 * k + 2) = k.
Proof.
  unfold mid_index. symmetry. apply (Nat.div_unique _ _ _ 1%nat); lia.
Qed.

Lemma wp_delete_mid_walk fuel : ∀ m h a mid c (Q : Z → mem → Prop),
  ring m h (a ++ mid ++ c) → mid ≠ [] → length a = length c →
  (length mid < fuel)%nat →
  (∀ a' x c', a ++ mid ++ c = a' ++ x :: c' →
              length a' = mid_index (length (a ++ mid ++ c)) → Q x m) →
  wp (delete_mid_walk fuel (default h (head mid)) (default h (last mid))) m Q.
Proof.
  induction fuel as [|fuel IH]; intros m h a mid c Q Hr Hmid Hac Hf HQ; [lia|].
  simpl. destruct (list_ends mid) as [->|[[x ->]|(x&mid'&y&->)]]; [done|..].
  - simpl. rewrite decide_True by done. apply wp_ret.
    apply (HQ a x c); [done|]. rewrite !length_app. simpl.
    replace (length a + S (length c))%nat with (2 * length c + 1)%nat by lia.
    by rewrite mid_index_odd.
  - rewrite default_last_cons, default_last_snoc. simpl head. simpl default.
    assert (x ≠ y) as Hxy.
    { apply ring_NoDup in Hr. apply NoDup_cons in Hr as [_ Hr].
      apply NoDup_app in Hr as (_&_&Hr). simpl in Hr.
      apply NoDup_cons in Hr as [Hx _]. set_solver. }
    rewrite decide_False by done.
    assert (a ++ (x :: mid' ++ [y]) ++ c = (a ++ x :: mid') ++ y :: c) as El
      by (simpl; by rewrite <- !app_assoc).
    assert (ring m h ((a ++ x :: mid') ++ y :: c)) as Hr' by (by rewrite <- El).
    apply wp_bind. eapply wp_load_prev; [by eapply ring_prev|].
    destruct mid' as [|z t].
    + rewrite default_last_snoc. rewrite decide_True by done. apply wp_ret.
      apply (HQ a x (y :: c)); [done|]. rewrite !length_app. simpl.
      replace (length a + S (S (length c)))%nat with (2 * length c + 2)%nat by lia.
      by rewrite mid_index_even.
    + rewrite last_app_cons, last_cons_cons.
      assert (default h (last (z :: t)) ≠ x) as Hne.
      { intros E. pose proof (default_last_in h (z :: t)) as Hin. rewrite E in Hin.
        apply ring_NoDup in Hr. apply NoDup_cons in Hr as [Hh Hr].
        apply NoDup_app in Hr as (_&_&Hr). simpl in Hr.
        apply NoDup_cons in Hr as [Hx _].
        apply elem_of_cons in Hin as [->|Hin]; set_solver. }
      rewrite decide_False by done.
      apply wp_bind. eapply wp_load_next.
      { apply (ring_next m h a x ((z :: t) ++ [y] ++ c)).
        eapply ring_eq; [exact Hr|list_assoc]. }
      apply wp_bind. eapply wp_load_prev; [by eapply ring_prev|].
      rewrite last_app_cons, last_cons_cons. simpl head. simpl default at 1.
      change z with (default h (head (z :: t))) at 1.
      apply (IH m h (a ++ [x]) (z :: t) (y :: c)).
      * eapply ring_eq; [exact Hr|list_assoc].
      * done.
      * rewrite length_app. simpl. lia.
      * simpl in Hf. rewrite length_app in Hf. simpl in *. lia.
      * intros a' w c' E1 E2. apply (HQ a' w c').
        -- rewrite <- E1. list_assoc.
        -- rewrite E2. f_equal. repeat (rewrite !length_app; simpl). lia.
Qed.

Lemma wp_q_delete_mid fuel m h es (Q : bool → mem → Prop) :
  queue m h es → es ≠ [] → (length es < fuel)%nat →
  (∀ ea e ec m1, es = ea ++ e :: ec → length ea = mid_index (length es) →
     relinked m m1 → queue (release m1 e) h (ea ++ ec) → Q true (release m1 e)) →
  wp (q_delete_mid fuel h) m Q.
Proof.
  intros Hq Hes Hf HQ. pose proof Hq as (Hh&Hr&Ho&Hv).
  unfold q_delete_mid. rewrite decide_False by done.
  apply wp_bind. eapply wp_list_empty; [done|].
  rewrite bool_decide_eq_false_2 by (by destruct es).
  apply wp_bind. eapply wp_load_next; [by eapply ring_next_head|].
  apply wp_bind. eapply wp_load_prev; [by eapply ring_prev_head|].
  apply wp_bind.
  apply (wp_delete_mid_walk fuel m h [] (e_node <$> es) []).
  { simpl. by rewrite app_nil_r. }
  { by destruct es. }
  { done. }
  { by rewrite length_fmap. }
  simpl. rewrite app_nil_r. intros a' x c' E Hlen.
  apply fmap_app_inv in E as (ea&ec'&->&E&->).
  symmetry in E. apply fmap_cons_inv in E as (e&ec&->&->&->).
  rewrite fmap_app, fmap_cons in Hr.
  apply wp_bind. eapply wp_list_del; [done|]. intros m1 Hr1 Hrel1 _ _.
  apply wp_bind. apply wp_q_release_element.
  { eapply relinked_owns; [done|]. eapply queue_owns; [done|]. set_solver. }
  { eapply relinked_live; [done|]. eapply queue_live; [done|]. set_solver. }
  apply wp_ret. apply (HQ ea e ec m1); [done| |done|by eapply queue_release].
  rewrite length_fmap in Hlen. by rewrite Hlen, length_fmap.
Qed.

(** ** Strings *)

Lemma cstr_NUL b : x00 ∉ cstr b.
Proof.
  induction b as [|c b IH]; simpl; [set_solver|].
  case_decide; set_solver.
Qed.

Lemma cstr_length b : (length (cstr b) ≤ length b)%nat.
Proof. induction b as [|c b IH]; simpl; [lia|]. case_decide; simpl; lia. Qed.

Lemma cstr_app_NUL s r : x00 ∉ s → cstr (s ++ x00 :: r) = s.
Proof.
  induction s as [|c s IH]; intros Hs.
  - done.
  - simpl. rewrite decide_False by set_solver. rewrite IH; [done|set_solver].
Qed.

Lemma cstr_idemp b : cstr (cstr b) = cstr b.
Proof.
  induction b as [|c b IH]; simpl; [done|].
  case_decide; simpl; [done|]. rewrite decide_False by done. by rewrite IH.
Qed.

Lemma cstr_pad s k r : x00 ∉ s → cstr (s ++ replicate k x00 ++ x00 :: r) = s.
Proof. intros Hs. destruct k; simpl; by apply cstr_app_NUL. Qed.

Lemma take_NUL (s : list byte) n : x00 ∉ s → x00 ∉ take n s.
Proof. intros Hs Ht. apply Hs. by eapply subseteq_take. Qed.

Lemma pad_length (s : list byte) n :
  length (take n s ++ replicate (n - length s) x00) = n.
Proof. rewrite length_app, length_take, length_replicate. lia. Qed.

Lemma strncpy_image_length s n : length (strncpy_image s n) = n.
Proof. apply pad_length. Qed.

Lemma copied_length s bufsize b :
  1 ≤ bufsize ≤ Z.of_nat (length b) → length (copied s bufsize b) = length b.
Proof.
  intros Hb. unfold copied. rewrite app_assoc, length_app, pad_length.
  simpl. rewrite length_drop. lia.
Qed.

Lemma copied_cstr s bufsize b :
  x00 ∉ s → cstr (copied s bufsize b) = take (Z.to_nat (bufsize - 1)) s.
Proof. intros Hs. unfold copied. by apply cstr_pad, take_NUL. Qed.

Lemma copied_terminator s bufsize b :
  copied s bufsize b !! Z.to_nat (bufsize - 1) = Some x00.
Proof.
  unfold copied. rewrite app_assoc.
  rewrite lookup_app_r; rewrite pad_length; [|lia].
  by rewrite Nat.sub_diag.
Qed.

Lemma copied_rest s bufsize b :
  1 ≤ bufsize →
  drop (Z.to_nat bufsize) (copied s bufsize b) = drop (Z.to_nat bufsize) b.
Proof.
  intros Hb. unfold copied. rewrite app_assoc.
  rewrite drop_app_ge; rewrite pad_length; [|lia].
  replace (Z.to_nat bufsize - Z.to_nat (bufsize - 1))%nat with 1%nat by lia.
  simpl. rewrite drop_0. f_equal. lia.
Qed.

(** ** The copy-out of the removals *)

Lemma wp_copy_out_null m e bufsize (Q : unit → mem → Prop) :
  Q tt m → wp (copy_out e NULL bufsize) m Q.
Proof. intros HQ. unfold copy_out. rewrite decide_False by naive_solver. by apply wp_ret. Qed.

Lemma wp_copy_out m e sp bufsize b (Q : unit → mem → Prop) :
  owns m e → sp ≠ NULL → bufs m !! sp = Some b → sp ≠ e_val e →
  1 ≤ bufsize ≤ Z.of_nat (length b) → bufsize < SIZE_MOD →
  Q tt (with_bufs m (<[sp := copied (e_str e) bufsize b]> (bufs m))) →
  wp (copy_out (container_of (e_node e)) sp bufsize) m Q.
Proof.
  intros (_&_&_&Hval&Hbuf&Hterm) Hsp Hb Hne Hsz Hmax HQ.
  unfold copy_out. rewrite decide_True by done.
  assert ((bufsize - 1) mod SIZE_MOD = bufsize - 1) as ->.
  { apply Z.mod_small. lia. }
  apply wp_bind. eapply wp_load_value; [done|].
  apply wp_bind. unfold wp at 1, strncpy. rewrite Hbuf.
  rewrite decide_True by (by left).
  unfold store_bytes. rewrite Hb. rewrite decide_True by lia.
  unfold wp, store_byte. simpl. rewrite lookup_insert_eq.
  rewrite decide_True; cycle 1.
  { rewrite length_app, strncpy_image_length, length_drop. lia. }
  rewrite insert_insert_eq.
  replace (<[Z.to_nat (bufsize - 1):=x00]>
     (strncpy_image (e_buf e) (Z.to_nat (bufsize - 1)) ++
      drop (Z.to_nat (bufsize - 1)) b)) with (copied (e_str e) bufsize b); [done|].
  unfold copied, strncpy_image, e_str.
  rewrite insert_app_r_alt; rewrite pad_length; [|lia].
  rewrite Nat.sub_diag, <- app_assoc. do 2 f_equal.
  destruct (lookup_lt_is_Some_2 b (Z.to_nat (bufsize - 1))) as [c Hc]; [lia|].
  by rewrite (drop_S _ _ _ Hc).
Qed.

(** ** q_remove_head and q_remove_tail *)

Lemma removed_copy_out m m1 h sp bufsize e es (Q : unit → mem → Prop) :
  relinked m m1 → queue m1 h es → owns m e → self_loop m1 (e_node e) →
  out_buffer m sp bufsize (e :: es) →
  (∀ m', removed m h sp bufsize e es m' → Q tt m') →
  wp (copy_out (container_of (e_node e)) sp bufsize) m1 Q.
Proof.
  intros Hrel Hq Ho Hs Hout HQ. pose proof Hrel as (Hd&Hv&Hb&Hk&Hp).
  destruct Hout as [->|Hout]; [|destruct (bufs m !! sp) as [b|] eqn:Hsp; [|done];
                               destruct Hout as (Hsz&Hmax&Hne)].
  - apply wp_copy_out_null. apply HQ. unfold removed.
    split_and!; [done|by eapply relinked_owns|done..|].
    by rewrite decide_True by done.
  - destruct (decide (sp = NULL)) as [->|Hnull].
    { apply wp_copy_out_null. apply HQ. unfold removed.
      split_and!; [done|by eapply relinked_owns|done..|].
      by rewrite decide_True by done. }
    rewrite fmap_cons, not_elem_of_cons in Hne. destruct Hne as [Hne1 Hne2].
    eapply wp_copy_out; [by eapply relinked_owns|done|by rewrite Hb|done..|].
    apply HQ. unfold removed. simpl. rewrite decide_False, Hsp by done.
    destruct Hq as (Hh&Hr&Hos&Hnd).
    split_and!; [split_and!|..]; try done.
    + apply Forall_forall. intros e' He'.
      pose proof (proj1 (Forall_forall _ _) Hos e' He') as (?&?&?&?&?&?).
      unfold owns. simpl. rewrite lookup_insert_ne; [done|].
      intros ->. apply Hne2. by apply list_elem_of_fmap_2.
    + destruct Ho as (?&?&?&?&?&?). unfold owns. simpl.
      rewrite Hv, Hb. rewrite lookup_insert_ne by done. done.
    + by rewrite Hb.
Qed.

Lemma wp_q_remove_head m h e es sp bufsize (Q : Z → mem → Prop) :
  queue m h (e :: es) → out_buffer m sp bufsize (e :: es) →
  (∀ m', removed m h sp bufsize e es m' → Q (container_of (e_node e)) m') →
  wp (q_remove_head h sp bufsize) m Q.
Proof.
  intros Hq Hout HQ. pose proof Hq as (Hh&Hr&Ho&Hv).
  unfold q_remove_head. rewrite decide_False by done.
  apply wp_bind. eapply wp_list_empty; [done|]. simpl.
  apply wp_bind. eapply wp_load_next; [by eapply ring_next_head|].
  apply wp_bind. eapply wp_load_next; [by eapply ring_next_head|]. simpl.
  apply wp_bind. apply (wp_list_del_init m h [] (e_node e) (e_node <$> es)); [done|].
  simpl. intros m1 Hr1 Hrel1 Hs1.
  apply wp_bind. eapply (removed_copy_out m m1 h sp bufsize e es); [done| |..|].
  - apply Forall_cons in Ho as [_ Ho]. apply NoDup_cons in Hv as [_ Hv].
    split_and!; [done|done| |done].
    eapply Forall_impl; [done|]. intros e'. by apply relinked_owns.
  - by apply Forall_cons in Ho as [? _].
  - done.
  - done.
  - intros m' Hm'. apply wp_ret. by apply HQ.
Qed.

Lemma wp_q_remove_tail m h e es sp bufsize (Q : Z → mem → Prop) :
  queue m h (es ++ [e]) → out_buffer m sp bufsize (e :: es) →
  (∀ m', removed m h sp bufsize e es m' → Q (container_of (e_node e)) m') →
  wp (q_remove_tail h sp bufsize) m Q.
Proof.
  intros Hq Hout HQ. pose proof Hq as (Hh&Hr&Ho&Hv).
  rewrite fmap_app in Hr, Hv. simpl in Hr, Hv.
  unfold q_remove_tail. rewrite decide_False by done.
  apply wp_bind. eapply wp_list_empty; [done|].
  rewrite bool_decide_eq_false_2 by (by destruct (e_node <$> es)).
  apply wp_bind. eapply wp_load_prev; [by eapply ring_prev_head|].
  apply wp_bind. eapply wp_load_prev; [by eapply ring_prev_head|].
  rewrite default_last_snoc.
  apply wp_bind. apply (wp_list_del_init m h (e_node <$> es) (e_node e) []); [done|].
  rewrite app_nil_r. intros m1 Hr1 Hrel1 Hs1.
  apply Forall_app in Ho as [Ho He]. apply Forall_cons in He as [He _].
  apply wp_bind. eapply (removed_copy_out m m1 h sp bufsize e es); [done| |done..|].
  - apply NoDup_app in Hv as (Hv&_&_).
    split_and!; [done|done| |done].
    eapply Forall_impl; [done|]. intros e'. by apply relinked_owns.
  - intros m' Hm'. apply wp_ret. by apply HQ.
Qed.

Lemma wp_q_remove_null_or_empty m h sp bufsize (Q : Z → mem → Prop) :
  h = NULL ∨ queue m h [] → Q NULL m →
  wp (q_remove_head h sp bufsize) m Q ∧ wp (q_remove_tail h sp bufsize) m Q.
Proof.
  intros [->|(Hh&Hr&_)] HQ; unfold q_remove_head, q_remove_tail.
  - rewrite !decide_True by done. done.
  - rewrite !decide_False by done. split.
    + apply wp_bind. eapply wp_list_empty; [done|]. by apply wp_ret.
    + apply wp_bind. eapply wp_list_empty; [done|]. by apply wp_ret.
Qed.

(** ** The allocator *)

Lemma q_insert_head_with : q_insert_head = q_insert_with list_add.
Proof. reflexivity. Qed.

Lemma q_insert_tail_with : q_insert_tail = q_insert_with list_add_tail.
Proof. reflexivity. Qed.

Lemma wp_alloc_fails m (Q : bool → mem → Prop) :
  Q (bool_decide (plan m !! 0%nat = Some true)) (with_plan m (tail (plan m))) →
  wp alloc_fails m Q.
Proof.
  unfold wp, alloc_fails. destruct m as [nd vs bs k [|[] pl]]; simpl; done.
Qed.

Lemma wp_malloc_element m (Q : Z → mem → Prop) :
  (plan m !! 0%nat = Some true → Q NULL (with_plan m (tail (plan m)))) →
  (plan m !! 0%nat ≠ Some true →
   Q (brk m) (Mem (<[list_of (brk m) := mk_list_head 0 0]> (nodes m))
                  (<[brk m := 0]> (vals m)) (bufs m)
                  (brk m + sizeof_element_t) (tail (plan m)))) →
  wp malloc_element m Q.
Proof.
  intros H1 H2. unfold malloc_element. apply wp_bind, wp_alloc_fails.
  case_bool_decide; [by apply H1|by apply H2].
Qed.

Lemma wp_malloc_chars m n (Q : Z → mem → Prop) :
  (plan m !! 0%nat = Some true → Q NULL (with_plan m (tail (plan m)))) →
  (plan m !! 0%nat ≠ Some true →
   Q (brk m) (Mem (nodes m) (vals m)
                  (<[brk m := replicate (Z.to_nat n) x00]> (bufs m))
                  (brk m + Z.max n 1) (tail (plan m)))) →
  wp (malloc_chars n) m Q.
Proof.
  intros H1 H2. unfold malloc_chars. apply wp_bind, wp_alloc_fails.
  case_bool_decide; [by apply H1|by apply H2].
Qed.

Lemma wp_store_value m e v (Q : unit → mem → Prop) :
  is_Some (vals m !! e) → Q tt (with_vals m (<[e := v]> (vals m))) →
  wp (store_value e v) m Q.
Proof. intros [x Hx] HQ. unfold wp, store_value. by rewrite Hx. Qed.

Lemma wp_free_element m p (Q : unit → mem → Prop) :
  p ≠ NULL → is_Some (vals m !! p) → is_Some (nodes m !! list_of p) →
  Q tt (Mem (delete (list_of p) (nodes m)) (delete p (vals m)) (bufs m) (brk m) (plan m)) →
  wp (free_element p) m Q.
Proof.
  intros Hp [x Hx] [y Hy] HQ. unfold wp, free_element.
  rewrite decide_False by done. by rewrite Hx, Hy.
Qed.

Lemma mem_wf_fresh m k :
  mem_wf m → brk m ≤ k →
  nodes m !! k = None ∧ vals m !! k = None ∧ bufs m !! k = None.
Proof.
  intros (_&Hn&Hv&Hb)%mem_wf_alt Hk. split_and!; apply eq_None_not_Some; intros Hs.
  - apply Hn in Hs. lia.
  - apply Hv in Hs. lia.
  - apply Hb in Hs. lia.
Qed.

(** ** The insertions *)

Lemma strlen_nonneg s : 0 ≤ strlen s.
Proof. unfold strlen. lia. Qed.

(** Failure: nothing of the heap but the allocator's bookkeeping changes. *)
Lemma wp_q_insert_with_fail link m h s (Q : bool → mem → Prop) :
  mem_wf m →
  h = NULL ∨ plan m !! 0%nat = Some true ∨ plan m !! 1%nat = Some true →
  (∀ m', nodes m' = nodes m → vals m' = vals m → bufs m' = bufs m → Q false m') →
  wp (q_insert_with link h s) m Q.
Proof.
  intros Hwf Hfail HQ. unfold q_insert_with.
  destruct (decide (h = NULL)) as [Hh|Hh]; [by apply wp_ret, HQ|].
  apply wp_bind, wp_malloc_element.
  { intros _. rewrite decide_True by done. by apply wp_ret, HQ. }
  intros Hp0. destruct Hfail as [?|[?|Hp1]]; [done..|].
  pose proof Hwf as (Hk&_). assert (brk m ≠ NULL) by (unfold NULL; lia).
  rewrite decide_False by done.
  apply wp_bind, wp_malloc_chars; simpl; cycle 1.
  { intros Hp. destruct (plan m) as [|? [|? ?]]; simplify_eq/=. }
  intros _. apply wp_bind, wp_store_value; simpl.
  { by rewrite lookup_insert_eq. }
  apply wp_bind. eapply wp_load_value; simpl.
  { by rewrite lookup_insert_eq. }
  rewrite decide_False by naive_solver.
  apply wp_bind, wp_free_element; simpl; [done|by rewrite lookup_insert_eq..|].
  apply wp_ret, HQ; simpl.
  - apply delete_insert_id.
    apply (mem_wf_fresh m); [done|unfold list_of, offsetof_list; lia].
  - rewrite insert_insert_eq. apply delete_insert_id.
    apply (mem_wf_fresh m); [done|lia].
  - done.
Qed.

Lemma wp_q_insert_with link m h s (Q : bool → mem → Prop) :
  h ≠ NULL → 0 < brk m →
  plan m !! 0%nat ≠ Some true → plan m !! 1%nat ≠ Some true →
  strlen s + 1 ≤ sizeof_size_t →
  wp (link (list_of (brk m)) h >> ret true) (prepared m s) Q →
  wp (q_insert_with link h s) m Q.
Proof.
  intros Hh Hk Hp0 Hp1 Hfit HQ. unfold q_insert_with.
  pose proof (strlen_nonneg s) as Hs. unfold sizeof_size_t in *.
  rewrite decide_False by done.
  apply wp_bind, wp_malloc_element; [done|]. intros _.
  assert (brk m ≠ NULL) by (unfold NULL; lia).
  rewrite decide_False by done.
  apply wp_bind, wp_malloc_chars; simpl.
  { intros Hp. destruct (plan m) as [|? [|? ?]]; simplify_eq/=. }
  intros _. apply wp_bind, wp_store_value; simpl.
  { by rewrite lookup_insert_eq. }
  apply wp_bind. eapply wp_load_value; simpl.
  { by rewrite lookup_insert_eq. }
  rewrite decide_True by (unfold NULL, sizeof_element_t; lia).
  apply wp_bind. unfold wp at 1, strncpy_arg, store_bytes. simpl.
  rewrite lookup_insert_eq. rewrite Z.mod_small by (unfold SIZE_MOD; lia).
  rewrite decide_True by (simpl; lia). simpl.
  rewrite !insert_insert_eq. exact HQ.
Qed.

(** The defect of the allocation size: a string of more than seven
    characters overruns the eight bytes the insertions allocate. *)
Lemma bind_run {A B} (c : M A) (k : A → M B) m a m' :
  c m = Ok a m' → bind c k m = k a m'.
Proof. unfold bind. by intros ->. Qed.

Lemma wp_eq_run {A} (c : M A) m a m' :
  wp c m (λ a0 m0, a0 = a ∧ m0 = m') → c m = Ok a m'.
Proof. unfold wp. destruct (c m); naive_solver. Qed.

Lemma wp_eq_run_ex {A} (c : M A) m a (P : mem → Prop) :
  wp c m (λ a0 m0, a0 = a ∧ P m0) → ∃ m', c m = Ok a m' ∧ P m'.
Proof. unfold wp. destruct (c m); naive_solver. Qed.

Lemma q_insert_with_overrun link m h s :
  h ≠ NULL → 0 < brk m →
  plan m !! 0%nat ≠ Some true → plan m !! 1%nat ≠ Some true →
  sizeof_size_t < strlen s + 1 < SIZE_MOD →
  q_insert_with link h s m = Fault.
Proof.
  intros Hh Hk Hp0 Hp1 Hfit. unfold q_insert_with.
  assert (brk m ≠ NULL) by (unfold NULL; lia).
  rewrite decide_False by done.
  erewrite bind_run; cycle 1.
  { apply wp_eq_run, wp_malloc_element; [done|]. by intros _. }
  rewrite decide_False by done.
  erewrite bind_run; cycle 1.
  { apply wp_eq_run, wp_malloc_chars; simpl; [|by intros _].
    intros Hp. destruct (plan m) as [|? [|? ?]]; simplify_eq/=. }
  simpl.
  erewrite bind_run; cycle 1.
  { apply wp_eq_run, wp_store_value; simpl; [by rewrite lookup_insert_eq|done]. }
  erewrite bind_run; cycle 1.
  { apply wp_eq_run. eapply wp_load_value; simpl; [by rewrite lookup_insert_eq|done]. }
  rewrite decide_True by (unfold NULL, sizeof_element_t; lia).
  unfold bind, strncpy_arg, store_bytes. simpl. rewrite lookup_insert_eq.
  rewrite Z.mod_small by (pose proof (strlen_nonneg s); lia).
  rewrite decide_False; [done|]. unfold sizeof_size_t in *. simpl. lia.
Qed.

Lemma new_elem_buf m s :
  strlen s + 1 ≤ sizeof_size_t →
  e_buf (new_elem m s) = cstr s ++ x00 :: replicate (Z.to_nat (sizeof_size_t - strlen s - 1)) x00.
Proof.
  intros Hfit. unfold new_elem, strncpy_image, strlen in *. cbn [e_buf].
  rewrite take_ge by lia. rewrite <- app_assoc. f_equal.
  replace (Z.to_nat (Z.of_nat (length (cstr s)) + 1) - length (cstr s))%nat
    with 1%nat by lia.
  rewrite drop_replicate. cbn [replicate app]. do 2 f_equal. lia.
Qed.

Lemma new_elem_str m s : strlen s + 1 ≤ sizeof_size_t → e_str (new_elem m s) = cstr s.
Proof.
  intros Hfit. unfold e_str. rewrite new_elem_buf by done.
  apply cstr_app_NUL, cstr_NUL.
Qed.

Lemma new_elem_size m s :
  strlen s + 1 ≤ sizeof_size_t → Z.of_nat (length (e_buf (new_elem m s))) = sizeof_size_t.
Proof.
  intros Hfit. rewrite new_elem_buf by done. pose proof (strlen_nonneg s).
  rewrite length_app. simpl. rewrite length_replicate. unfold strlen in *. lia.
Qed.

Lemma prepared_mem_wf m s : mem_wf m → mem_wf (prepared m s).
Proof.
  intros (Hk&Hn&Hv&Hb)%mem_wf_alt. apply mem_wf_alt.
  unfold prepared, sizeof_element_t, sizeof_size_t. simpl.
  split_and!; [lia|..]; intros k [x Hx].
  - apply lookup_insert_Some in Hx as [[<- _]|[_ Hx]].
    + unfold list_of, offsetof_list. lia.
    + assert (0 < k < brk m) by eauto. lia.
  - apply lookup_insert_Some in Hx as [[<- _]|[_ Hx]]; [lia|].
    assert (0 < k < brk m) by eauto. lia.
  - apply lookup_insert_Some in Hx as [[<- _]|[_ Hx]]; [lia|].
    assert (0 < k < brk m) by eauto. lia.
Qed.

Lemma prepared_owns m s e : mem_wf m → owns m e → owns (prepared m s) e.
Proof.
  intros (Hk&Hn&Hv&Hb)%mem_wf_alt (?&?&?&Hval&Hbuf&?). unfold owns, prepared. simpl.
  split_and!; try done.
  - rewrite lookup_insert_ne; [done|]. intros E.
    assert (0 < container_of (e_node e) < brk m) by eauto. lia.
  - rewrite lookup_insert_ne; [done|]. intros E.
    assert (0 < e_val e < brk m) by eauto. unfold sizeof_element_t in *. lia.
Qed.

Lemma prepared_new_elem m s :
  mem_wf m → strlen s + 1 ≤ sizeof_size_t → owns (prepared m s) (new_elem m s).
Proof.
  intros (Hk&_) Hfit. unfold owns. pose proof (strlen_nonneg s) as Hs.
  split_and!.
  - unfold new_elem, list_of, offsetof_list, NULL. simpl. lia.
  - simpl. rewrite container_of_list_of. unfold NULL. lia.
  - unfold new_elem, sizeof_element_t, NULL. simpl. lia.
  - simpl. rewrite container_of_list_of. by rewrite lookup_insert_eq.
  - simpl. by rewrite lookup_insert_eq.
  - unfold terminated. fold (e_str (new_elem m s)). rewrite new_elem_str by done.
    pose proof (new_elem_size m s Hfit). unfold strlen in *. lia.
Qed.

Lemma prepared_ring m h l s :
  mem_wf m → ring m h l → ring (prepared m s) h l ∧ list_of (brk m) ∉ h :: l.
Proof.
  intros (Hk&Hn&_)%mem_wf_alt Hr.
  assert (list_of (brk m) ∉ h :: l) as Hnew.
  { intros Hin. eapply ring_live in Hin; [|done]. apply Hn in Hin.
    unfold list_of, offsetof_list in Hin. lia. }
  split; [|done]. eapply ring_frame_insert; [done| |]; intros k Hin.
  - rewrite !nx_lookup. simpl. rewrite lookup_insert_ne; [done|]. by intros <-.
  - rewrite !pv_lookup. simpl. rewrite lookup_insert_ne; [done|]. by intros <-.
Qed.

Lemma prepared_fresh_val m h es s :
  mem_wf m → queue m h es → e_val (new_elem m s) ∉ e_val <$> es.
Proof.
  intros (Hk&_&_&Hb)%mem_wf_alt (_&_&Ho&_) (e&E&He)%list_elem_of_fmap.
  eapply Forall_forall in Ho as (_&_&_&_&Hbuf&_); [|done].
  assert (0 < e_val e < brk m) by eauto.
  rewrite <- E in *. unfold new_elem, sizeof_element_t in *. simpl in *. lia.
Qed.

(** The queue after a successful insertion at position [a ++ _ ++ b]. *)
Lemma queue_inserted m m' h ea eb s :
  mem_wf m → queue m h (ea ++ eb) → strlen s + 1 ≤ sizeof_size_t →
  relinked (prepared m s) m' →
  ring m' h (e_node <$> ea ++ new_elem m s :: eb) →
  queue m' h (ea ++ new_elem m s :: eb) ∧ mem_wf m'.
Proof.
  intros Hwf Hq Hfit Hrel Hr. pose proof Hq as (Hh&_&Ho&Hv). split.
  - split_and!; [done|done|..].
    + apply Forall_app in Ho as [Ho1 Ho2]. apply Forall_app. split; [|apply Forall_cons; split].
      * eapply Forall_impl; [done|]. intros e He.
        eapply relinked_owns; [done|]. by apply prepared_owns.
      * eapply relinked_owns; [done|]. by apply prepared_new_elem.
      * eapply Forall_impl; [done|]. intros e He.
        eapply relinked_owns; [done|]. by apply prepared_owns.
    + pose proof (prepared_fresh_val m h _ s Hwf Hq) as Hnew.
      rewrite fmap_app in Hv, Hnew. rewrite fmap_app, fmap_cons.
      apply NoDup_app in Hv as (?&Hd&?).
      apply NoDup_app. split_and!; [done| |].
      * intros x Hx [->|Hx']%elem_of_cons; [set_solver|]. by eapply Hd.
      * apply NoDup_cons. set_solver.
  - eapply relinked_mem_wf; [done|]. by apply prepared_mem_wf.
Qed.

Lemma wp_q_insert_head m h es s (Q : bool → mem → Prop) :
  queue m h es → mem_wf m →
  plan m !! 0%nat ≠ Some true → plan m !! 1%nat ≠ Some true →
  strlen s + 1 ≤ sizeof_size_t →
  (∀ m', queue m' h (new_elem m s :: es) → mem_wf m' →
         plan m' = tail (tail (plan m)) → Q true m') →
  wp (q_insert_head h s) m Q.
Proof.
  intros Hq Hwf Hp0 Hp1 Hfit HQ. pose proof Hq as (Hh&Hr&_). pose proof Hwf as (Hk&_).
  rewrite q_insert_head_with. apply wp_q_insert_with; [done..|].
  destruct (prepared_ring m h _ s Hwf Hr) as [Hr' Hnew].
  apply wp_bind. apply (wp_list_add_head _ h (e_node <$> es)); [done|done| |].
  { simpl. rewrite lookup_insert_eq. eauto. }
  intros m' Hr2 Hrel. apply wp_ret.
  destruct (queue_inserted m m' h [] es s) as [Hq' Hwf']; [done..|].
  apply HQ; [done..|]. by destruct Hrel as (_&_&_&_&->).
Qed.

Lemma wp_q_insert_tail m h es s (Q : bool → mem → Prop) :
  queue m h es → mem_wf m →
  plan m !! 0%nat ≠ Some true → plan m !! 1%nat ≠ Some true →
  strlen s + 1 ≤ sizeof_size_t →
  (∀ m', queue m' h (es ++ [new_elem m s]) → mem_wf m' →
         plan m' = tail (tail (plan m)) → Q true m') →
  wp (q_insert_tail h s) m Q.
Proof.
  intros Hq Hwf Hp0 Hp1 Hfit HQ. pose proof Hq as (Hh&Hr&_). pose proof Hwf as (Hk&_).
  rewrite q_insert_tail_with. apply wp_q_insert_with; [done..|].
  destruct (prepared_ring m h _ s Hwf Hr) as [Hr' Hnew].
  apply wp_bind. apply (wp_list_add_tail_head _ h (e_node <$> es)); [done|done| |].
  { simpl. rewrite lookup_insert_eq. eauto. }
  intros m' Hr2 Hrel. apply wp_ret.
  destruct (queue_inserted m m' h es [] s) as [Hq' Hwf']; [done|by rewrite app_nil_r|done|done| |].
  { by rewrite fmap_app. }
  apply HQ; [done..|]. by destruct Hrel as (_&_&_&_&->).
Qed.

(** ** q_new *)

Lemma wp_q_new m (Q : Z → mem → Prop) :
  mem_wf m → plan m !! 0%nat ≠ Some true →
  (∀ m', queue m' (brk m) [] → mem_wf m' → plan m' = tail (plan m) →
         vals m' = vals m → bufs m' = bufs m → Q (brk m) m') →
  wp q_new m Q.
Proof.
  intros Hwf Hp HQ. pose proof (proj1 (mem_wf_alt _) Hwf) as (Hk&Hn&Hv&Hb).
  unfold q_new. apply wp_bind. unfold malloc_list_head.
  apply wp_bind, wp_alloc_fails. rewrite bool_decide_eq_false_2 by done.
  unfold wp at 1. simpl.
  rewrite decide_False by (unfold NULL; lia).
  unfold INIT_LIST_HEAD. apply wp_bind.
  apply wp_bind, wp_store_next; simpl.
  { rewrite lookup_insert_eq. eauto. }
  intros m1 Hn1 Hp1 Hrel1. pose proof Hrel1 as (Hd1&Hv1&Hb1&Hk1&Hpl1).
  apply wp_store_prev.
  { eapply relinked_live; [done|]. simpl. rewrite lookup_insert_eq. eauto. }
  intros m2 Hp2 Hn2 Hrel2. pose proof Hrel2 as (Hd2&Hv2&Hb2&Hk2&Hpl2).
  apply wp_ret. simpl in *. apply HQ.
  - split_and!.
    + unfold NULL. lia.
    + split_and!.
      * apply NoDup_singleton.
      * simpl. rewrite Hn2, Hn1. by rewrite lookup_insert_eq.
      * simpl. rewrite Hp2. by rewrite lookup_insert_eq.
    + done.
    + apply NoDup_nil_2.
  - apply mem_wf_alt. rewrite Hv2, Hv1, Hb2, Hb1, Hk2, Hk1.
    unfold sizeof_list_head.
    split_and!; [lia|..]; intros k Hx.
    + apply live_dom in Hx. rewrite Hd2, Hd1, dom_insert_L in Hx.
      apply elem_of_union in Hx as [->%elem_of_singleton|Hx]; [lia|].
      apply live_dom, Hn in Hx. lia.
    + apply Hv in Hx. lia.
    + apply Hb in Hx. lia.
  - congruence.
  - congruence.
  - congruence.
Qed.

(** ** The order on strings *)

Lemma byte_Z_range c : 0 ≤ byte_Z c ≤ 255.
Proof. unfold byte_Z. pose proof (Byte.to_N_bounded c). lia. Qed.

Lemma byte_Z_inj c d : byte_Z c = byte_Z d → c = d.
Proof.
  unfold byte_Z. intros E. apply N2Z.inj in E.
  apply (f_equal Byte.of_N) in E. rewrite !Byte.of_to_N in E. congruence.
Qed.

Lemma byte_Z_pos c : c ≠ x00 → 0 < byte_Z c.
Proof.
  intros Hc. pose proof (byte_Z_range c).
  destruct (decide (byte_Z c = 0)) as [E|]; [|lia].
  exfalso. apply Hc. by apply byte_Z_inj.
Qed.

Lemma strcmp_bytes_cstr a b :
  terminated a → terminated b → strcmp_bytes a b = Some (str_cmp (cstr a) (cstr b)).
Proof.
  unfold terminated. revert b. induction a as [|x a IH]; intros [|y b]; simpl; try lia.
  destruct (decide (x = y)) as [->|Hxy].
  - destruct (decide (y = x00)) as [->|Hy]; simpl; [done|].
    intros Ha Hb. rewrite decide_True by done. apply IH; lia.
  - destruct (decide (x = x00)) as [->|Hx];
      destruct (decide (y = x00)) as [->|Hy]; simpl; intros _ _; try done.
    + f_equal. replace (byte_Z x00) with 0 by done. lia.
    + by rewrite decide_False by done.
Qed.

Lemma str_cmp_refl a : str_cmp a a = 0.
Proof. induction a as [|x a IH]; simpl; [done|]. by rewrite decide_True. Qed.

Lemma str_cmp_eq a b : x00 ∉ a → x00 ∉ b → str_cmp a b = 0 → a = b.
Proof.
  revert b. induction a as [|x a IH]; intros [|y b] Ha Hb; simpl; try done.
  - intros E. assert (0 < byte_Z y) by (apply byte_Z_pos; set_solver). lia.
  - intros E. assert (0 < byte_Z x) by (apply byte_Z_pos; set_solver). lia.
  - case_decide as Hxy.
    + subst. intros E. f_equal. apply IH; [set_solver..|done].
    + intros E. exfalso. apply Hxy, byte_Z_inj. lia.
Qed.

Lemma str_cmp_antisym a b : x00 ∉ a → x00 ∉ b →
  str_cmp a b ≤ 0 → str_cmp b a ≤ 0 → a = b.
Proof.
  revert b. induction a as [|x a IH]; intros [|y b] Ha Hb; simpl; try done.
  - intros _ E. assert (0 < byte_Z y) by (apply byte_Z_pos; set_solver). lia.
  - intros E. assert (0 < byte_Z x) by (apply byte_Z_pos; set_solver). lia.
  - case_decide as Hxy.
    + subst. rewrite decide_True by done. intros E1 E2. f_equal.
      apply IH; [set_solver..|done|done].
    + rewrite decide_False by done. intros E1 E2. exfalso.
      apply Hxy, byte_Z_inj. lia.
Qed.

Lemma str_cmp_total a b : str_cmp a b ≤ 0 ∨ str_cmp b a ≤ 0.
Proof.
  revert b. induction a as [|x a IH]; intros [|y b]; simpl.
  - lia.
  - pose proof (byte_Z_range y). lia.
  - pose proof (byte_Z_range x). lia.
  - case_decide as Hxy.
    + subst. rewrite decide_True by done. apply IH.
    + rewrite decide_False by done. lia.
Qed.

Lemma str_cmp_trans a b c : x00 ∉ a → x00 ∉ b → x00 ∉ c →
  str_cmp a b ≤ 0 → str_cmp b c ≤ 0 → str_cmp a c ≤ 0.
Proof.
  revert b c. induction a as [|x a IH]; intros [|y b] [|z c] Ha Hb Hc; simpl; try lia.
  - pose proof (byte_Z_range z). lia.
  - assert (0 < byte_Z x) by (apply byte_Z_pos; set_solver). lia.
  - assert (0 < byte_Z y) by (apply byte_Z_pos; set_solver). lia.
  - destruct (decide (x = y)) as [->|Hxy]; destruct (decide (y = z)) as [->|Hyz].
    + apply IH; set_solver.
    + lia.
    + rewrite decide_False by done. lia.
    + intros E1 E2. destruct (decide (x = z)) as [->|Hxz]; [|lia].
      exfalso. apply Hxy, byte_Z_inj. lia.
Qed.

#[global] Instance elem_le_total : Total elem_le.
Proof. intros e1 e2. apply str_cmp_total. Qed.

#[global] Instance elem_le_trans : Transitive elem_le.
Proof. intros e1 e2 e3. apply str_cmp_trans; apply cstr_NUL. Qed.

#[global] Instance elem_le_refl : Reflexive elem_le.
Proof. intros e. unfold elem_le. by rewrite str_cmp_refl. Qed.

Lemma elem_le_antisym e1 e2 : elem_le e1 e2 → elem_le e2 e1 → e_str e1 = e_str e2.
Proof. apply str_cmp_antisym; apply cstr_NUL. Qed.

Lemma elem_le_same e1 e2 : e_str e1 = e_str e2 → elem_le e1 e2.
Proof. unfold elem_le. intros ->. by rewrite str_cmp_refl. Qed.

Lemma str_cmp_0_iff e1 e2 : str_cmp (e_str e1) (e_str e2) = 0 ↔ e_str e1 = e_str e2.
Proof.
  split.
  - apply str_cmp_eq; apply cstr_NUL.
  - intros ->. apply str_cmp_refl.
Qed.

Lemma wp_strcmp m e1 e2 (Q : Z → mem → Prop) :
  owns m e1 → owns m e2 → Q (str_cmp (e_str e1) (e_str e2)) m →
  wp (strcmp (e_val e1) (e_val e2)) m Q.
Proof.
  intros (_&_&_&_&Hb1&Ht1) (_&_&_&_&Hb2&Ht2) HQ. unfold wp, strcmp.
  rewrite Hb1, Hb2. by rewrite strcmp_bytes_cstr.
Qed.

(** ** Duplicates in a sorted sequence *)

Lemma occurrences_app s l1 l2 :
  occurrences s (l1 ++ l2) = (occurrences s l1 + occurrences s l2)%nat.
Proof. unfold occurrences. by rewrite filter_app, length_app. Qed.

Lemma occurrences_cons s e l :
  occurrences s (e :: l) =
  ((if decide (e_str e = s) then 1 else 0) + occurrences s l)%nat.
Proof. unfold occurrences. rewrite filter_cons. by case_decide. Qed.

Lemma occurrences_zero s l : occurrences s l = 0%nat ↔ ∀ e, e ∈ l → e_str e ≠ s.
Proof.
  induction l as [|e l IH].
  - split; [set_solver|done].
  - rewrite occurrences_cons. case_decide as He.
    + split; [lia|]. intros H. exfalso. apply (H e); [set_solver|done].
    + simpl. rewrite IH. split.
      * intros H e' [->|?]%elem_of_cons; auto.
      * intros H e' ?. apply H. set_solver.
Qed.

Lemma sorted_before e pre :
  StronglySorted elem_le (pre ++ [e]) →
  occurrences (e_str e) pre = 0%nat ↔
  match last pre with Some p => e_str p ≠ e_str e | None => True end.
Proof.
  intros Hs. rewrite occurrences_zero.
  induction pre as [|p pre IHpre] using rev_ind; [set_solver|]. clear IHpre.
  rewrite last_snoc. split; [intros H; apply H; set_solver|].
  intros Hp q Hq Hqe.
  assert (elem_le p e) as Hpe.
  { eapply StronglySorted_app_1_elem_of; [done| |]; set_solver. }
  assert (elem_le q p) as Hqp.
  { apply elem_of_app in Hq as [Hq|Hq]; [|by apply list_elem_of_singleton in Hq as ->].
    apply StronglySorted_app_1_l in Hs.
    eapply StronglySorted_app_1_elem_of; [done| |]; set_solver. }
  assert (elem_le e q) as Heq by (by apply elem_le_same).
  apply Hp. rewrite <- Hqe. apply elem_le_antisym; [|done].
  by transitivity e.
Qed.

Lemma sorted_after e r :
  StronglySorted elem_le (e :: r) →
  occurrences (e_str e) r = 0%nat ↔
  match head r with Some n => e_str n ≠ e_str e | None => True end.
Proof.
  intros Hs. rewrite occurrences_zero.
  destruct r as [|n r]; [set_solver|]. simpl.
  split; [intros H; apply H; set_solver|].
  intros Hn q Hq Hqe.
  apply StronglySorted_inv in Hs as [Hs Hen].
  assert (elem_le e n) as Hen' by (eapply Forall_forall in Hen; [done|set_solver]).
  assert (elem_le n q) as Hnq.
  { apply elem_of_cons in Hq as [->|Hq]; [done|].
    apply StronglySorted_inv in Hs as [_ Hs]. by eapply Forall_forall in Hs. }
  assert (elem_le q e) as Hqe' by (by apply elem_le_same).
  apply Hn. apply elem_le_antisym; [|done]. by transitivity q.
Qed.

Lemma dup_scan_uniques_from rest : ∀ pre,
  StronglySorted elem_le (pre ++ rest) →
  dup_scan
    (match last pre, head rest with
     | Some p, Some e => bool_decide (str_cmp (e_str p) (e_str e) = 0)
     | _, _ => false
     end) rest =
  filter (λ e, occurrences (e_str e) (pre ++ rest) = 1%nat) rest.
Proof.
  induction rest as [|e r IH]; intros pre Hs; [done|].
  cbn [dup_scan head]. rewrite filter_cons.
  specialize (IH (pre ++ [e])). rewrite <- app_assoc in IH. simpl in IH.
  rewrite last_snoc in IH. specialize (IH Hs).
  assert ((match r with
           | [] => false
           | e' :: _ => bool_decide (str_cmp (e_str e) (e_str e') = 0)
           end) =
          match head r with
          | Some e0 => bool_decide (str_cmp (e_str e) (e_str e0) = 0)
          | None => false
          end) as Em by (by destruct r).
  rewrite Em, IH. clear IH Em.
  assert (StronglySorted elem_le (pre ++ [e])) as Hs1.
  { rewrite snoc_middle in Hs. by apply StronglySorted_app_1_l in Hs. }
  assert (StronglySorted elem_le (e :: r)) as Hs2.
  { by apply StronglySorted_app_1_r in Hs. }
  pose proof (sorted_before e pre Hs1) as HA.
  pose proof (sorted_after e r Hs2) as HB.
  rewrite occurrences_app, occurrences_cons.
  rewrite (decide_True (P := e_str e = e_str e)) by done.
  assert (match last pre with
          | Some p => bool_decide (str_cmp (e_str p) (e_str e) = 0)
          | None => false
          end = false ↔ occurrences (e_str e) pre = 0%nat) as Hld.
  { rewrite HA. destruct (last pre) as [p|]; [|done].
    by rewrite bool_decide_eq_false, str_cmp_0_iff. }
  assert (match head r with
          | Some n => bool_decide (str_cmp (e_str e) (e_str n) = 0)
          | None => false
          end = false ↔ occurrences (e_str e) r = 0%nat) as Hmt.
  { rewrite HB. destruct (head r) as [n|]; [|done].
    rewrite bool_decide_eq_false, str_cmp_0_iff. naive_solver. }
  destruct (match head r with
            | Some n => bool_decide (str_cmp (e_str e) (e_str n) = 0)
            | None => false
            end) eqn:Emt;
  destruct (match last pre with
            | Some p => bool_decide (str_cmp (e_str p) (e_str e) = 0)
            | None => false
            end) eqn:Eld; simpl.
  - rewrite decide_False; [done|]. intros E. assert (true = false); [|done].
    apply Hld. lia.
  - rewrite decide_False; [done|]. intros E. assert (true = false); [|done].
    apply Hmt. lia.
  - rewrite decide_False; [done|]. intros E. assert (true = false); [|done].
    apply Hld. lia.
  - rewrite decide_True; [done|].
    assert (occurrences (e_str e) pre = 0%nat) by (by apply Hld).
    assert (occurrences (e_str e) r = 0%nat) by (by apply Hmt). lia.
Qed.

Lemma dup_scan_uniques es :
  Sorted elem_le es → dup_scan false es = uniques es.
Proof.
  intros Hs. apply (Sorted_StronglySorted _) in Hs.
  apply (dup_scan_uniques_from es [] Hs).
Qed.

Lemma dup_scan_length ld es : (length (dup_scan ld es) ≤ length es)%nat.
Proof.
  revert ld. induction es as [|e r IH]; intros ld; simpl; [lia|].
  destruct (_ || ld); simpl; [|apply le_n_S]; etrans; try apply IH; lia.
Qed.

Lemma dup_scan_sublist ld es : dup_scan ld es `sublist_of` es.
Proof.
  revert ld. induction es as [|e r IH]; intros ld; simpl; [done|].
  destruct (_ || ld); [by apply sublist_cons|by apply sublist_skip].
Qed.

(** ** q_delete_dup *)

Lemma released_relinked m m' e : relinked m m' → released m e → released m' e.
Proof.
  intros (Hd&Hv&Hb&_) (Hn&?&?). unfold released. rewrite Hv, Hb.
  split_and!; [|done..]. apply not_elem_of_dom. rewrite Hd. by apply not_elem_of_dom.
Qed.

Lemma released_release m e e' : released m e → released (release m e') e.
Proof.
  intros (Hn&Hv&Hb). unfold released, release. simpl.
  split_and!; apply lookup_delete_None; by right.
Qed.

Lemma wp_delete_dup_body m h kept e r ld (Q : bool → mem → Prop) :
  queue m h (kept ++ e :: r) →
  (if (match r with
       | e' :: _ => bool_decide (str_cmp (e_str e) (e_str e') = 0)
       | [] => false
       end) || ld
   then ∀ m1, relinked m m1 → queue (release m1 e) h (kept ++ r) →
              Q (match r with
                 | e' :: _ => bool_decide (str_cmp (e_str e) (e_str e') = 0)
                 | [] => false
                 end) (release m1 e)
   else Q (match r with
           | e' :: _ => bool_decide (str_cmp (e_str e) (e_str e') = 0)
           | [] => false
           end) m) →
  wp (delete_dup_body h (e_node e) (default h (head (e_node <$> r))) ld) m Q.
Proof.
  intros Hq HQ. pose proof Hq as (Hh&Hr&Ho&Hv).
  rewrite fmap_app, fmap_cons in Hr.
  assert (owns m e) as Hoe by (eapply queue_owns; [done|set_solver]).
  unfold delete_dup_body. apply wp_bind.
  set (mt := match r with
             | e' :: _ => bool_decide (str_cmp (e_str e) (e_str e') = 0)
             | [] => false
             end) in *.
  assert (wp (if decide (default h (head (e_node <$> r)) ≠ h)
              then let* v1 := load_value (container_of (e_node e)) in
                   let* v2 := load_value (container_of (default h (head (e_node <$> r)))) in
                   let* c := strcmp v1 v2 in ret (bool_decide (c = 0))
              else ret false) m (λ b m', b = mt ∧ m' = m)) as Hmt.
  { destruct r as [|e' r']; simpl.
    - rewrite decide_False by naive_solver. by apply wp_ret.
    - assert (owns m e') as Hoe' by (eapply queue_owns; [done|set_solver]).
      assert (e_node e' ≠ h) as Hne.
      { eapply (ring_head_ne m h); [done|]. set_solver. }
      rewrite decide_True by done.
      apply wp_bind. eapply wp_load_value; [by destruct Hoe as (_&_&_&?&_)|].
      apply wp_bind. eapply wp_load_value; [by destruct Hoe' as (_&_&_&?&_)|].
      apply wp_bind. apply wp_strcmp; [done..|]. by apply wp_ret. }
  eapply wp_mono; [exact Hmt|]. intros b m' [-> ->].
  apply wp_bind. destruct (mt || ld).
  - apply wp_bind. eapply wp_list_del; [done|]. intros m1 Hr1 Hrel1 _ _.
    apply wp_q_release_element.
    { by eapply relinked_owns. }
    { eapply relinked_live; [done|]. eapply queue_live; [done|]. set_solver. }
    apply wp_ret. apply HQ; [done|]. by eapply queue_release.
  - by do 2 apply wp_ret.
Qed.

Lemma wp_dup_loop fuel : ∀ m h kept rest ld safe (Q : bool → mem → Prop),
  queue m h (kept ++ rest) → (length rest < fuel)%nat →
  (∀ e r, rest = e :: r → safe = default h (head (e_node <$> r))) →
  (∀ m' b, queue m' h (kept ++ dup_scan ld rest) →
           (∀ e, e ∈ rest → e ∉ dup_scan ld rest → released m' e) →
           (∀ e, released m e → released m' e) →
           (dup_scan ld rest = rest → m' = m) → Q b m') →
  wp (for_each_safe_from fuel h (default h (head (e_node <$> rest))) safe
        (delete_dup_body h) ld) m Q.
Proof.
  induction fuel as [|fuel IH]; intros m h kept rest ld safe Q Hq Hf Hs HQ; [lia|].
  simpl. destruct rest as [|e r].
  { simpl. rewrite decide_True by done. apply wp_ret. apply HQ; try done. }
  pose proof Hq as (Hh&Hr&Ho&Hv). rewrite fmap_app, fmap_cons in Hr.
  assert (e_node e ≠ h) as Hne.
  { eapply (ring_head_ne m h); [done|]. set_solver. }
  simpl head. simpl default. rewrite decide_False by done.
  rewrite (Hs e r eq_refl).
  apply wp_bind. eapply wp_delete_dup_body; [done|].
  set (mt := match r with
             | e' :: _ => bool_decide (str_cmp (e_str e) (e_str e') = 0)
             | [] => false
             end).
  assert (∀ m1 kept', queue m1 h (kept' ++ r) →
    (∀ m' b, queue m' h (kept' ++ dup_scan mt r) →
             (∀ e0, e0 ∈ r → e0 ∉ dup_scan mt r → released m' e0) →
             (∀ e0, released m1 e0 → released m' e0) →
             (dup_scan mt r = r → m' = m1) → Q b m') →
    wp (let* safe' := load_next (default h (head (e_node <$> r))) in
        for_each_safe_from fuel h (default h (head (e_node <$> r))) safe'
          (delete_dup_body h) mt) m1 Q) as Hnext.
  { intros m1 kept' Hq1 HQ1. pose proof Hq1 as (_&Hr1&_).
    rewrite fmap_app in Hr1.
    destruct r as [|e' r']; simpl in *.
    - apply wp_bind. eapply wp_load_next; [by eapply ring_next_head|].
      apply (IH m1 h kept' [] mt); [done|simpl; lia|done|done].
    - apply wp_bind. eapply wp_load_next; [by eapply ring_next|].
      apply (IH m1 h kept' (e' :: r') mt); [done|simpl; lia| |done].
      by intros ? ? [= <- <-]. }
  assert (dup_scan ld (e :: r)
          = if mt || ld then dup_scan mt r else e :: dup_scan mt r) as Eds by done.
  rewrite Eds in HQ. clear Eds. destruct (mt || ld) eqn:Ed.
  - intros m1 Hrel1 Hq1. apply (Hnext _ kept); [done|].
    intros m' b Hq' Hrel' Hfr' Hsame. apply (HQ m' b); [done| | |].
    + intros e0 [->|He0]%elem_of_cons Hnot.
      * apply Hfr'. apply release_released.
      * by apply Hrel'.
    + intros e0 He0. apply Hfr', released_release. by eapply released_relinked.
    + intros E. exfalso. pose proof (dup_scan_length mt r) as Hl.
      rewrite E in Hl. simpl in Hl. lia.
  - apply (Hnext _ (kept ++ [e])); [by rewrite <- app_assoc|].
    intros m' b Hq' Hrel' Hfr' Hsame. apply (HQ m' b).
    + by rewrite <- app_assoc in Hq'.
    + intros e0 [->|He0]%elem_of_cons Hnot; [set_solver|].
      apply Hrel'; [done|]. set_solver.
    + done.
    + intros [= E]. by apply Hsame.
Qed.

Lemma wp_q_delete_dup fuel m h es (Q : bool → mem → Prop) :
  queue m h es → (length es < fuel)%nat →
  (∀ m', queue m' h (dup_scan false es) →
         (∀ e, e ∈ es → e ∉ dup_scan false es → released m' e) →
         (dup_scan false es = es → m' = m) → Q true m') →
  wp (q_delete_dup fuel h) m Q.
Proof.
  intros Hq Hf HQ. pose proof Hq as (Hh&Hr&_).
  unfold q_delete_dup. rewrite decide_False by done.
  apply wp_bind. eapply wp_list_empty; [done|].
  destruct es as [|e r]; simpl bool_decide; cbv iota; cbn [negb].
  - apply wp_bind, wp_ret, wp_ret. apply HQ; done.
  - apply wp_bind, wp_bind. unfold list_for_each_safe.
    apply wp_bind. eapply wp_load_next; [by eapply ring_next_head|].
    apply wp_bind. eapply wp_load_next; [by eapply (ring_next m h [] (e_node e))|].
    apply (wp_dup_loop fuel m h [] (e :: r) false); [done|done|by intros ? ? [= <- <-]|].
    intros m' b Hq' Hrel' _ Hsame. do 2 apply wp_ret. by apply HQ.
Qed.

(** ** Merge sort on sequences *)

Lemma half_le n : (2 ≤ n → (n + 1) `div` 2 < n)%nat.
Proof.
  intros Hn. apply Nat.Div0.div_lt_upper_bound. lia.
Qed.

Lemma half_pos n : (2 ≤ n → 0 < (n + 1) `div` 2)%nat.
Proof.
  intros Hn. apply Nat.div_str_pos. lia.
Qed.

Lemma msort_unfold fuel e1 e2 es :
  msort (S fuel) (e1 :: e2 :: es) =
  list_merge elem_le
    (msort fuel (take ((length (e1 :: e2 :: es) + 1) `div` 2) (e1 :: e2 :: es)))
    (msort fuel (drop ((length (e1 :: e2 :: es) + 1) `div` 2) (e1 :: e2 :: es))).
Proof. reflexivity. Qed.

Lemma msort_short fuel es : (length es ≤ 1)%nat → msort fuel es = es.
Proof.
  destruct fuel; [done|]. destruct es as [|e1 [|e2 es]]; simpl; [done..|lia].
Qed.

Lemma msort_perm fuel : ∀ es, msort fuel es ≡ₚ es.
Proof.
  induction fuel as [|fuel IH]; intros es; [done|].
  destruct es as [|e1 [|e2 es]]; [done..|].
  rewrite msort_unfold, merge_Permutation, !IH. by rewrite take_drop.
Qed.

Lemma msort_length fuel es : length (msort fuel es) = length es.
Proof. by rewrite msort_perm. Qed.

Lemma msort_sorted fuel : ∀ es, (length es ≤ fuel)%nat → Sorted elem_le (msort fuel es).
Proof.
  induction fuel as [|fuel IH]; intros es Hf.
  - destruct es; [constructor|simpl in Hf; lia].
  - destruct es as [|e1 [|e2 es]]; [repeat constructor..|].
    rewrite msort_unfold. pose proof (half_le (length (e1 :: e2 :: es))) as Hk.
    pose proof (half_pos (length (e1 :: e2 :: es))) as Hk'.
    apply (Sorted_list_merge _); apply IH.
    + rewrite length_take. simpl in *. lia.
    + rewrite length_drop. simpl in *. lia.
Qed.

Lemma list_merge_sorted_app (xs ys : list elem) :
  StronglySorted elem_le (xs ++ ys) → list_merge elem_le xs ys = xs ++ ys.
Proof.
  induction xs as [|x xs IH]; intros Hs.
  - by rewrite list_merge_nil_l.
  - destruct ys as [|y ys].
    + by rewrite list_merge_nil_r, app_nil_r.
    + rewrite list_merge_cons. rewrite decide_True.
      * simpl. f_equal. apply IH. by apply StronglySorted_inv in Hs as [? _].
      * apply StronglySorted_inv in Hs as [_ Hs].
        eapply Forall_forall in Hs; [done|]. set_solver.
Qed.

Lemma msort_sorted_id fuel : ∀ es, Sorted elem_le es → msort fuel es = es.
Proof.
  induction fuel as [|fuel IH]; intros es Hs; [done|].
  destruct es as [|e1 [|e2 es]]; [done..|].
  rewrite msort_unfold.
  apply (Sorted_StronglySorted _) in Hs.
  set (k := ((length (e1 :: e2 :: es) + 1) `div` 2)%nat).
  rewrite <- (take_drop k (e1 :: e2 :: es)) in Hs.
  rewrite !IH.
  - rewrite list_merge_sorted_app by done. apply take_drop.
  - apply StronglySorted_Sorted. by apply StronglySorted_app_1_r in Hs.
  - apply StronglySorted_Sorted. by apply StronglySorted_app_1_l in Hs.
Qed.

(** ** Chains *)

Lemma chain_tail (f : gmap Z Z) x r :
  path f x r NULL → ∃ q, f !! x = Some q ∧ chain f q r.
Proof. destruct r as [|y r]; simpl; naive_solver. Qed.

Lemma chain_cons (f : gmap Z Z) y r l :
  chain f r l → y ∉ l → chain (<[y := r]> f) y (y :: l).
Proof.
  intros Hc Hy. split; [done|]. destruct l as [|z l]; simpl in *.
  - subst. by rewrite lookup_insert_eq.
  - destruct Hc as [-> Hp]. split; [by rewrite lookup_insert_eq|].
    by apply path_insert_ne.
Qed.

Lemma chain_path_cons (f : gmap Z Z) h r l :
  chain f r l → h ∉ l → path (<[h := r]> f) h l NULL.
Proof. intros Hc Hh. by apply (chain_cons f h r l) in Hc as [_ ?]. Qed.

Lemma chain_frame (f f' : gmap Z Z) p xs :
  (∀ k, k ∈ xs → f' !! k = f !! k) → chain f p xs → chain f' p xs.
Proof.
  destruct xs as [|x r]; simpl; [done|]. intros Hf [-> Hp].
  split; [done|]. by eapply path_frame.
Qed.

Lemma chain_NULL (f : gmap Z Z) p xs : chain f p xs → NULL ∉ xs → (p = NULL ↔ xs = []).
Proof. destruct xs as [|x r]; simpl; [done|]. intros [-> _] Hn. set_solver. Qed.

(** ** sorted_merge *)

Lemma wp_sorted_merge fuel : ∀ m xs ys p q (Q : Z → mem → Prop),
  chain (nx m) p (e_node <$> xs) → chain (nx m) q (e_node <$> ys) →
  NoDup (e_node <$> xs ++ ys) → NULL ∉ (e_node <$> xs ++ ys) →
  Forall (owns m) (xs ++ ys) → (length xs + length ys < fuel)%nat →
  (∀ r m', chain (nx m') r (e_node <$> list_merge elem_le xs ys) →
           relinked m m' → pv m' = pv m →
           (∀ k, k ∉ (e_node <$> xs ++ ys) → nx m' !! k = nx m !! k) → Q r m') →
  wp (sorted_merge fuel p q) m Q.
Proof.
  induction fuel as [|fuel IH]; intros m xs ys p q Q Hp Hq Hnd Hnull Ho Hf HQ; [lia|].
  simpl. destruct xs as [|x xs].
  { simpl in Hp. subst p. rewrite decide_True by (by left).
    rewrite decide_False by naive_solver. apply wp_ret.
    apply HQ; [by rewrite list_merge_nil_l|apply relinked_refl|done..]. }
  destruct Hp as [-> Hp]. destruct ys as [|y ys].
  { simpl in Hq. subst q. rewrite decide_True by (by right).
    rewrite decide_True by set_solver. apply wp_ret.
    apply HQ; [by rewrite list_merge_nil_r|apply relinked_refl|done..]. }
  destruct Hq as [-> Hq].
  rewrite decide_False by set_solver.
  assert (owns m x ∧ owns m y) as [Hox Hoy].
  { split; eapply Forall_forall in Ho; try done; set_solver. }
  apply wp_bind. eapply wp_load_value; [by destruct Hox as (_&_&_&?&_)|].
  apply wp_bind. eapply wp_load_value; [by destruct Hoy as (_&_&_&?&_)|].
  apply wp_bind. apply wp_strcmp; [done..|].
  rewrite list_merge_cons in HQ.
  rewrite fmap_app, !fmap_cons in Hnd, Hnull.
  destruct (decide (str_cmp (e_str x) (e_str y) > 0)) as [Hc|Hc].
  - rewrite decide_False in HQ by (unfold elem_le; lia).
    apply chain_tail in Hq as (bn&Hbn&Hq).
    apply wp_bind. eapply wp_load_next; [done|].
    apply wp_bind. apply (IH m (x :: xs) ys (e_node x) bn); [done|done|..].
    { rewrite fmap_app, fmap_cons. rewrite snoc_middle in Hnd.
      apply NoDup_app in Hnd as (Hn1&Hn2&Hn3). apply NoDup_app.
      apply NoDup_app in Hn1 as (?&?&?). split_and!; [done| |done].
      intros k Hk. apply Hn2. set_solver. }
    { rewrite fmap_app, fmap_cons. set_solver. }
    { apply Forall_app in Ho as [? [_ ?]%Forall_cons]. by apply Forall_app. }
    { simpl in *. lia. }
    intros r m1 Hr Hrel1 Hpv1 Hfr1.
    apply wp_bind. apply wp_store_next.
    { eapply relinked_live; [done|]. by eapply nx_live_Some. }
    intros m2 Hn2 Hp2 Hrel2. apply wp_ret. apply HQ.
    + rewrite fmap_cons, Hn2. apply chain_cons; [done|].
      rewrite merge_Permutation, fmap_app, fmap_cons.
      apply NoDup_app in Hnd as (_&Hd&[? _]%NoDup_cons).
      intros [Hin|Hin]%elem_of_app; [|done]. by apply Hd in Hin; set_solver.
    + by eapply relinked_trans.
    + congruence.
    + intros k Hk. rewrite Hn2. rewrite lookup_insert_ne by set_solver.
      apply Hfr1. rewrite fmap_app, fmap_cons in *. set_solver.
  - rewrite decide_True in HQ by (unfold elem_le; lia).
    apply chain_tail in Hp as (fn&Hfn&Hp).
    apply wp_bind. eapply wp_load_next; [done|].
    apply wp_bind. apply (IH m xs (y :: ys) fn (e_node y)); [done|done|..].
    { rewrite fmap_app, fmap_cons. by apply NoDup_cons in Hnd as [_ ?]. }
    { rewrite fmap_app, fmap_cons. set_solver. }
    { by apply Forall_cons in Ho as [_ ?]. }
    { simpl in *. lia. }
    intros r m1 Hr Hrel1 Hpv1 Hfr1.
    apply wp_bind. apply wp_store_next.
    { eapply relinked_live; [done|]. by eapply nx_live_Some. }
    intros m2 Hn2 Hp2 Hrel2. apply wp_ret. apply HQ.
    + rewrite fmap_cons, Hn2. apply chain_cons; [done|].
      rewrite merge_Permutation, fmap_app, fmap_cons.
      by apply NoDup_cons in Hnd as [? _].
    + by eapply relinked_trans.
    + congruence.
    + intros k Hk. rewrite Hn2. rewrite lookup_insert_ne by set_solver.
      apply Hfr1. rewrite fmap_app, fmap_cons in *. set_solver.
Qed.

(** ** merge_sort *)

Lemma half_odd k : ((2 * k + 2) `div` 2 = k + 1)%nat.
Proof. replace (2 * k + 2)%nat with ((k + 1) * 2)%nat by lia. apply Nat.div_mul. lia. Qed.

Lemma half_even k : ((2 * k + 3) `div` 2 = k + 1)%nat.
Proof. symmetry. apply (Nat.div_unique _ _ _ 1%nat); lia. Qed.

Lemma wp_split_walk fuel : ∀ m pre slow mid rest (Q : Z → mem → Prop),
  path (nx m) slow (mid ++ rest) NULL → NULL ∉ rest →
  length mid = length pre → (length rest < fuel)%nat →
  (∀ pre' s' post', pre ++ slow :: mid ++ rest = pre' ++ s' :: post' →
     (length pre' + 1)%nat = ((length (pre ++ slow :: mid ++ rest) + 1) `div` 2)%nat →
     Q s' m) →
  wp (split_walk fuel slow (default NULL (head rest))) m Q.
Proof.
  induction fuel as [|fuel IH]; intros m pre slow mid rest Q Hp Hnull Hlen Hf HQ; [lia|].
  simpl. destruct rest as [|f [|g rest]]; simpl default.
  - rewrite decide_True by done. apply wp_ret. apply (HQ pre slow mid); [by rewrite app_nil_r|].
    rewrite app_nil_r, length_app. cbn [length].
    match goal with |- _ = (?n `div` 2)%nat =>
      replace n with (2 * length pre + 2)%nat by lia end.
    by rewrite half_odd.
  - rewrite decide_False by set_solver.
    apply path_snoc in Hp as [Hp Hf'].
    apply wp_bind. eapply wp_load_next; [done|].
    rewrite decide_True by done. apply wp_ret. apply (HQ pre slow (mid ++ [f])); [done|].
    rewrite length_app. cbn [length]. rewrite length_app. cbn [length].
    match goal with |- _ = (?n `div` 2)%nat =>
      replace n with (2 * length pre + 3)%nat by lia end.
    by rewrite half_even.
  - rewrite decide_False by set_solver.
    pose proof Hp as Hp'. rewrite snoc_middle in Hp'.
    apply path_app in Hp' as [Hp1 Hg].
    apply path_snoc in Hp1 as [Hp1 Hf'].
    apply wp_bind. eapply wp_load_next; [done|].
    rewrite decide_False by set_solver.
    destruct (mid ++ [f]) as [|s' m0] eqn:Em; [by destruct mid|].
    assert (path (nx m) slow (s' :: m0 ++ g :: rest) NULL) as Hp2.
    { change (s' :: m0 ++ g :: rest) with ((s' :: m0) ++ g :: rest).
      rewrite <- Em, <- app_assoc. done. }
    destruct Hp2 as [Hs' Hp2].
    apply wp_bind. eapply wp_load_next; [done|].
    apply wp_bind. eapply wp_load_next; [done|].
    apply wp_bind. eapply wp_load_next.
    { instantiate (1 := default NULL (head rest)). destruct rest; simpl in *; naive_solver. }
    apply (IH m (pre ++ [slow]) s' (m0 ++ [g]) rest).
    + by rewrite <- app_assoc.
    + set_solver.
    + apply (f_equal length) in Em. rewrite !length_app in *. simpl in *. lia.
    + simpl in *. lia.
    + intros pre' s'' post' E Hl.
      assert (pre ++ slow :: mid ++ f :: g :: rest
              = (pre ++ [slow]) ++ s' :: (m0 ++ [g]) ++ rest) as El.
      { rewrite <- !app_assoc. simpl. do 2 f_equal.
        change (s' :: m0 ++ g :: rest) with ((s' :: m0) ++ g :: rest).
        rewrite <- Em, <- app_assoc. done. }
      apply (HQ pre' s'' post'); rewrite El; done.
Qed.

Lemma fmap_split_at {A B} (f : A → B) (l : list A) pre x post :
  f <$> l = pre ++ x :: post →
  f <$> take (length pre + 1) l = pre ++ [x] ∧ f <$> drop (length pre + 1) l = post.
Proof.
  intros E. rewrite fmap_take, fmap_drop, E, snoc_middle.
  replace (length pre + 1)%nat with (length (pre ++ [x])) by (rewrite length_app; simpl; lia).
  by rewrite take_app_length, drop_app_length.
Qed.

Lemma wp_merge_sort fuel : ∀ m es p (Q : Z → mem → Prop),
  chain (nx m) p (e_node <$> es) → NoDup (e_node <$> es) → NULL ∉ (e_node <$> es) →
  Forall (owns m) es → (length es < fuel)%nat →
  (∀ r m', chain (nx m') r (e_node <$> msort fuel es) →
           relinked m m' → pv m' = pv m →
           (∀ k, k ∉ (e_node <$> es) → nx m' !! k = nx m !! k) → Q r m') →
  wp (merge_sort fuel p) m Q.
Proof.
  induction fuel as [|fuel IH]; intros m es p Q Hp Hnd Hnull Ho Hf HQ; [lia|].
  cbn [merge_sort]. destruct es as [|e1 [|e2 es]].
  { simpl in Hp. subst. rewrite decide_True by done. apply wp_ret.
    apply HQ; [done|apply relinked_refl|done..]. }
  { destruct Hp as [-> Hp]. simpl in Hp. rewrite decide_False by set_solver.
    apply wp_bind. eapply wp_load_next; [done|]. rewrite decide_True by done.
    apply wp_ret. apply HQ; [done|apply relinked_refl|done..]. }
  destruct Hp as [-> Hp]. pose proof Hp as [Hp1 Hp2].
  rewrite decide_False by set_solver.
  apply wp_bind. eapply wp_load_next; [done|].
  rewrite decide_False by set_solver.
  apply wp_bind. eapply wp_load_next; [done|].
  apply wp_bind.
  pose proof (wp_split_walk (S fuel) m [] (e_node e1) [] (e_node <$> e2 :: es)) as Hsw.
  cbn [head default fmap list_fmap] in Hsw.
  apply Hsw; [done|set_solver|done|simpl in *; rewrite length_fmap; lia|]. clear Hsw.
  intros pre s' post E Hl. simpl app in E, Hl.
  change (e_node e1 :: e_node e2 :: (e_node <$> es))
    with (e_node <$> (e1 :: e2 :: es)) in E, Hl.
  rewrite length_fmap in Hl. rewrite msort_unfold in HQ. rewrite <- Hl in HQ.
  destruct (fmap_split_at _ _ _ _ _ E) as [Efront Eback].
  set (front := take (length pre + 1) (e1 :: e2 :: es)) in *.
  set (back := drop (length pre + 1) (e1 :: e2 :: es)) in *.
  assert (e1 :: e2 :: es = front ++ back) as Esplit by (symmetry; apply take_drop).
  assert (length front = (length pre + 1)%nat) as Hlf.
  { apply (f_equal length) in Efront. rewrite length_fmap, length_app in Efront. done. }
  assert (length front < S (length es + 1))%nat as Hlf'.
  { pose proof (half_le (length (e1 :: e2 :: es))). simpl length in *. lia. }
  assert (length back < S (length es + 1))%nat as Hlb.
  { apply (f_equal length) in Esplit. rewrite length_app in Esplit. simpl in Esplit. lia. }
  rewrite Esplit in Hnd, Hnull, Ho. rewrite fmap_app, Efront, Eback in Hnd, Hnull.
  clear Hp1 Hp2.
  assert (path (nx m) (e_node e1) (e_node <$> (e2 :: es)) NULL) as Hp' by exact Hp.
  clear Hp. rename Hp' into Hp.
  assert (path (nx m) (e_node e1) (tail (pre ++ [s'])) (default NULL (head post)) ∧
          chain (nx m) (default NULL (head post)) post ∧
          nx m !! s' = Some (default NULL (head post)) ∧
          head (pre ++ [s']) = Some (e_node e1)) as (Hpf&Hpb&Hs'&Hhd).
  { rewrite fmap_cons in E. destruct pre as [|x pre]; simpl in E; injection E as E1 E2.
    - subst s' post. simpl. simpl in Hp. naive_solver.
    - subst x. assert (path (nx m) (e_node e1) (pre ++ s' :: post) NULL) as Hp'
        by (rewrite <- E2; exact Hp).
      clear Hp. rename Hp' into Hp. simpl. rewrite snoc_middle in Hp.
      destruct post as [|y post]; simpl.
      + rewrite app_nil_r in Hp. apply path_snoc in Hp as [? ?]. split_and!; try done.
        apply path_snoc. done.
      + apply path_app in Hp as [Hp1 Hp2]. apply path_snoc in Hp1 as [? ?].
        split_and!; try done. by apply path_snoc. }
  apply wp_bind. eapply wp_load_next; [done|].
  apply wp_bind. apply wp_store_next; [by eapply nx_live_Some|].
  intros m1 Hn1 Hp1 Hrel1.
  assert (NoDup (pre ++ [s']) ∧ NoDup post ∧ (∀ k, k ∈ pre ++ [s'] → k ∉ post))
    as (Hndf&Hndb&Hdisj) by (by apply NoDup_app in Hnd as (?&?&?)).
  assert (chain (nx m1) (e_node e1) (e_node <$> front)) as Hcf.
  { rewrite Efront, Hn1. destruct pre as [|x pre]; simpl in *.
    - simplify_eq. split; [done|]. simpl. by rewrite lookup_insert_eq.
    - simplify_eq. split; [done|].
      replace s' with (default (e_node e1) (last (pre ++ [s']))) at 1
        by (by rewrite last_snoc).
      eapply path_redirect; [done|]. apply path_snoc.
      apply path_snoc in Hpf as [? _]. split; [done|]. done. }
  assert (chain (nx m1) (default NULL (head post)) (e_node <$> back)) as Hcb.
  { rewrite Eback. eapply chain_frame; [|done]. intros k Hk. rewrite Hn1.
    rewrite lookup_insert_ne; [done|]. intros <-. eapply Hdisj; [|done]. set_solver. }
  apply Forall_app in Ho as [Hof Hob]. cbn [length] in Hf.
  apply wp_bind. apply (IH m1 front (e_node e1)); [done|by rewrite Efront|..].
  { rewrite Efront. set_solver. }
  { eapply Forall_impl; [done|]. intros e. by apply relinked_owns. }
  { lia. }
  intros r1 m2 Hc1 Hrel2 Hpv2 Hfr2.
  apply wp_bind. apply (IH m2 back (default NULL (head post))).
  { eapply chain_frame; [|done]. intros k Hk. apply Hfr2.
    rewrite Efront. rewrite Eback in Hk. intros Hin. by eapply Hdisj. }
  { by rewrite Eback. }
  { rewrite Eback. set_solver. }
  { eapply Forall_impl; [done|]. intros e He.
    eapply relinked_owns; [done|]. by eapply relinked_owns. }
  { lia. }
  intros r2 m3 Hc2 Hrel3 Hpv3 Hfr3.
  assert (e_node <$> msort fuel front ≡ₚ pre ++ [s']) as Permf.
  { by rewrite msort_perm, Efront. }
  assert (e_node <$> msort fuel back ≡ₚ post) as Permb.
  { by rewrite msort_perm, Eback. }
  apply (wp_sorted_merge (S fuel) m3 (msort fuel front) (msort fuel back) r1 r2).
  { eapply chain_frame; [|done]. intros k Hk. apply Hfr3.
    rewrite Eback. rewrite Permf in Hk. by apply Hdisj. }
  { done. }
  { rewrite fmap_app, Permf, Permb. done. }
  { rewrite fmap_app, Permf, Permb. done. }
  { rewrite !msort_perm. apply Forall_app. split.
    - eapply Forall_impl; [exact Hof|]. intros e He.
      do 3 (eapply relinked_owns; [done|]). done.
    - eapply Forall_impl; [exact Hob|]. intros e He.
      do 3 (eapply relinked_owns; [done|]). done. }
  { rewrite !msort_length. apply (f_equal length) in Esplit.
    rewrite length_app in Esplit. cbn [length] in Esplit. lia. }
  intros r m4 Hc Hrel4 Hpv4 Hfr4. apply HQ.
  - done.
  - do 3 (eapply relinked_trans; [done|]). done.
  - congruence.
  - intros k Hk. rewrite Esplit, fmap_app, Efront, Eback in Hk.
    rewrite Hfr4, Hfr3, Hfr2, Hn1.
    + rewrite lookup_insert_ne; [done|]. set_solver.
    + rewrite Efront. set_solver.
    + rewrite Eback. set_solver.
    + rewrite fmap_app, Permf, Permb. done.
Qed.

(** ** Re-threading the [prev] links and closing the ring *)

Lemma back_linked_app (f : gmap Z Z) p xs ys :
  back_linked f p (xs ++ ys) ↔ back_linked f p xs ∧ back_linked f (default p (last xs)) ys.
Proof.
  revert p. induction xs as [|x xs IH]; intros p; simpl; [naive_solver|].
  rewrite IH, default_last_cons. naive_solver.
Qed.

Lemma back_linked_frame (f f' : gmap Z Z) p xs :
  (∀ k, k ∈ xs → f' !! k = f !! k) → back_linked f p xs → back_linked f' p xs.
Proof.
  revert p. induction xs as [|x xs IH]; intros p Hf; simpl; [done|].
  intros [? ?]. split.
  - rewrite Hf; [done|set_solver].
  - apply IH; [|done]. intros k Hk. apply Hf. set_solver.
Qed.

Lemma back_linked_path (f : gmap Z Z) p q xs :
  back_linked f p xs → f !! q = Some (default p (last xs)) →
  path f q (reverse xs) p.
Proof.
  revert q. induction xs as [|x xs IH] using rev_ind; intros q; simpl; [done|].
  rewrite back_linked_app, reverse_snoc, last_snoc. simpl.
  intros (Hxs&Hx&_) Hq. split; [done|]. by apply IH.
Qed.

Lemma wp_rethread fuel : ∀ m h done rest (Q : Z → mem → Prop),
  path (nx m) (default h (last done)) rest NULL →
  back_linked (pv m) h done →
  NoDup (h :: done ++ rest) → NULL ∉ rest → (length rest < fuel)%nat →
  (∀ m', back_linked (pv m') h (done ++ rest) → nx m' = nx m → relinked m m' →
         (∀ k, k ∉ rest → pv m' !! k = pv m !! k) →
         Q (default h (last (done ++ rest))) m') →
  wp (rethread fuel (default h (last done))) m Q.
Proof.
  induction fuel as [|fuel IH]; intros m h done rest Q Hp Hb Hnd Hnull Hf HQ; [lia|].
  simpl. destruct rest as [|y rest]; simpl in Hp.
  - apply wp_bind. eapply wp_load_next; [done|].
    rewrite decide_False by naive_solver. apply wp_ret.
    rewrite app_nil_r in HQ. apply HQ; [done|done|apply relinked_refl|done].
  - destruct Hp as [Hy Hp].
    apply wp_bind. eapply wp_load_next; [done|].
    rewrite decide_True by set_solver.
    apply wp_bind. apply wp_store_prev.
    { eapply nx_live. destruct rest; simpl in Hp; naive_solver. }
    intros m1 Hp1 Hn1 Hrel1.
    apply wp_bind. eapply wp_load_next; [by rewrite Hn1|].
    rewrite <- (default_last_snoc h y done).
    assert (y ∉ done) as Hyd.
    { apply NoDup_cons in Hnd as [_ Hnd]. apply NoDup_app in Hnd as (_&Hd&_).
      intros Hin. apply Hd in Hin. set_solver. }
    apply (IH m1 h (done ++ [y]) rest).
    + rewrite default_last_snoc, Hn1. done.
    + apply back_linked_app. split.
      * eapply back_linked_frame; [|done]. intros k Hk. rewrite Hp1.
        rewrite lookup_insert_ne; [done|]. by intros <-.
      * simpl. rewrite Hp1. by rewrite lookup_insert_eq.
    + by rewrite <- app_assoc.
    + set_solver.
    + simpl in Hf. lia.
    + intros m2 Hb2 Hn2 Hrel2 Hfr2. rewrite <- app_assoc in Hb2. rewrite <- app_assoc.
      apply HQ; [done|congruence|by eapply relinked_trans|].
      intros k Hk. rewrite Hfr2 by set_solver. rewrite Hp1.
      rewrite lookup_insert_ne; [done|]. set_solver.
Qed.

(** ** q_sort *)

Lemma queue_NULL m h es : queue m h es → NULL ∉ e_node <$> es.
Proof.
  intros (_&_&Ho&_) (e&E&He)%list_elem_of_fmap.
  eapply Forall_forall in Ho as (Hn&_); [|done]. congruence.
Qed.

Lemma wp_q_sort fuel m h es (Q : unit → mem → Prop) :
  queue m h es → (length es < fuel)%nat →
  (∀ m', queue m' h (msort fuel es) → relinked m m' →
         ((length es ≤ 1)%nat → m' = m) →
         (∀ k, k ∉ h :: (e_node <$> es) →
               nx m' !! k = nx m !! k ∧ pv m' !! k = pv m !! k) → Q tt m') →
  wp (q_sort fuel h) m Q.
Proof.
  intros Hq Hf HQ. pose proof Hq as (Hh&Hr&Ho&Hv).
  pose proof (queue_NULL _ _ _ Hq) as Hnull.
  unfold q_sort. rewrite decide_False by done.
  apply wp_bind. eapply wp_list_empty; [done|].
  destruct es as [|e1 es]; simpl bool_decide; cbv iota.
  { apply wp_ret, HQ; [|apply relinked_refl|done|done].
    by rewrite msort_short by (simpl; lia). }
  apply wp_bind. eapply wp_list_is_singular; [done|].
  destruct es as [|e2 es]; simpl bool_decide; cbv iota.
  { apply wp_ret, HQ; [|apply relinked_refl|done|done].
    by rewrite msort_short by (simpl; lia). }
  set (l := e_node <$> e1 :: e2 :: es) in *.
  pose proof Hr as (Hnd&Hn&Hp).
  apply wp_bind. eapply wp_load_prev; [by eapply ring_prev_head|].
  apply wp_bind. apply wp_store_next.
  { eapply ring_live; [done|]. apply default_last_in. }
  intros m1 Hn1 Hp1 Hrel1.
  assert (path (nx m1) h l NULL) as Hpath.
  { rewrite Hn1. by eapply path_redirect. }
  apply wp_bind. eapply wp_load_next; [by destruct Hpath as [? _]|].
  apply NoDup_cons in Hnd as [Hhl Hndl].
  apply wp_bind. apply (wp_merge_sort fuel m1 (e1 :: e2 :: es) (e_node e1)).
  { split; [done|]. by destruct Hpath as [_ ?]. }
  { done. }
  { done. }
  { eapply Forall_impl; [done|]. intros e. by apply relinked_owns. }
  { done. }
  intros r m2 Hc Hrel2 Hpv2 Hfr2.
  set (es' := msort fuel (e1 :: e2 :: es)) in *.
  assert (e_node <$> es' ≡ₚ l) as Hperm by (unfold es', l; by rewrite msort_perm).
  assert (h ∉ e_node <$> es') as Hhl' by (by rewrite Hperm).
  apply wp_bind. apply wp_store_next.
  { do 2 (eapply relinked_live; [done|]). eapply ring_live; [done|]. set_solver. }
  intros m3 Hn3 Hp3 Hrel3.
  assert (path (nx m3) h (e_node <$> es') NULL) as Hpath3.
  { rewrite Hn3. by apply chain_path_cons. }
  apply wp_bind. apply (wp_rethread fuel m3 h [] (e_node <$> es')).
  { done. }
  { done. }
  { simpl. apply NoDup_cons. split; [done|]. by rewrite Hperm. }
  { by rewrite Hperm. }
  { rewrite length_fmap. unfold es'. by rewrite msort_length. }
  simpl. intros m4 Hb4 Hn4 Hrel4 Hfr4.
  assert (is_Some (nodes m4 !! default h (last (e_node <$> es')))) as Hlive.
  { apply nx_live. rewrite Hn4. eapply path_live; [done|]. apply default_last_in. }
  apply wp_bind. apply wp_store_next; [done|].
  intros m5 Hn5 Hp5 Hrel5.
  apply wp_store_prev.
  { do 5 (eapply relinked_live; [done|]). eapply ring_live; [done|]. set_solver. }
  intros m6 Hp6 Hn6 Hrel6.
  assert (relinked m m6) as Hrel.
  { do 5 (eapply relinked_trans; [done|]). done. }
  assert (default h (last l) ∈ h :: l) as Hhp by apply default_last_in.
  assert (default h (last (e_node <$> es')) ∈ h :: l) as Htmp.
  { rewrite <- Hperm. apply default_last_in. }
  apply HQ; [|done|simpl; lia|]; cycle 1.
  { intros k Hk. fold l in Hk. split.
    - rewrite Hn6, Hn5, Hn4, Hn3.
      rewrite !lookup_insert_ne by set_solver.
      rewrite Hfr2 by set_solver. rewrite Hn1.
      rewrite lookup_insert_ne by set_solver. done.
    - rewrite Hp6, Hp5. rewrite lookup_insert_ne by set_solver.
      rewrite Hfr4 by (rewrite Hperm; set_solver). congruence. }
  eapply queue_relinked; [done|done| |by apply msort_perm].
  fold es'. split_and!.
  - apply NoDup_cons. split; [done|]. by rewrite Hperm.
  - rewrite Hn6, Hn5, Hn4. eapply path_redirect; [|done].
    apply NoDup_cons. split; [done|]. by rewrite Hperm.
  - rewrite Hp6, Hp5. apply back_linked_path.
    + eapply back_linked_frame; [|done]. intros k Hk.
      rewrite lookup_insert_ne; [done|]. by intros <-.
    + by rewrite lookup_insert_eq.
Qed.

(** Two heaps that hold the same ring and agree elsewhere are equal. *)
Lemma nodes_lookup_eq m m' k :
  nx m' !! k = nx m !! k → pv m' !! k = pv m !! k → nodes m' !! k = nodes m !! k.
Proof.
  rewrite !nx_lookup, !pv_lookup.
  destruct (nodes m' !! k) as [[??]|], (nodes m !! k) as [[??]|]; simpl; congruence.
Qed.

Lemma ring_lookup_eq m m' h l k :
  ring m h l → ring m' h l → k ∈ h :: l →
  nx m' !! k = nx m !! k ∧ pv m' !! k = pv m !! k.
Proof.
  intros Hr Hr' [->|Hk]%elem_of_cons.
  - rewrite (ring_next_head m h l), (ring_next_head m' h l) by done.
    rewrite (ring_prev_head m h l), (ring_prev_head m' h l) by done. done.
  - apply list_elem_of_split in Hk as (a&b&->).
    rewrite (ring_next m h a k b), (ring_next m' h a k b) by done.
    rewrite (ring_prev m h a k b), (ring_prev m' h a k b) by done. done.
Qed.

Lemma ring_heap_eq m m' h l :
  ring m h l → ring m' h l → relinked m m' →
  (∀ k, k ∉ h :: l → nx m' !! k = nx m !! k ∧ pv m' !! k = pv m !! k) →
  m' = m.
Proof.
  intros Hr Hr' (_&Hv&Hb&Hk&Hp) Hfr.
  assert (nodes m' = nodes m) as Hn.
  { apply map_eq. intros k. apply nodes_lookup_eq.
    - destruct (decide (k ∈ h :: l)) as [Hin|Hin].
      + by eapply ring_lookup_eq.
      + by apply Hfr.
    - destruct (decide (k ∈ h :: l)) as [Hin|Hin].
      + by eapply ring_lookup_eq.
      + by apply Hfr. }
  destruct m, m'. simpl in *. by subst.
Qed.

(** * The properties of the public operations *)

Lemma queue_ring_invariant m h es :
  queue m h es → ring_invariant m h (e_node <$> es).
Proof. intros Hq. apply ring_ring_invariant. by eapply queue_ring. Qed.

Lemma keeps_ring_intro {A} (c : M A) m h :
  wp c m (λ _ m', ∃ es', queue m' h es') → keeps_ring c m h.
Proof.
  intros (r&m'&Hrun&es'&Hq)%wp_run. exists r, m', es'.
  split_and!; [done..|]. by apply queue_ring_invariant.
Qed.

(** A heap that differs from one holding a queue in the allocator's
    bookkeeping only holds the same queue. *)
Lemma queue_same_heap m m' h es :
  nodes m' = nodes m → vals m' = vals m → bufs m' = bufs m →
  queue m h es → queue m' h es.
Proof.
  intros Hn Hv Hb (Hh&Hr&Ho&Hnd). split_and!; [done| |..|done].
  - unfold ring, nx, pv in *. by rewrite Hn.
  - eapply Forall_impl; [done|]. intros e. unfold owns. by rewrite Hv, Hb.
Qed.

(** ** Insertion *)

(** C1 (defect of the code).  The claim asks for a buffer of exactly
    [strlen(value) + 1] bytes.  Both insertions call
    [malloc(sizeof(length))]: the buffer has [sizeof(size_t) = 8] bytes
    whatever the string.  For "hi" (three bytes with its terminator) the
    buffer has eight bytes, and for "hello world" (twelve bytes with its
    terminator) [strncpy] writes past the end of the eight bytes, which the
    model reports as a fault. *)
Theorem insert_buffer_is_sizeof_size_t :
  let m := demo [] in
  q_insert_head demo_head (bytes "hello world") m = Fault ∧
  q_insert_tail demo_head (bytes "hello world") m = Fault ∧
  (∃ m', q_insert_head demo_head (bytes "hi") m = Ok true m' ∧
         bufs m' !! e_val (new_elem m (bytes "hi")) = Some (bytes "hi" ++ replicate 6 x00)) ∧
  (∃ m', q_insert_tail demo_head (bytes "hi") m = Ok true m' ∧
         bufs m' !! e_val (new_elem m (bytes "hi")) = Some (bytes "hi" ++ replicate 6 x00)).
Proof.
  split_and!.
  - by vm_compute.
  - by vm_compute.
  - eexists. split; by vm_compute.
  - eexists. split; by vm_compute.
Qed.

(** The same defect for every queue and every string that is too long. *)
Lemma q_insert_overrun m head s :
  head ≠ NULL → 0 < brk m →
  plan m !! 0%nat ≠ Some true → plan m !! 1%nat ≠ Some true →
  sizeof_size_t < strlen s + 1 < SIZE_MOD →
  q_insert_head head s m = Fault ∧ q_insert_tail head s m = Fault.
Proof.
  intros. rewrite q_insert_head_with, q_insert_tail_with.
  split; by apply q_insert_with_overrun.
Qed.

(** What the insertions do when the string fits the eight bytes they
    allocate: the new element holds a copy of the string in a buffer of
    [sizeof(size_t)] bytes and is linked first, respectively last. *)
Lemma q_insert_fits m head es s :
  queue m head es → mem_wf m →
  plan m !! 0%nat ≠ Some true → plan m !! 1%nat ≠ Some true →
  strlen s + 1 ≤ sizeof_size_t →
  e_str (new_elem m s) = cstr s ∧
  Z.of_nat (length (e_buf (new_elem m s))) = sizeof_size_t ∧
  (∃ m', q_insert_head head s m = Ok true m' ∧
         queue m' head (new_elem m s :: es) ∧ mem_wf m') ∧
  (∃ m', q_insert_tail head s m = Ok true m' ∧
         queue m' head (es ++ [new_elem m s]) ∧ mem_wf m').
Proof.
  intros Hq Hwf Hp0 Hp1 Hfit. split_and!.
  - by apply new_elem_str.
  - by apply new_elem_size.
  - apply (wp_eq_run_ex (q_insert_head head s) m).
    eapply wp_q_insert_head; [done..|]. intros m' ? ? _. eauto.
  - apply (wp_eq_run_ex (q_insert_tail head s) m).
    eapply wp_q_insert_tail; [done..|]. intros m' ? ? _. eauto.
Qed.

(** C7.  When the ring is null, or the allocation of the element fails, or
    the allocation of the string buffer fails, [q_insert_head] and
    [q_insert_tail] return [false], and the heap holds exactly the nodes,
    elements and buffers it held before: the ring is untouched and the
    element allocated before a failing buffer allocation is released. *)
Theorem q_insert_failure_rolls_back m head s :
  mem_wf m →
  head = NULL ∨ plan m !! 0%nat = Some true ∨ plan m !! 1%nat = Some true →
  (∃ m', q_insert_head head s m = Ok false m' ∧
         nodes m' = nodes m ∧ vals m' = vals m ∧ bufs m' = bufs m) ∧
  (∃ m', q_insert_tail head s m = Ok false m' ∧
         nodes m' = nodes m ∧ vals m' = vals m ∧ bufs m' = bufs m).
Proof.
  intros Hwf Hfail. rewrite q_insert_head_with, q_insert_tail_with.
  split; apply wp_eq_run_ex; (eapply wp_q_insert_with_fail; [done..|]); eauto.
Qed.

Lemma q_insert_failure_rolls_back_witness :
  let m := with_plan (demo ["fig"%string]) [false; true] in
  mem_wf m ∧
  ∃ m', q_insert_head demo_head (bytes "kiwi") m = Ok false m' ∧
        nodes m' = nodes m ∧ vals m' = vals m ∧ bufs m' = bufs m.
Proof.
  intros m.
  assert (mem_wf m) as Hwf by (apply (bool_decide_unpack _); by vm_compute).
  split; [exact Hwf|].
  apply (q_insert_failure_rolls_back m demo_head (bytes "kiwi") Hwf).
  right. right. by vm_compute.
Defined.

(** ** The ring invariant *)

Lemma insert_keeps_ring link m head es s :
  (link = list_add ∨ link = list_add_tail) →
  queue m head es → mem_wf m → strlen s + 1 ≤ sizeof_size_t →
  keeps_ring (q_insert_with link head s) m head.
Proof.
  intros Hlink Hq Hwf Hfit. apply keeps_ring_intro.
  destruct (decide (plan m !! 0%nat = Some true ∨ plan m !! 1%nat = Some true))
    as [Hfail|Hok].
  - eapply wp_q_insert_with_fail; [done|by right|].
    intros m' Hn Hv Hb. exists es. by eapply queue_same_heap.
  - destruct Hlink as [-> | ->].
    + rewrite <- q_insert_head_with. eapply wp_q_insert_head; [done|done| | |done|].
      * naive_solver.
      * naive_solver.
      * intros m' ? _ _. eauto.
    + rewrite <- q_insert_tail_with. eapply wp_q_insert_tail; [done|done| | |done|].
      * naive_solver.
      * naive_solver.
      * intros m' ? _ _. eauto.
Qed.

Lemma out_buffer_perm m sp bufsize es es' :
  es ≡ₚ es' → out_buffer m sp bufsize es → out_buffer m sp bufsize es'.
Proof.
  intros Hp [?|Ho]; [by left|right].
  destruct (bufs m !! sp); [|done]. by rewrite <- Hp.
Qed.

Lemma remove_keeps_ring m head es sp bufsize :
  queue m head es → out_buffer m sp bufsize es →
  keeps_ring (q_remove_head head sp bufsize) m head ∧
  keeps_ring (q_remove_tail head sp bufsize) m head.
Proof.
  intros Hq Hout. split; apply keeps_ring_intro.
  - destruct es as [|e es].
    + apply (wp_q_remove_null_or_empty m head sp bufsize); [by right|]. eauto.
    + eapply wp_q_remove_head; [done..|]. intros m' (?&_). eauto.
  - destruct es as [|e es _] using rev_ind.
    + apply (wp_q_remove_null_or_empty m head sp bufsize); [by right|]. eauto.
    + eapply wp_q_remove_tail; [done| |].
      * eapply out_buffer_perm; [|done]. by rewrite Permutation_app_comm.
      * intros m' (?&_). eauto.
Qed.

Lemma wp_q_delete_mid_empty fuel m h (Q : bool → mem → Prop) :
  queue m h [] → Q false m → wp (q_delete_mid fuel h) m Q.
Proof.
  intros (Hh&Hr&_) HQ. unfold q_delete_mid. rewrite decide_False by done.
  apply wp_bind. eapply wp_list_empty; [done|]. by apply wp_ret.
Qed.

(** X16.  What holds of the ring invariant.  From a heap that holds a
    queue, [q_remove_head], [q_remove_tail], [q_delete_mid],
    [q_delete_dup], [q_swap], [q_reverse] and [q_sort] return and leave a
    queue, whose ring is circular in both directions
    ([x->next->prev == x] and [x->prev->next == x] for the sentinel and for
    every element) and whose sentinel is a self-loop exactly when the queue
    is empty.  So do [q_insert_head] and [q_insert_tail] on a string that
    fits the eight bytes they allocate (at most seven characters), with
    any outcome of the two allocations. *)
Theorem ring_invariant_preserved m head es fuel :
  queue m head es → (length es < fuel)%nat →
  ring_invariant m head (e_node <$> es) ∧
  (∀ s, mem_wf m → strlen s + 1 ≤ sizeof_size_t →
        keeps_ring (q_insert_head head s) m head) ∧
  (∀ s, mem_wf m → strlen s + 1 ≤ sizeof_size_t →
        keeps_ring (q_insert_tail head s) m head) ∧
  (∀ sp bufsize, out_buffer m sp bufsize es →
        keeps_ring (q_remove_head head sp bufsize) m head) ∧
  (∀ sp bufsize, out_buffer m sp bufsize es →
        keeps_ring (q_remove_tail head sp bufsize) m head) ∧
  keeps_ring (q_delete_mid fuel head) m head ∧
  keeps_ring (q_delete_dup fuel head) m head ∧
  keeps_ring (q_swap fuel head) m head ∧
  keeps_ring (q_reverse fuel head) m head ∧
  keeps_ring (q_sort fuel head) m head.
Proof.
  intros Hq Hf. pose proof Hq as (Hh&Hr&_). split_and!.
  - by apply queue_ring_invariant.
  - intros s Hwf Hfit. rewrite q_insert_head_with.
    eapply insert_keeps_ring; [by left|done..].
  - intros s Hwf Hfit. rewrite q_insert_tail_with.
    eapply insert_keeps_ring; [by right|done..].
  - intros sp bufsize Hout. by eapply remove_keeps_ring.
  - intros sp bufsize Hout. by eapply remove_keeps_ring.
  - apply keeps_ring_intro. destruct es as [|e es].
    + apply wp_q_delete_mid_empty; eauto.
    + eapply wp_q_delete_mid; [done..|]. intros ea e' ec m1 _ _ _ ?. eauto.
  - apply keeps_ring_intro. eapply wp_q_delete_dup; [done..|].
    intros m' ? _ _. eauto.
  - apply keeps_ring_intro. eapply wp_q_swap; [done|done|by rewrite length_fmap|].
    intros m' Hr' Hrel _. exists (swap_pairs es).
    eapply queue_relinked; [done|done| |apply swap_pairs_perm].
    by rewrite swap_pairs_fmap.
  - apply keeps_ring_intro. eapply wp_q_reverse; [done|done|by rewrite length_fmap|].
    intros m' Hr' Hrel _. exists (reverse es).
    eapply queue_relinked; [done|done| |apply reverse_Permutation].
    by rewrite fmap_reverse.
  - apply keeps_ring_intro. eapply wp_q_sort; [done..|].
    intros m' ? _ _ _. eauto.
Qed.

Lemma ring_invariant_preserved_witness :
  let m := demo ["pear"; "apple"; "fig"]%string in
  let es := elements m demo_head in
  queue m demo_head es ∧ (length es < 4)%nat ∧ mem_wf m ∧
  strlen (bytes "kiwi") + 1 ≤ sizeof_size_t ∧
  keeps_ring (q_insert_head demo_head (bytes "kiwi")) m demo_head ∧
  keeps_ring (q_insert_tail demo_head (bytes "kiwi")) m demo_head ∧
  keeps_ring (q_remove_head demo_head NULL 0) m demo_head ∧
  keeps_ring (q_remove_tail demo_head NULL 0) m demo_head ∧
  keeps_ring (q_delete_mid 4 demo_head) m demo_head ∧
  keeps_ring (q_delete_dup 4 demo_head) m demo_head ∧
  keeps_ring (q_swap 4 demo_head) m demo_head ∧
  keeps_ring (q_reverse 4 demo_head) m demo_head ∧
  keeps_ring (q_sort 4 demo_head) m demo_head.
Proof.
  intros m es.
  assert (queue m demo_head es) as Hq by (apply (bool_decide_unpack _); by vm_compute).
  assert (length es < 4)%nat as Hf by (vm_compute; lia).
  assert (mem_wf m) as Hwf by (apply (bool_decide_unpack _); by vm_compute).
  assert (strlen (bytes "kiwi") + 1 ≤ sizeof_size_t) as Hfit by (by vm_compute).
  destruct (ring_invariant_preserved m demo_head es 4 Hq Hf)
    as (_&Hih&Hit&Hrh&Hrt&Hmid&Hdup&Hswap&Hrev&Hsort).
  split_and!;
    [exact Hq|exact Hf|exact Hwf|exact Hfit
    |exact (Hih _ Hwf Hfit)|exact (Hit _ Hwf Hfit)
    |exact (Hrh NULL 0 (or_introl eq_refl))|exact (Hrt NULL 0 (or_introl eq_refl))
    |exact Hmid|exact Hdup|exact Hswap|exact Hrev|exact Hsort].
Defined.

(** The insertions on a string that does not fit the eight bytes they
    allocate: the call runs past the end of the buffer and leaves no queue
    behind. *)
Lemma q_insert_overrun_no_ring m head s :
  head ≠ NULL → 0 < brk m →
  plan m !! 0%nat ≠ Some true → plan m !! 1%nat ≠ Some true →
  sizeof_size_t < strlen s + 1 < SIZE_MOD →
  ¬ keeps_ring (q_insert_head head s) m head ∧
  ¬ keeps_ring (q_insert_tail head s) m head.
Proof.
  intros Hh Hk Hp0 Hp1 Hlen.
  rewrite q_insert_head_with, q_insert_tail_with.
  split; intros (r&m'&es'&Hrun&_);
    by rewrite q_insert_with_overrun in Hrun.
Qed.

(** C2 (defect of the code).  The claim asks that every public operation
    preserve the ring invariant.  [q_insert_head] and [q_insert_tail] do
    not: they call [malloc(sizeof(length))], so the string gets eight bytes
    whatever its length (the defect of C1), and for a string of more than
    seven characters [strncpy] writes past the end of the buffer, which is
    undefined behaviour.  On the one-element queue ["fig"], which has the
    ring invariant, the insertion of "hello world" at either end faults:
    the call leaves no queue with the ring invariant. *)
Theorem ring_invariant_insert_overrun :
  let m := demo ["fig"%string] in
  let es := elements m demo_head in
  queue m demo_head es ∧
  ring_invariant m demo_head (e_node <$> es) ∧
  q_insert_head demo_head (bytes "hello world") m = Fault ∧
  q_insert_tail demo_head (bytes "hello world") m = Fault ∧
  ¬ keeps_ring (q_insert_head demo_head (bytes "hello world")) m demo_head ∧
  ¬ keeps_ring (q_insert_tail demo_head (bytes "hello world")) m demo_head.
Proof.
  intros m es.
  assert (queue m demo_head es) as Hq by (apply (bool_decide_unpack _); by vm_compute).
  assert (q_insert_head demo_head (bytes "hello world") m = Fault) as H1
    by (by vm_compute).
  assert (q_insert_tail demo_head (bytes "hello world") m = Fault) as H2
    by (by vm_compute).
  split_and!; [done|by apply queue_ring_invariant|done|done|..].
  - intros (r&m'&es'&Hrun&_). by rewrite H1 in Hrun.
  - intros (r&m'&es'&Hrun&_). by rewrite H2 in Hrun.
Qed.

(** ** q_sort *)

(** C3.  [q_sort] returns; afterwards the queue holds the same elements,
    in an order in which every element is [strcmp]-less-or-equal to its
    successor (equal strings allowed).  Sorting the result again leaves the
    heap as it is.  On a null pointer, an empty queue and a queue with one
    element [q_sort] changes nothing. *)
Theorem q_sort_sorted_idempotent m head es fuel :
  queue m head es → (length es < fuel)%nat →
  ∃ m' es',
    q_sort fuel head m = Ok tt m' ∧
    queue m' head es' ∧ es' ≡ₚ es ∧ Sorted elem_le es' ∧ relinked m m' ∧
    q_sort fuel head m' = Ok tt m' ∧
    ((length es ≤ 1)%nat → m' = m) ∧
    q_sort fuel NULL m = Ok tt m.
Proof.
  intros Hq Hf.
  assert (wp (q_sort fuel head) m (λ _ m',
    queue m' head (msort fuel es) ∧ relinked m m' ∧
    ((length es ≤ 1)%nat → m' = m))) as Hrun.
  { eapply wp_q_sort; [done..|]. intros m' ? ? ? _. done. }
  apply wp_run in Hrun as ([]&m'&Hrun&Hq'&Hrel&Hshort).
  exists m', (msort fuel es).
  assert (Sorted elem_le (msort fuel es)) as Hs by (apply msort_sorted; lia).
  split_and!; try done.
  - apply msort_perm.
  - apply wp_eq_run. eapply wp_q_sort; [done|by rewrite msort_length|].
    intros m'' Hq'' Hrel' _ Hfr. split; [done|].
    rewrite msort_sorted_id in Hq'' by done.
    eapply ring_heap_eq; [by eapply queue_ring|by eapply queue_ring|done|done].
Qed.

Lemma q_sort_sorted_idempotent_witness :
  let m := demo ["pear"; "fig"; "apple"; "fig"]%string in
  let es := elements m demo_head in
  queue m demo_head es ∧ (length es < 5)%nat ∧
  ∃ m' es', q_sort 5 demo_head m = Ok tt m' ∧ queue m' demo_head es' ∧
            Sorted elem_le es' ∧ q_sort 5 demo_head m' = Ok tt m'.
Proof.
  intros m es.
  assert (queue m demo_head es) as Hq by (apply (bool_decide_unpack _); by vm_compute).
  assert (length es < 5)%nat as Hf by (vm_compute; lia).
  split; [exact Hq|]. split; [exact Hf|].
  destruct (q_sort_sorted_idempotent m demo_head es 5 Hq Hf)
    as (m'&es'&H1&H2&_&H3&_&H4&_).
  exists m', es'. by split_and!.
Defined.

(** ** q_delete_mid *)

Lemma q_delete_mid_run m head es fuel :
  queue m head es → es ≠ [] → (length es < fuel)%nat →
  ∃ ea e ec m',
    es = ea ++ e :: ec ∧ length ea = mid_index (length es) ∧
    q_delete_mid fuel head m = Ok true m' ∧
    queue m' head (ea ++ ec) ∧ released m' e.
Proof.
  intros Hq Hes Hf.
  assert (wp (q_delete_mid fuel head) m (λ b m', b = true ∧
    ∃ ea e ec, es = ea ++ e :: ec ∧ length ea = mid_index (length es) ∧
               queue m' head (ea ++ ec) ∧ released m' e)) as Hrun.
  { eapply wp_q_delete_mid; [done..|]. intros ea e ec m1 ? ? _ ?.
    split; [done|]. exists ea, e, ec. split_and!; try done. apply release_released. }
  apply wp_run in Hrun as (b&m'&Hrun&->&ea&e&ec&?&?&?&?).
  by exists ea, e, ec, m'.
Qed.

(** C4 (as amended).  On a queue of [n >= 1] elements [q_delete_mid]
    returns [true] after it unlinked and released the element at
    zero-based index [(n - 1) / 2] counted from the head: the middle one
    for odd [n], the first of the two middle ones for even [n]. *)
Theorem q_delete_mid_index m head es fuel :
  queue m head es → es ≠ [] → (length es < fuel)%nat →
  ∃ ea e ec m',
    es = ea ++ e :: ec ∧ length ea = ((length es - 1) `div` 2)%nat ∧
    q_delete_mid fuel head m = Ok true m' ∧
    queue m' head (ea ++ ec) ∧ released m' e.
Proof. apply q_delete_mid_run. Qed.

Lemma q_delete_mid_index_witness :
  let m := demo ["a"; "b"; "c"; "d"]%string in
  let es := elements m demo_head in
  queue m demo_head es ∧ es ≠ [] ∧ (length es < 5)%nat ∧
  ∃ ea e ec m',
    es = ea ++ e :: ec ∧ length ea = 1%nat ∧
    q_delete_mid 5 demo_head m = Ok true m' ∧
    queue m' demo_head (ea ++ ec) ∧ released m' e.
Proof.
  intros m es.
  assert (queue m demo_head es) as Hq by (apply (bool_decide_unpack _); by vm_compute).
  assert (es ≠ []) as Hes by (by vm_compute).
  assert (length es < 5)%nat as Hf by (vm_compute; lia).
  split; [exact Hq|]. split; [exact Hes|]. split; [exact Hf|].
  exact (q_delete_mid_index m demo_head es 5 Hq Hes Hf).
Defined.

(** C4 as stated fails: on the two-element queue ["a"; "b"] the element at
    index [2 / 2 = 1] is not the one that [q_delete_mid] releases. *)
Lemma q_delete_mid_half_counterexample :
  let m := demo ["a"; "b"]%string in
  let es := elements m demo_head in
  queue m demo_head es ∧ (length es < 3)%nat ∧
  ¬ ∃ ea e ec m',
      es = ea ++ e :: ec ∧ length ea = (length es `div` 2)%nat ∧
      q_delete_mid 3 demo_head m = Ok true m' ∧
      queue m' demo_head (ea ++ ec) ∧ released m' e.
Proof.
  intros m es. split_and!.
  - apply (bool_decide_unpack _). by vm_compute.
  - vm_compute. lia.
  - intros (ea&e&ec&m'&E&Hlen&Hrun&_&Hrel).
    vm_compute in E, Hlen, Hrun.
    destruct ea as [|e0 [|? ?]]; simplify_eq/=.
    destruct Hrel as (Hn&_). vm_compute in Hn. done.
Qed.

(** C5.  On a queue of the six elements [a; b; c; d; e; f],
    [q_delete_mid] returns [true], releases [c] (index 2) and leaves
    [a; b; d; e; f]. *)
Theorem q_delete_mid_six m head a b c d e f fuel :
  queue m head [a; b; c; d; e; f] → (6 < fuel)%nat →
  ∃ m', q_delete_mid fuel head m = Ok true m' ∧
        queue m' head [a; b; d; e; f] ∧ released m' c.
Proof.
  intros Hq Hf.
  destruct (q_delete_mid_run m head _ fuel Hq) as (ea&x&ec&m'&E&Hlen&Hrun&Hq'&Hrel);
    [done|done|].
  change (mid_index (length [a; b; c; d; e; f])) with 2%nat in Hlen.
  destruct ea as [|a' [|b' [|? ?]]]; simplify_eq/=.
  by exists m'.
Qed.

Lemma q_delete_mid_six_witness :
  let m := demo ["a"; "b"; "c"; "d"; "e"; "f"]%string in
  let es := elements m demo_head in
  ∃ a b c d e f m',
    es = [a; b; c; d; e; f] ∧ e_str c = bytes "c" ∧
    queue m demo_head es ∧
    q_delete_mid 7 demo_head m = Ok true m' ∧
    queue m' demo_head [a; b; d; e; f] ∧ released m' c.
Proof.
  intros m es.
  assert (queue m demo_head es) as Hq by (apply (bool_decide_unpack _); by vm_compute).
  destruct es as [|a [|b [|c [|d [|e [|f [|? ?]]]]]]] eqn:E; try (by vm_compute in E).
  assert (e_str c = bytes "c") as Hc.
  { vm_compute in E. by simplify_eq. }
  destruct (q_delete_mid_six m demo_head a b c d e f 7 Hq) as (m'&?&?&?); [lia|].
  exists a, b, c, d, e, f, m'. by split_and!.
Defined.

(** ** q_delete_dup *)

(** C6.  On a queue in ascending order [q_delete_dup] returns [true] and
    leaves exactly the elements whose string occurs once, in their
    original order; the others are released.  A queue without duplicates
    (the empty one included) is left as it is.  On a null pointer the
    result is [false], and that is the only case. *)
Theorem q_delete_dup_sorted m head es fuel :
  queue m head es → Sorted elem_le es → (length es < fuel)%nat →
  ∃ m', q_delete_dup fuel head m = Ok true m' ∧
        queue m' head (uniques es) ∧
        uniques es `sublist_of` es ∧
        (∀ e, e ∈ uniques es ↔ e ∈ es ∧ occurrences (e_str e) es = 1%nat) ∧
        (∀ e, e ∈ es → e ∉ uniques es → released m' e) ∧
        (uniques es = es → m' = m) ∧
        q_delete_dup fuel NULL m = Ok false m.
Proof.
  intros Hq Hs Hf.
  assert (wp (q_delete_dup fuel head) m (λ b m', b = true ∧
    (queue m' head (dup_scan false es) ∧
     (∀ e, e ∈ es → e ∉ dup_scan false es → released m' e) ∧
     (dup_scan false es = es → m' = m)))) as Hrun.
  { eapply wp_q_delete_dup; [done..|]. intros m' ? ? ?. done. }
  apply wp_eq_run_ex in Hrun as (m'&Hrun&Hq'&Hrel&Hsame).
  rewrite dup_scan_uniques in * by done.
  exists m'. split_and!; try done.
  - apply sublist_filter.
  - intros e. unfold uniques. rewrite list_elem_of_filter. naive_solver.
Qed.

Lemma q_delete_dup_sorted_witness :
  let m := demo ["apple"; "apple"; "banana"; "cherry"]%string in
  let es := elements m demo_head in
  queue m demo_head es ∧ Sorted elem_le es ∧ (length es < 5)%nat ∧
  ∃ m', q_delete_dup 5 demo_head m = Ok true m' ∧
        queue m' demo_head (uniques es) ∧
        e_str <$> uniques es = [bytes "banana"; bytes "cherry"].
Proof.
  intros m es.
  assert (queue m demo_head es) as Hq by (apply (bool_decide_unpack _); by vm_compute).
  assert (Sorted elem_le es) as Hs by (apply (bool_decide_unpack _); by vm_compute).
  assert (length es < 5)%nat as Hf by (vm_compute; lia).
  split; [exact Hq|]. split; [exact Hs|]. split; [exact Hf|].
  destruct (q_delete_dup_sorted m demo_head es 5 Hq Hs Hf) as (m'&H1&H2&_).
  exists m'. split_and!; [exact H1|exact H2|by vm_compute].
Defined.

(** ** q_remove_head and q_remove_tail *)

Lemma removed_copied_out m head sp bufsize e es m' :
  out_buffer m sp bufsize (e :: es) → removed m head sp bufsize e es m' →
  copied_out m m' sp bufsize (e_str e) ∧ (sp = NULL → bufs m' = bufs m).
Proof.
  intros Hout (_&_&_&_&_&_&_&Hb). split.
  - unfold copied_out. intros Hsp b Hlook. rewrite decide_False, Hlook in Hb by done.
    destruct Hout as [?|Hout]; [done|]. rewrite Hlook in Hout.
    destruct Hout as (Hsz&_&_).
    exists (copied (e_str e) bufsize b). split_and!.
    + rewrite Hb. by rewrite lookup_insert_eq.
    + by apply copied_length.
    + apply copied_cstr, cstr_NUL.
    + apply copied_terminator.
    + apply copied_rest. lia.
  - intros Hsp. by rewrite decide_True in Hb.
Qed.

Lemma q_remove_head_run m head e es sp bufsize :
  queue m head (e :: es) → out_buffer m sp bufsize (e :: es) →
  ∃ m', q_remove_head head sp bufsize m = Ok (container_of (e_node e)) m' ∧
        removed m head sp bufsize e es m'.
Proof.
  intros Hq Hout. apply wp_eq_run_ex.
  eapply wp_q_remove_head; [done..|]. by intros m' ?.
Qed.

Lemma q_remove_tail_run m head e es sp bufsize :
  queue m head (es ++ [e]) → out_buffer m sp bufsize (e :: es) →
  ∃ m', q_remove_tail head sp bufsize m = Ok (container_of (e_node e)) m' ∧
        removed m head sp bufsize e es m'.
Proof.
  intros Hq Hout. apply wp_eq_run_ex.
  eapply wp_q_remove_tail; [done..|]. by intros m' ?.
Qed.

(** C8.  [q_remove_head] and [q_remove_tail] return [NULL], and change
    nothing, on a null pointer and on an empty queue.  On a queue with
    elements they return the first, respectively last, element, which is
    not [NULL]; the element is unlinked, and it is still live and owns its
    string (nothing is released).  With an output buffer, the buffer then
    starts with the first [bufsize - 1] characters of the element's string,
    has a NUL at offset [bufsize - 1] at the latest, keeps its size, and is
    untouched from offset [bufsize] on. *)
Theorem q_remove_returns_element m head es sp bufsize :
  (q_remove_head NULL sp bufsize m = Ok NULL m ∧
   q_remove_tail NULL sp bufsize m = Ok NULL m) ∧
  (queue m head [] →
   q_remove_head head sp bufsize m = Ok NULL m ∧
   q_remove_tail head sp bufsize m = Ok NULL m) ∧
  (∀ e, queue m head (e :: es) → out_buffer m sp bufsize (e :: es) →
     ∃ m', q_remove_head head sp bufsize m = Ok (container_of (e_node e)) m' ∧
           container_of (e_node e) ≠ NULL ∧
           queue m' head es ∧ owns m' e ∧
           copied_out m m' sp bufsize (e_str e) ∧
           (sp = NULL → bufs m' = bufs m)) ∧
  (∀ e, queue m head (es ++ [e]) → out_buffer m sp bufsize (e :: es) →
     ∃ m', q_remove_tail head sp bufsize m = Ok (container_of (e_node e)) m' ∧
           container_of (e_node e) ≠ NULL ∧
           queue m' head es ∧ owns m' e ∧
           copied_out m m' sp bufsize (e_str e) ∧
           (sp = NULL → bufs m' = bufs m)).
Proof.
  split; [|split; [|split]].
  - destruct (wp_q_remove_null_or_empty m NULL sp bufsize
                (λ r m', r = NULL ∧ m' = m)) as [H1 H2]; [by left|done|].
    split; by apply wp_eq_run.
  - intros Hq.
    destruct (wp_q_remove_null_or_empty m head sp bufsize
                (λ r m', r = NULL ∧ m' = m)) as [H1 H2]; [by right|done|].
    split; by apply wp_eq_run.
  - intros e Hq Hout.
    destruct (q_remove_head_run m head e es sp bufsize Hq Hout) as (m'&Hrun&Hrem).
    destruct (removed_copied_out _ _ _ _ _ _ _ Hout Hrem) as [? ?].
    pose proof Hrem as (?&Ho&_). exists m'. split_and!; try done.
    by destruct Ho as (_&?&_).
  - intros e Hq Hout.
    destruct (q_remove_tail_run m head e es sp bufsize Hq Hout) as (m'&Hrun&Hrem).
    destruct (removed_copied_out _ _ _ _ _ _ _ Hout Hrem) as [? ?].
    pose proof Hrem as (?&Ho&_). exists m'. split_and!; try done.
    by destruct Ho as (_&?&_).
Qed.

Lemma q_remove_returns_element_witness :
  let m := demo_out ["x"%string] 1 in
  let sp := brk (demo ["x"%string]) in
  ∃ e m',
    elements m demo_head = [e] ∧ e_str e = bytes "x" ∧
    queue m demo_head [e] ∧ out_buffer m sp 1 [e] ∧
    q_remove_head demo_head sp 1 m = Ok (container_of (e_node e)) m' ∧
    queue m' demo_head [] ∧ owns m' e ∧
    bufs m' !! sp = Some [x00].
Proof.
  intros m sp.
  destruct (elements m demo_head) as [|e [|? ?]] eqn:E; try (by vm_compute in E).
  assert (e_str e = bytes "x") as He by (vm_compute in E; by simplify_eq).
  assert (queue m demo_head [e]) as Hq.
  { rewrite <- E. apply (bool_decide_unpack _). by vm_compute. }
  assert (out_buffer m sp 1 [e]) as Hout.
  { rewrite <- E. apply (bool_decide_unpack _). by vm_compute. }
  destruct (q_remove_returns_element m demo_head [] sp 1) as (_&_&Hhead&_).
  destruct (Hhead e Hq Hout) as (m'&Hrun&_&Hq'&Ho&Hcopy&_).
  destruct (Hcopy ltac:(by vm_compute) [x00] ltac:(by vm_compute))
    as (out&Hout'&Hlen&_&Hnul&_).
  exists e, m'. split_and!; try done.
  destruct out as [|c [|? ?]]; simplify_eq/=. done.
Defined.

(** Outside the contract of the output buffer: with a buffer and
    [bufsize = 0], [bufsize - 1] wraps around to [SIZE_MAX] and [strncpy]
    runs past the end of the buffer. *)
Example q_remove_head_bufsize_zero :
  q_remove_head demo_head (brk (demo ["x"%string])) 0 (demo_out ["x"%string] 1) = Fault.
Proof. by vm_compute. Qed.

(** C10.  The element that [q_remove_head] or [q_remove_tail] returns has
    a link node whose [next] and [prev] both point at itself, and that node
    is none of the nodes of the ring it was removed from. *)
Theorem q_remove_self_loop m head e es sp bufsize :
  out_buffer m sp bufsize (e :: es) →
  (queue m head (e :: es) →
   ∃ m', q_remove_head head sp bufsize m = Ok (container_of (e_node e)) m' ∧
         self_loop m' (list_of (container_of (e_node e))) ∧
         ring m' head (e_node <$> es) ∧
         list_of (container_of (e_node e)) ∉ head :: (e_node <$> es)) ∧
  (queue m head (es ++ [e]) →
   ∃ m', q_remove_tail head sp bufsize m = Ok (container_of (e_node e)) m' ∧
         self_loop m' (list_of (container_of (e_node e))) ∧
         ring m' head (e_node <$> es) ∧
         list_of (container_of (e_node e)) ∉ head :: (e_node <$> es)).
Proof.
  intros Hout. rewrite list_of_container_of. split; intros Hq.
  - destruct (q_remove_head_run m head e es sp bufsize Hq Hout)
      as (m'&Hrun&(_&Hr&_)&_&Hs&_).
    exists m'. split_and!; try done.
    apply queue_ring in Hq. by apply (ring_middle_notin m head [] (e_node e)) in Hq.
  - destruct (q_remove_tail_run m head e es sp bufsize Hq Hout)
      as (m'&Hrun&(_&Hr&_)&_&Hs&_).
    exists m'. split_and!; try done.
    apply queue_ring in Hq. rewrite fmap_app in Hq.
    apply (ring_middle_notin m head (e_node <$> es) (e_node e) []) in Hq.
    by rewrite app_nil_r in Hq.
Qed.

Lemma q_remove_self_loop_witness :
  let m := demo ["fig"; "pear"]%string in
  ∃ e1 e2 m',
    elements m demo_head = [e1; e2] ∧
    queue m demo_head [e1; e2] ∧ out_buffer m NULL 0 [e1; e2] ∧
    q_remove_head demo_head NULL 0 m = Ok (container_of (e_node e1)) m' ∧
    self_loop m' (list_of (container_of (e_node e1))) ∧
    ring m' demo_head [e_node e2].
Proof.
  intros m.
  destruct (elements m demo_head) as [|e1 [|e2 [|? ?]]] eqn:E; try (by vm_compute in E).
  assert (queue m demo_head [e1; e2]) as Hq.
  { rewrite <- E. apply (bool_decide_unpack _). by vm_compute. }
  assert (out_buffer m NULL 0 [e1; e2]) as Hout by (by left).
  destruct (q_remove_self_loop m demo_head e1 [e2] NULL 0 Hout) as [Hhead _].
  destruct (Hhead Hq) as (m'&?&?&?&_).
  exists e1, e2, m'. by split_and!.
Defined.

(** ** q_swap *)

Lemma Odd_snoc {A} (l : list A) :
  Nat.Odd (length l) → ∃ l' x, l = l' ++ [x] ∧ Nat.Even (length l').
Proof.
  intros [k Hk]. destruct l as [|x l _] using rev_ind; [simpl in Hk; lia|].
  exists l, x. split; [done|]. rewrite length_app in Hk. simpl in Hk.
  exists k. lia.
Qed.

(** C9.  [q_swap] returns; afterwards the queue holds the elements with
    each consecutive pair exchanged and an unpaired last element where it
    was; only link fields of the heap have changed (nothing is allocated
    or released).  A second [q_swap] brings back the original order.  On a
    queue of odd length the last element is the same before and after.  An
    empty queue and a null pointer leave the heap as it is. *)
Theorem q_swap_exchanges_pairs m head es fuel :
  queue m head es → (length es < fuel)%nat →
  ∃ m', q_swap fuel head m = Ok tt m' ∧
        queue m' head (swap_pairs es) ∧ relinked m m' ∧
        (∀ a b r, es = a :: b :: r → swap_pairs es = b :: a :: swap_pairs r) ∧
        (∀ a, es = [a] → swap_pairs es = [a]) ∧
        (Nat.Odd (length es) → last (swap_pairs es) = last es) ∧
        (∃ m'', q_swap fuel head m' = Ok tt m'' ∧ queue m'' head es ∧
                relinked m' m'') ∧
        (es = [] → m' = m) ∧
        q_swap fuel NULL m = Ok tt m.
Proof.
  intros Hq Hf. pose proof Hq as (Hh&Hr&_).
  assert (∀ m0 es0, queue m0 head es0 → (length es0 < fuel)%nat →
    ∃ m', q_swap fuel head m0 = Ok tt m' ∧ queue m' head (swap_pairs es0) ∧
          relinked m0 m' ∧ (es0 = [] → m' = m0)) as Hswap.
  { intros m0 es0 Hq0 Hf0. pose proof Hq0 as (_&Hr0&_).
    apply wp_eq_run_ex. eapply wp_q_swap; [done|done|by rewrite length_fmap|].
    intros m' Hr' Hrel Hemp. split_and!; [done| |done|].
    - eapply queue_relinked; [done|done| |apply swap_pairs_perm].
      by rewrite swap_pairs_fmap.
    - intros ->. by apply Hemp. }
  destruct (Hswap m es Hq Hf) as (m'&Hrun&Hq'&Hrel&Hemp).
  destruct (Hswap m' (swap_pairs es) Hq') as (m''&Hrun'&Hq''&Hrel'&_).
  { by rewrite swap_pairs_length. }
  rewrite swap_pairs_involutive in Hq''.
  exists m'. split_and!; try done.
  - by intros a b r ->.
  - by intros a ->.
  - intros (l&x&->&Hev)%Odd_snoc.
    by rewrite swap_pairs_odd_last, !last_snoc.
  - by exists m''.
Qed.

Lemma q_swap_exchanges_pairs_witness :
  let m := demo ["1"; "2"; "3"; "4"]%string in
  let es := elements m demo_head in
  queue m demo_head es ∧ (length es < 5)%nat ∧
  e_str <$> es = [bytes "1"; bytes "2"; bytes "3"; bytes "4"] ∧
  ∃ m', q_swap 5 demo_head m = Ok tt m' ∧
        queue m' demo_head (swap_pairs es) ∧
        e_str <$> swap_pairs es = [bytes "2"; bytes "1"; bytes "4"; bytes "3"].
Proof.
  intros m es.
  assert (queue m demo_head es) as Hq by (apply (bool_decide_unpack _); by vm_compute).
  assert (length es < 5)%nat as Hf by (vm_compute; lia).
  split; [exact Hq|]. split; [exact Hf|]. split; [by vm_compute|].
  destruct (q_swap_exchanges_pairs m demo_head es 5 Hq Hf) as (m'&H1&H2&_).
  exists m'. split_and!; [exact H1|exact H2|by vm_compute].
Defined.

(** * Further properties of the operations *)

(** ** q_size *)

Lemma int_of_size_t_mod n : int_of_size_t (n mod SIZE_MOD) = int_of_size_t n.
Proof.
  unfold int_of_size_t, SIZE_MOD.
  rewrite <- (Znumtheory.Zmod_div_mod (2 ^ 32) (2 ^ 64)); [done|lia|lia|].
  exists (2 ^ 32). lia.
Qed.

Lemma int_of_size_t_small n : 0 ≤ n < 2 ^ 31 → int_of_size_t n = n.
Proof.
  intros Hn. unfold int_of_size_t. rewrite Z.mod_small by lia.
  cbv zeta. by rewrite decide_True by lia.
Qed.

Lemma wp_size_loop fuel : ∀ m h done rest n (Q : Z → mem → Prop),
  ring m h (done ++ rest) → (length rest < fuel)%nat →
  0 ≤ n < SIZE_MOD →
  Q ((n + Z.of_nat (length rest)) mod SIZE_MOD) m →
  wp (for_each_from fuel h (default h (head rest))
        (λ _ len, ret ((len + 1) mod SIZE_MOD)) n) m Q.
Proof.
  induction fuel as [|fuel IH]; intros m h done rest n Q Hr Hf Hn HQ; [lia|].
  simpl. destruct rest as [|x r]; simpl in *.
  - rewrite decide_True by done. apply wp_ret.
    by rewrite Z.add_0_r, Z.mod_small in HQ by done.
  - assert (x ≠ h) as Hx.
    { eapply (ring_head_ne m h); [done|]. set_solver. }
    rewrite decide_False by done.
    apply wp_bind, wp_ret.
    apply wp_bind. eapply wp_load_next; [by eapply ring_next|].
    apply (IH m h (done ++ [x]) r).
    + by rewrite <- app_assoc.
    + lia.
    + apply Z.mod_pos_bound. unfold SIZE_MOD. lia.
    + rewrite Zplus_mod_idemp_l.
      by replace (n + 1 + Z.of_nat (length r)) with (n + Z.pos (Pos.of_succ_nat (length r))) by lia.
Qed.

(** What [q_size] returns on a ring of the nodes [l]. *)
Lemma q_size_run m h l fuel :
  h ≠ NULL → ring m h l → (length l < fuel)%nat →
  q_size fuel h m = Ok (int_of_size_t (Z.of_nat (length l))) m.
Proof.
  intros Hh Hr Hf. apply wp_eq_run. unfold q_size.
  rewrite decide_False by done. apply wp_bind. unfold list_for_each.
  apply wp_bind. eapply wp_load_next; [by eapply ring_next_head|].
  apply (wp_size_loop fuel m h [] l); [done|done|unfold SIZE_MOD; lia|].
  apply wp_ret. by rewrite Z.add_0_l, int_of_size_t_mod.
Qed.

Lemma q_size_queue m h es fuel :
  queue m h es → (length es < fuel)%nat →
  q_size fuel h m = Ok (int_of_size_t (Z.of_nat (length es))) m.
Proof.
  intros (Hh&Hr&_) Hf. rewrite <- (length_fmap e_node).
  apply q_size_run; [done|done|by rewrite length_fmap].
Qed.

(** X1.  On a queue of [n] elements [q_size] returns [n] converted to
    [int] and leaves the heap as it is; for [n < 2^31] the result is [n]
    itself.  On a null pointer it returns 0. *)
Theorem q_size_counts m head es fuel :
  queue m head es → (length es < fuel)%nat →
  q_size fuel head m = Ok (int_of_size_t (Z.of_nat (length es))) m ∧
  (Z.of_nat (length es) < 2 ^ 31 →
   q_size fuel head m = Ok (Z.of_nat (length es)) m) ∧
  q_size fuel NULL m = Ok 0 m.
Proof.
  intros Hq Hf. split_and!.
  - by apply q_size_queue.
  - intros Hn. rewrite (q_size_queue m head es) by done.
    by rewrite int_of_size_t_small by lia.
  - done.
Qed.

Lemma q_size_counts_witness :
  let m := demo ["pear"; "apple"; "fig"]%string in
  let es := elements m demo_head in
  queue m demo_head es ∧ (length es < 4)%nat ∧
  q_size 4 demo_head m = Ok 3 m.
Proof.
  intros m es.
  assert (queue m demo_head es) as Hq by (apply (bool_decide_unpack _); by vm_compute).
  assert (length es < 4)%nat as Hf by (vm_compute; lia).
  split; [exact Hq|]. split; [exact Hf|].
  destruct (q_size_counts m demo_head es 4 Hq Hf) as (_&H&_).
  apply H. by vm_compute.
Defined.

(** ** q_new *)

(** A heap that agrees with one holding a queue on the nodes of the ring,
    on the [value] members of the elements and on their buffers holds the
    same queue. *)
Lemma queue_frame m m' h es :
  queue m h es →
  (∀ k, k ∈ h :: (e_node <$> es) → nodes m' !! k = nodes m !! k) →
  (∀ e, e ∈ es → vals m' !! container_of (e_node e) = vals m !! container_of (e_node e)) →
  (∀ e, e ∈ es → bufs m' !! e_val e = bufs m !! e_val e) →
  queue m' h es.
Proof.
  intros (Hh&Hr&Ho&Hnd) Hn Hv Hb. split_and!; [done| |..|done].
  - eapply ring_frame_insert; [done| |]; intros k Hk.
    + by rewrite !nx_lookup, Hn.
    + by rewrite !pv_lookup, Hn.
  - apply Forall_forall. intros e He.
    eapply Forall_forall in Ho; [|done]. unfold owns in *.
    by rewrite Hv, Hb.
Qed.

Lemma queue_below_brk m h es k :
  mem_wf m → queue m h es → k ∈ h :: (e_node <$> es) → 0 < k < brk m.
Proof.
  intros (_&Hn&_)%mem_wf_alt (_&Hr&_) Hk. apply Hn. by eapply ring_live.
Qed.

(** X2.  When the allocation succeeds [q_new] returns a fresh non-null
    pointer to a sentinel that is a self-loop, an empty queue; the nodes,
    elements and buffers the heap held before are untouched, so every queue
    of the heap is still the queue it was.  When the allocation fails
    [q_new] returns [NULL] and the heap holds what it held. *)
Theorem q_new_fresh_empty_queue m :
  mem_wf m →
  (plan m !! 0%nat ≠ Some true →
   ∃ m', q_new m = Ok (brk m) m' ∧ brk m ≠ NULL ∧
         nodes m !! brk m = None ∧
         nodes m' = <[brk m := mk_list_head (brk m) (brk m)]> (nodes m) ∧
         vals m' = vals m ∧ bufs m' = bufs m ∧
         queue m' (brk m) [] ∧ mem_wf m' ∧
         (∀ h es, queue m h es → queue m' h es ∧ brk m ∉ h :: (e_node <$> es))) ∧
  (plan m !! 0%nat = Some true →
   ∃ m', q_new m = Ok NULL m' ∧
         nodes m' = nodes m ∧ vals m' = vals m ∧ bufs m' = bufs m ∧ brk m' = brk m).
Proof.
  intros Hwf. pose proof Hwf as (Hk&_).
  destruct (mem_wf_fresh m (brk m) Hwf) as (Hfresh&_); [lia|].
  split; intros Hp.
  - assert (∃ m', q_new m = Ok (brk m) m' ∧
              nodes m' = <[brk m := mk_list_head (brk m) (brk m)]> (nodes m) ∧
              vals m' = vals m ∧ bufs m' = bufs m) as (m'&Hrun&Hn&Hv&Hb).
    { unfold q_new, malloc_list_head, alloc_fails, bind, ret.
      destruct (plan m) as [|[] pl] eqn:Hpl; [|done|]; simpl.
      - rewrite decide_False by (unfold NULL; lia).
        unfold INIT_LIST_HEAD, bind, store_next, store_prev. simpl.
        rewrite lookup_insert_eq. simpl. rewrite lookup_insert_eq. simpl.
        eexists. split; [done|]. simpl. by rewrite !insert_insert_eq.
      - rewrite decide_False by (unfold NULL; lia).
        unfold INIT_LIST_HEAD, bind, store_next, store_prev. simpl.
        rewrite lookup_insert_eq. simpl. rewrite lookup_insert_eq. simpl.
        eexists. split; [done|]. simpl. by rewrite !insert_insert_eq. }
    assert (wp q_new m (λ p m0, queue m0 (brk m) [] ∧ mem_wf m0)) as Hwp.
    { apply wp_q_new; [done..|]. by intros m0 ? ? _ _ _. }
    unfold wp in Hwp. rewrite Hrun in Hwp. destruct Hwp as [Hq' Hwf'].
    exists m'. split_and!; try done.
    + unfold NULL. lia.
    + intros h es Hq.
      assert (brk m ∉ h :: (e_node <$> es)) as Hnew.
      { intros Hin. pose proof (queue_below_brk _ _ _ _ Hwf Hq Hin). lia. }
      split; [|done]. eapply queue_frame; [done| |by rewrite Hv|by rewrite Hb].
      intros k Hin. rewrite Hn, lookup_insert_ne; [done|]. by intros <-.
  - unfold q_new, malloc_list_head, alloc_fails, bind, ret.
    destruct (plan m) as [|[] pl] eqn:Hpl; [done| |done]; simpl.
    by eexists.
Qed.

Lemma q_new_fresh_empty_queue_witness :
  let m := demo ["fig"]%string in
  mem_wf m ∧ plan m !! 0%nat ≠ Some true ∧
  ∃ m', q_new m = Ok (brk m) m' ∧ queue m' (brk m) [] ∧
        queue m' demo_head (elements m demo_head).
Proof.
  intros m.
  assert (mem_wf m) as Hwf by (apply (bool_decide_unpack _); by vm_compute).
  assert (plan m !! 0%nat ≠ Some true) as Hp by (by vm_compute).
  assert (queue m demo_head (elements m demo_head)) as Hq
    by (apply (bool_decide_unpack _); by vm_compute).
  split; [exact Hwf|]. split; [exact Hp|].
  destruct (q_new_fresh_empty_queue m Hwf) as [Hok _].
  destruct (Hok Hp) as (m'&Hrun&_&_&_&_&_&Hq'&_&Hold).
  exists m'. split_and!; [exact Hrun|exact Hq'|].
  by destruct (Hold _ _ Hq).
Defined.

(** ** q_reverse *)

Lemma q_reverse_run m h es fuel :
  queue m h es → (length es < fuel)%nat →
  ∃ m', q_reverse fuel h m = Ok tt m' ∧ queue m' h (reverse es) ∧
        relinked m m' ∧ (es = [] → m' = m).
Proof.
  intros Hq Hf. pose proof Hq as (Hh&Hr&_).
  apply wp_eq_run_ex. eapply wp_q_reverse; [done|done|by rewrite length_fmap|].
  intros m' Hr' Hrel Hemp. split_and!; [done| |done|].
  - eapply queue_relinked; [done|done| |apply reverse_Permutation].
    by rewrite fmap_reverse.
  - intros ->. by apply Hemp.
Qed.

(** X3.  [q_reverse] returns; afterwards the queue holds the same elements
    in the opposite order, so the first element has become the last; only
    link fields of the heap have changed (nothing is allocated, released or
    copied).  A second [q_reverse] brings back the original order.  An
    empty queue and a null pointer leave the heap as it is. *)
Theorem q_reverse_reverses m head es fuel :
  queue m head es → (length es < fuel)%nat →
  ∃ m', q_reverse fuel head m = Ok tt m' ∧
        queue m' head (reverse es) ∧ relinked m m' ∧
        (∀ e r, es = e :: r → last (reverse es) = Some e) ∧
        (∃ m'', q_reverse fuel head m' = Ok tt m'' ∧ queue m'' head es ∧
                relinked m m'') ∧
        (es = [] → m' = m) ∧
        q_reverse fuel NULL m = Ok tt m.
Proof.
  intros Hq Hf.
  destruct (q_reverse_run m head es fuel Hq Hf) as (m'&Hrun&Hq'&Hrel&Hemp).
  destruct (q_reverse_run m' head (reverse es) fuel Hq') as (m''&Hrun'&Hq''&Hrel'&_).
  { by rewrite length_reverse. }
  rewrite reverse_involutive in Hq''.
  exists m'. split_and!; try done.
  - intros e r ->. by rewrite last_reverse.
  - exists m''. split_and!; [done..|]. by eapply relinked_trans.
Qed.

Lemma q_reverse_reverses_witness :
  let m := demo ["1"; "2"; "3"]%string in
  let es := elements m demo_head in
  queue m demo_head es ∧ (length es < 4)%nat ∧
  e_str <$> es = [bytes "1"; bytes "2"; bytes "3"] ∧
  ∃ m', q_reverse 4 demo_head m = Ok tt m' ∧
        queue m' demo_head (reverse es) ∧
        e_str <$> reverse es = [bytes "3"; bytes "2"; bytes "1"].
Proof.
  intros m es.
  assert (queue m demo_head es) as Hq by (apply (bool_decide_unpack _); by vm_compute).
  assert (length es < 4)%nat as Hf by (vm_compute; lia).
  split; [exact Hq|]. split; [exact Hf|]. split; [by vm_compute|].
  destruct (q_reverse_reverses m demo_head es 4 Hq Hf) as (m'&H1&H2&_).
  exists m'. split_and!; [exact H1|exact H2|by vm_compute].
Defined.

(** ** q_free *)

Lemma release_all_nodes es : ∀ m k,
  nodes (release_all m es) !! k =
  if decide (k ∈ e_node <$> es) then None else nodes m !! k.
Proof.
  induction es as [|e r IH]; intros m k; simpl; [done|].
  rewrite IH. simpl. destruct (decide (k = e_node e)) as [->|Hne].
  - rewrite lookup_delete_eq. rewrite (decide_True (P := _ ∈ _ :: _)) by set_solver.
    by destruct (decide _).
  - rewrite lookup_delete_ne by done.
    destruct (decide (k ∈ e_node <$> r)).
    + by rewrite decide_True by set_solver.
    + by rewrite decide_False by set_solver.
Qed.

Lemma release_all_vals es : ∀ m k,
  vals (release_all m es) !! k =
  if decide (k ∈ (λ e, container_of (e_node e)) <$> es) then None else vals m !! k.
Proof.
  induction es as [|e r IH]; intros m k; simpl; [done|].
  rewrite IH. simpl. destruct (decide (k = container_of (e_node e))) as [->|Hne].
  - rewrite lookup_delete_eq. rewrite (decide_True (P := _ ∈ _ :: _)) by set_solver.
    by destruct (decide _).
  - rewrite lookup_delete_ne by done.
    destruct (decide (k ∈ (λ e, container_of (e_node e)) <$> r)).
    + by rewrite decide_True by set_solver.
    + by rewrite decide_False by set_solver.
Qed.

Lemma release_all_bufs es : ∀ m k,
  bufs (release_all m es) !! k =
  if decide (k ∈ e_val <$> es) then None else bufs m !! k.
Proof.
  induction es as [|e r IH]; intros m k; simpl; [done|].
  rewrite IH. simpl. destruct (decide (k = e_val e)) as [->|Hne].
  - rewrite lookup_delete_eq. rewrite (decide_True (P := _ ∈ _ :: _)) by set_solver.
    by destruct (decide _).
  - rewrite lookup_delete_ne by done.
    destruct (decide (k ∈ e_val <$> r)).
    + by rewrite decide_True by set_solver.
    + by rewrite decide_False by set_solver.
Qed.

Lemma release_all_brk_plan es : ∀ m,
  brk (release_all m es) = brk m ∧ plan (release_all m es) = plan m.
Proof.
  induction es as [|e r IH]; intros m; simpl; [done|].
  destruct (IH (release m e)) as [-> ->]. done.
Qed.

Lemma wp_free_list_head m p (Q : unit → mem → Prop) :
  p ≠ NULL → is_Some (nodes m !! p) →
  Q tt (with_nodes m (delete p (nodes m))) →
  wp (free_list_head p) m Q.
Proof.
  intros Hp [hp Hlive] HQ. unfold wp, free_list_head.
  rewrite decide_False by done. by rewrite Hlive.
Qed.

(** The traversal of [q_free]: the nodes still to visit are linked by
    [next] up to the sentinel; the nodes already visited are gone. *)
Lemma wp_free_loop fuel : ∀ m h rest safe (Q : unit → mem → Prop),
  match rest with
  | [] => True
  | e :: r => path (nx m) (e_node e) (e_node <$> r) h
  end →
  is_Some (nodes m !! h) →
  NoDup (h :: (e_node <$> rest)) → NoDup (e_val <$> rest) →
  Forall (owns m) rest → (length rest < fuel)%nat →
  (∀ e r, rest = e :: r → safe = default h (head (e_node <$> r))) →
  Q tt (release_all m rest) →
  wp (for_each_safe_from fuel h (default h (head (e_node <$> rest))) safe
        (λ cur _ (_ : unit), q_release_element (container_of cur)) tt) m Q.
Proof.
  induction fuel as [|fuel IH]; intros m h rest safe Q Hpath Hlive Hnd Hvd Ho Hf Hs HQ; [lia|].
  simpl. destruct rest as [|e r]; simpl in *.
  - rewrite decide_True by done. by apply wp_ret.
  - apply NoDup_cons in Hnd as [Hh Hnd]. apply NoDup_cons in Hnd as [He Hnd].
    apply NoDup_cons in Hvd as [Hv Hvd].
    apply Forall_cons in Ho as [Hoe Ho].
    assert (e_node e ≠ h) as Hne by set_solver.
    rewrite decide_False by done. rewrite (Hs e r eq_refl).
    apply wp_bind. apply wp_q_release_element; [done| |].
    { apply nx_live. eapply path_live; [done|]. set_solver. }
    assert (∀ k, k ≠ e_node e → nx (release m e) !! k = nx m !! k) as Hnx.
    { intros k Hk. rewrite !nx_lookup. unfold release. simpl.
      by rewrite lookup_delete_ne. }
    assert (is_Some (nodes (release m e) !! h)) as Hlive'.
    { unfold release. simpl. by rewrite lookup_delete_ne. }
    destruct r as [|e2 r2]; simpl in Hpath, Hnd, Hvd, Hf, He, Hv |- *.
    + destruct Hlive' as [hh Hhh].
      apply wp_bind. apply (wp_load_next _ _ (next hh)).
      { rewrite nx_lookup. by rewrite Hhh. }
      apply (IH (release m e) h [] (next hh)); simpl; try done.
      * apply NoDup_singleton.
      * lia.
    + destruct Hpath as [_ Hpath].
      apply NoDup_cons in Hnd as Hnd2. destruct Hnd2 as [He2 Hnd2].
      assert (path (nx (release m e)) (e_node e2) (e_node <$> r2) h) as Hpath'.
      { eapply path_frame; [|done]. intros k Hk. apply Hnx. intros ->.
        apply He. set_solver. }
      apply wp_bind. apply (wp_load_next _ _ (default h (head (e_node <$> r2)))).
      { destruct r2 as [|e3 r3]; simpl in *; [done|]. by destruct Hpath'. }
      apply (IH (release m e) h (e2 :: r2)); simpl; try done.
      * apply NoDup_cons. split; [set_solver|done].
      * apply Forall_forall. intros e' He'.
        eapply Forall_forall in Ho; [|done].
        apply release_owns; [done| |].
        -- intros E. apply He. rewrite <- E.
           exact (list_elem_of_fmap_2 e_node _ _ He').
        -- intros E. apply Hv. rewrite <- E.
           exact (list_elem_of_fmap_2 e_val _ _ He').
      * lia.
      * by intros ? ? [= <- <-].
Qed.

Lemma wp_q_free fuel m h es (Q : unit → mem → Prop) :
  queue m h es → (length es < fuel)%nat →
  Q tt (with_nodes (release_all m es) (delete h (nodes (release_all m es)))) →
  wp (q_free fuel h) m Q.
Proof.
  intros (Hh&Hr&Ho&Hvd) Hf HQ. unfold q_free. rewrite decide_False by done.
  apply wp_bind. eapply wp_list_empty; [done|].
  assert (is_Some (nodes m !! h)) as Hlive.
  { eapply ring_live; [done|]. set_solver. }
  destruct es as [|e r]; simpl bool_decide; cbv iota.
  - by apply wp_free_list_head.
  - apply wp_bind. unfold list_for_each_safe.
    apply wp_bind. eapply wp_load_next; [by eapply ring_next_head|].
    apply wp_bind. eapply wp_load_next; [by eapply (ring_next m h [] (e_node e))|].
    pose proof Hr as (Hnd&Hp&_).
    apply (wp_free_loop fuel m h (e :: r)); try done.
    + by destruct Hp.
    + by intros ? ? [= <- <-].
    + apply wp_free_list_head; [done| |done].
      rewrite release_all_nodes. rewrite decide_False; [done|].
      apply NoDup_cons in Hnd as [? _]. done.
Qed.

Lemma queue_NoDup m h es : queue m h es → NoDup es.
Proof.
  intros (_&(Hnd&_)&_). apply NoDup_cons in Hnd as [_ Hnd].
  by eapply NoDup_fmap_1.
Qed.

(** X4.  [q_free] returns, and afterwards the sentinel and, for every
    element of the queue, its link node, its [value] member and its string
    buffer are gone from the heap; everything else the heap held is as it
    was, so a queue that shares no storage with the freed one is still the
    queue it was.  On a null pointer [q_free] does nothing. *)
Theorem q_free_releases_all m head es fuel :
  queue m head es → (length es < fuel)%nat →
  ∃ m', q_free fuel head m = Ok tt m' ∧
        (∀ k, nodes m' !! k =
              if decide (k ∈ head :: (e_node <$> es)) then None else nodes m !! k) ∧
        (∀ k, vals m' !! k =
              if decide (k ∈ (λ e, container_of (e_node e)) <$> es) then None
              else vals m !! k) ∧
        (∀ k, bufs m' !! k =
              if decide (k ∈ e_val <$> es) then None else bufs m !! k) ∧
        (∀ e, e ∈ es → released m' e) ∧
        (∀ h' es', queue m h' es' →
           (∀ k, k ∈ h' :: (e_node <$> es') → k ∉ head :: (e_node <$> es)) →
           (∀ k, k ∈ e_val <$> es' → k ∉ e_val <$> es) →
           queue m' h' es') ∧
        q_free fuel NULL m = Ok tt m.
Proof.
  intros Hq Hf.
  assert (wp (q_free fuel head) m (λ _ m',
    m' = with_nodes (release_all m es) (delete head (nodes (release_all m es)))))
    as ([]&m'&Hrun&->)%wp_run.
  { by apply (wp_q_free fuel m head es). }
  assert (∀ k, nodes (with_nodes (release_all m es)
                        (delete head (nodes (release_all m es)))) !! k =
               if decide (k ∈ head :: (e_node <$> es)) then None else nodes m !! k)
    as Hn.
  { intros k. simpl. destruct (decide (k = head)) as [->|Hne].
    - rewrite lookup_delete_eq. by rewrite decide_True by set_solver.
    - rewrite lookup_delete_ne by done. rewrite release_all_nodes.
      destruct (decide (k ∈ e_node <$> es)).
      + by rewrite decide_True by set_solver.
      + by rewrite decide_False by set_solver. }
  eexists. split; [exact Hrun|]. split_and!.
  - done.
  - intros k. simpl. apply release_all_vals.
  - intros k. simpl. apply release_all_bufs.
  - intros e He. split_and!.
    + rewrite Hn. rewrite decide_True; [done|].
      apply elem_of_cons. right. by apply list_elem_of_fmap_2.
    + simpl. rewrite release_all_vals. rewrite decide_True; [done|].
      by apply (list_elem_of_fmap_2 (λ e, container_of (e_node e))).
    + simpl. rewrite release_all_bufs. rewrite decide_True; [done|].
      by apply list_elem_of_fmap_2.
  - intros h' es' Hq' Hdn Hdv. eapply queue_frame; [done|..].
    + intros k Hk. rewrite Hn. rewrite decide_False; [done|]. by apply Hdn.
    + intros e He. simpl. rewrite release_all_vals. rewrite decide_False; [done|].
      intros (e0&E&He0)%list_elem_of_fmap. apply container_of_inj in E.
      apply (Hdn (e_node e)).
      * apply elem_of_cons. right. by apply list_elem_of_fmap_2.
      * rewrite E. apply elem_of_cons. right. by apply list_elem_of_fmap_2.
    + intros e He. simpl. rewrite release_all_bufs. rewrite decide_False; [done|].
      apply Hdv. by apply list_elem_of_fmap_2.
  - done.
Qed.

Lemma q_free_releases_all_witness :
  let m := demo ["pear"; "apple"; "fig"]%string in
  let es := elements m demo_head in
  queue m demo_head es ∧ (length es < 4)%nat ∧
  ∃ m', q_free 4 demo_head m = Ok tt m' ∧
        nodes m' = ∅ ∧ vals m' = ∅ ∧ bufs m' = ∅.
Proof.
  intros m es.
  assert (queue m demo_head es) as Hq by (apply (bool_decide_unpack _); by vm_compute).
  assert (length es < 4)%nat as Hf by (vm_compute; lia).
  split; [exact Hq|]. split; [exact Hf|].
  destruct (q_free_releases_all m demo_head es 4 Hq Hf) as (m'&Hrun&_).
  exists m'. split; [exact Hrun|].
  vm_compute in Hrun. injection Hrun as <-. by vm_compute.
Defined.

(** ** Successful insertion *)

Lemma q_insert_head_run m h es s :
  queue m h es → mem_wf m →
  plan m !! 0%nat ≠ Some true → plan m !! 1%nat ≠ Some true →
  strlen s + 1 ≤ sizeof_size_t →
  ∃ m', q_insert_head h s m = Ok true m' ∧
        queue m' h (new_elem m s :: es) ∧ mem_wf m' ∧
        relinked (prepared m s) m'.
Proof.
  intros Hq Hwf Hp0 Hp1 Hfit. pose proof Hq as (Hh&Hr&_). pose proof Hwf as (Hk&_).
  apply wp_eq_run_ex.
  rewrite q_insert_head_with. apply wp_q_insert_with; [done..|].
  destruct (prepared_ring m h _ s Hwf Hr) as [Hr' Hnew].
  apply wp_bind. apply (wp_list_add_head _ h (e_node <$> es)); [done|done| |].
  { simpl. rewrite lookup_insert_eq. eauto. }
  intros m' Hr2 Hrel. apply wp_ret.
  destruct (queue_inserted m m' h [] es s) as [Hq' Hwf']; [done..|].
  by split_and!.
Qed.

Lemma q_insert_tail_run m h es s :
  queue m h es → mem_wf m →
  plan m !! 0%nat ≠ Some true → plan m !! 1%nat ≠ Some true →
  strlen s + 1 ≤ sizeof_size_t →
  ∃ m', q_insert_tail h s m = Ok true m' ∧
        queue m' h (es ++ [new_elem m s]) ∧ mem_wf m' ∧
        relinked (prepared m s) m'.
Proof.
  intros Hq Hwf Hp0 Hp1 Hfit. pose proof Hq as (Hh&Hr&_). pose proof Hwf as (Hk&_).
  apply wp_eq_run_ex.
  rewrite q_insert_tail_with. apply wp_q_insert_with; [done..|].
  destruct (prepared_ring m h _ s Hwf Hr) as [Hr' Hnew].
  apply wp_bind. apply (wp_list_add_tail_head _ h (e_node <$> es)); [done|done| |].
  { simpl. rewrite lookup_insert_eq. eauto. }
  intros m' Hr2 Hrel. apply wp_ret.
  destruct (queue_inserted m m' h es [] s) as [Hq' Hwf'];
    [done|by rewrite app_nil_r|done|done| |].
  { by rewrite fmap_app. }
  by split_and!.
Qed.

Lemma new_elem_fresh m s :
  mem_wf m →
  bufs m !! e_val (new_elem m s) = None ∧ nodes m !! e_node (new_elem m s) = None ∧
  vals m !! container_of (e_node (new_elem m s)) = None.
Proof.
  intros Hwf. pose proof Hwf as (Hk&_). simpl. rewrite container_of_list_of.
  destruct (mem_wf_fresh m (brk m + sizeof_element_t) Hwf) as (_&_&?).
  { unfold sizeof_element_t. lia. }
  destruct (mem_wf_fresh m (list_of (brk m)) Hwf) as (?&_&_).
  { unfold list_of, offsetof_list. lia. }
  destruct (mem_wf_fresh m (brk m) Hwf) as (_&?&_); [lia|].
  done.
Qed.

Lemma prepared_relinked_heap m s m' :
  relinked (prepared m s) m' →
  bufs m' = <[e_val (new_elem m s) := e_buf (new_elem m s)]> (bufs m) ∧
  vals m' = <[container_of (e_node (new_elem m s)) := e_val (new_elem m s)]> (vals m).
Proof.
  intros (_&Hv&Hb&_). rewrite Hv, Hb. simpl. by rewrite container_of_list_of.
Qed.

(** X5.  An insertion of a string that fits the buffer it allocates, with
    both allocations succeeding, returns [true]; [q_insert_head] makes the
    new element the first of the queue and [q_insert_tail] the last, in
    front of, respectively behind, the old elements in their old order.
    The element holds a copy of the string in storage that was not in use
    before, and no other buffer or element of the heap is touched. *)
Theorem q_insert_links_copy m head es s :
  queue m head es → mem_wf m →
  plan m !! 0%nat ≠ Some true → plan m !! 1%nat ≠ Some true →
  strlen s + 1 ≤ sizeof_size_t →
  e_str (new_elem m s) = cstr s ∧
  bufs m !! e_val (new_elem m s) = None ∧
  nodes m !! e_node (new_elem m s) = None ∧
  vals m !! container_of (e_node (new_elem m s)) = None ∧
  (∃ m', q_insert_head head s m = Ok true m' ∧
         queue m' head (new_elem m s :: es) ∧ mem_wf m' ∧
         bufs m' = <[e_val (new_elem m s) := e_buf (new_elem m s)]> (bufs m) ∧
         vals m' = <[container_of (e_node (new_elem m s)) := e_val (new_elem m s)]>
                     (vals m)) ∧
  (∃ m', q_insert_tail head s m = Ok true m' ∧
         queue m' head (es ++ [new_elem m s]) ∧ mem_wf m' ∧
         bufs m' = <[e_val (new_elem m s) := e_buf (new_elem m s)]> (bufs m) ∧
         vals m' = <[container_of (e_node (new_elem m s)) := e_val (new_elem m s)]>
                     (vals m)).
Proof.
  intros Hq Hwf Hp0 Hp1 Hfit.
  destruct (new_elem_fresh m s Hwf) as (?&?&?).
  split_and!; try done.
  - by apply new_elem_str.
  - destruct (q_insert_head_run m head es s) as (m'&?&?&?&Hrel); [done..|].
    destruct (prepared_relinked_heap m s m' Hrel) as [? ?].
    exists m'. by split_and!.
  - destruct (q_insert_tail_run m head es s) as (m'&?&?&?&Hrel); [done..|].
    destruct (prepared_relinked_heap m s m' Hrel) as [? ?].
    exists m'. by split_and!.
Qed.

Lemma q_insert_links_copy_witness :
  let m := demo ["fig"]%string in
  let es := elements m demo_head in
  queue m demo_head es ∧ mem_wf m ∧
  strlen (bytes "kiwi") + 1 ≤ sizeof_size_t ∧
  e_str (new_elem m (bytes "kiwi")) = bytes "kiwi" ∧
  (∃ m', q_insert_head demo_head (bytes "kiwi") m = Ok true m' ∧
         queue m' demo_head (new_elem m (bytes "kiwi") :: es)) ∧
  (∃ m', q_insert_tail demo_head (bytes "kiwi") m = Ok true m' ∧
         queue m' demo_head (es ++ [new_elem m (bytes "kiwi")])).
Proof.
  intros m es.
  assert (queue m demo_head es) as Hq by (apply (bool_decide_unpack _); by vm_compute).
  assert (mem_wf m) as Hwf by (apply (bool_decide_unpack _); by vm_compute).
  assert (plan m !! 0%nat ≠ Some true) as Hp0 by (by vm_compute).
  assert (plan m !! 1%nat ≠ Some true) as Hp1 by (by vm_compute).
  assert (strlen (bytes "kiwi") + 1 ≤ sizeof_size_t) as Hfit by (by vm_compute).
  split; [exact Hq|]. split; [exact Hwf|]. split; [exact Hfit|].
  destruct (q_insert_links_copy m demo_head es (bytes "kiwi") Hq Hwf Hp0 Hp1 Hfit)
    as (Hs&_&_&_&(m1&H1&H2&_)&(m2&H3&H4&_)).
  split_and!.
  - rewrite Hs. by vm_compute.
  - by exists m1.
  - by exists m2.
Defined.

(** ** Insertion followed by removal *)

(** An output buffer of the heap is still one after an insertion. *)
Lemma out_buffer_inserted m m' h es s sp bufsize :
  mem_wf m → queue m h es → out_buffer m sp bufsize es →
  relinked (prepared m s) m' →
  out_buffer m' sp bufsize (new_elem m s :: es).
Proof.
  intros Hwf Hq [->|Hout] Hrel; [by left|right].
  destruct (prepared_relinked_heap m s m' Hrel) as [Hb _].
  destruct (new_elem_fresh m s Hwf) as (Hfresh&_).
  destruct (bufs m !! sp) as [b|] eqn:Hsp; [|done].
  assert (e_val (new_elem m s) ≠ sp) as Hne by (intros <-; congruence).
  rewrite Hb. rewrite lookup_insert_ne by done. rewrite Hsp.
  destruct Hout as ([? ?]&?&?). split_and!; [done..|].
  rewrite fmap_cons. apply not_elem_of_cons. split; [done|done].
Qed.

Lemma removed_buffer m h sp bufsize e es m' b :
  removed m h sp bufsize e es m' → sp ≠ NULL → bufs m !! sp = Some b →
  strlen (e_buf e) < bufsize →
  ∃ out, bufs m' !! sp = Some out ∧ cstr out = e_str e.
Proof.
  intros (_&_&_&_&_&_&_&Hb) Hsp Hlook Hlen.
  rewrite decide_False, Hlook in Hb by done.
  exists (copied (e_str e) bufsize b). split.
  - by rewrite Hb, lookup_insert_eq.
  - rewrite copied_cstr by apply cstr_NUL.
    apply take_ge. unfold strlen, e_str in *. lia.
Qed.

(** X6.  What is inserted at an end is what a removal at that end gives
    back: after [q_insert_head] of a string, [q_remove_head] returns the
    element just allocated, the queue holds its old elements again, and an
    output buffer with room for the string receives the string.  The same
    holds for [q_insert_tail] followed by [q_remove_tail]. *)
Theorem q_insert_remove_round_trip m head es s sp bufsize :
  queue m head es → mem_wf m →
  plan m !! 0%nat ≠ Some true → plan m !! 1%nat ≠ Some true →
  strlen s + 1 ≤ sizeof_size_t →
  out_buffer m sp bufsize es → sp ≠ NULL → strlen s < bufsize →
  (∃ m1 m2 out,
     q_insert_head head s m = Ok true m1 ∧
     q_remove_head head sp bufsize m1 =
       Ok (container_of (e_node (new_elem m s))) m2 ∧
     queue m2 head es ∧ owns m2 (new_elem m s) ∧
     bufs m2 !! sp = Some out ∧ cstr out = cstr s) ∧
  (∃ m1 m2 out,
     q_insert_tail head s m = Ok true m1 ∧
     q_remove_tail head sp bufsize m1 =
       Ok (container_of (e_node (new_elem m s))) m2 ∧
     queue m2 head es ∧ owns m2 (new_elem m s) ∧
     bufs m2 !! sp = Some out ∧ cstr out = cstr s).
Proof.
  intros Hq Hwf Hp0 Hp1 Hfit Hout Hsp Hlen.
  assert (strlen (e_buf (new_elem m s)) < bufsize) as Hlen'.
  { pose proof (new_elem_str m s Hfit) as E. unfold e_str in E.
    unfold strlen in *. by rewrite E. }
  split.
  - destruct (q_insert_head_run m head es s) as (m1&Hrun1&Hq1&Hwf1&Hrel); [done..|].
    pose proof (out_buffer_inserted m m1 head es s sp bufsize Hwf Hq Hout Hrel) as Hout1.
    destruct (q_remove_head_run m1 head _ es sp bufsize Hq1 Hout1) as (m2&Hrun2&Hrem).
    destruct Hout1 as [?|Hout1]; [done|].
    destruct (bufs m1 !! sp) as [b|] eqn:Hb; [|done].
    destruct (removed_buffer _ _ _ _ _ _ _ b Hrem Hsp Hb Hlen') as (out&?&Hc).
    rewrite new_elem_str in Hc by done.
    pose proof Hrem as (?&?&_).
    exists m1, m2, out. by split_and!.
  - destruct (q_insert_tail_run m head es s) as (m1&Hrun1&Hq1&Hwf1&Hrel); [done..|].
    pose proof (out_buffer_inserted m m1 head es s sp bufsize Hwf Hq Hout Hrel) as Hout1.
    destruct (q_remove_tail_run m1 head _ es sp bufsize Hq1 Hout1) as (m2&Hrun2&Hrem).
    destruct Hout1 as [?|Hout1]; [done|].
    destruct (bufs m1 !! sp) as [b|] eqn:Hb; [|done].
    destruct (removed_buffer _ _ _ _ _ _ _ b Hrem Hsp Hb Hlen') as (out&?&Hc).
    rewrite new_elem_str in Hc by done.
    pose proof Hrem as (?&?&_).
    exists m1, m2, out. by split_and!.
Qed.

Lemma q_insert_remove_round_trip_witness :
  let m := demo_out ["fig"]%string 8 in
  let sp := brk (demo ["fig"]%string) in
  let es := elements m demo_head in
  queue m demo_head es ∧ mem_wf m ∧ out_buffer m sp 8 es ∧ sp ≠ NULL ∧
  strlen (bytes "kiwi") < 8 ∧
  ∃ m1 m2 out,
    q_insert_head demo_head (bytes "kiwi") m = Ok true m1 ∧
    q_remove_head demo_head sp 8 m1 =
      Ok (container_of (e_node (new_elem m (bytes "kiwi")))) m2 ∧
    queue m2 demo_head es ∧
    bufs m2 !! sp = Some out ∧ cstr out = bytes "kiwi".
Proof.
  intros m sp es.
  assert (queue m demo_head es) as Hq by (apply (bool_decide_unpack _); by vm_compute).
  assert (mem_wf m) as Hwf by (apply (bool_decide_unpack _); by vm_compute).
  assert (plan m !! 0%nat ≠ Some true) as Hp0 by (by vm_compute).
  assert (plan m !! 1%nat ≠ Some true) as Hp1 by (by vm_compute).
  assert (strlen (bytes "kiwi") + 1 ≤ sizeof_size_t) as Hfit by (by vm_compute).
  assert (out_buffer m sp 8 es) as Hout by (apply (bool_decide_unpack _); by vm_compute).
  assert (sp ≠ NULL) as Hsp by (by vm_compute).
  assert (strlen (bytes "kiwi") < 8) as Hlen by (by vm_compute).
  split_and!; try done.
  destruct (q_insert_remove_round_trip m demo_head es (bytes "kiwi") sp 8
              Hq Hwf Hp0 Hp1 Hfit Hout Hsp Hlen) as [(m1&m2&out&H1&H2&H3&_&H4&H5) _].
  exists m1, m2, out. split_and!; try done.
Defined.

(** ** First in, first out *)



(** ** Removal followed by release *)





(** ** The order of equal strings under sorting *)

Lemma with_str_cons s e es :
  with_str s (e :: es) =
  if decide (e_str e = s) then e :: with_str s es else with_str s es.
Proof. unfold with_str. by rewrite filter_cons. Qed.

Lemma with_str_app s es1 es2 :
  with_str s (es1 ++ es2) = with_str s es1 ++ with_str s es2.
Proof. unfold with_str. by rewrite filter_app. Qed.

Lemma with_str_none s es :
  (∀ e, e ∈ es → e_str e ≠ s) → with_str s es = [].
Proof.
  induction es as [|e r IH]; intros H; [done|].
  rewrite with_str_cons. rewrite decide_False by (apply H; set_solver).
  apply IH. intros e' He'. apply H. set_solver.
Qed.

(** A merge keeps the elements of one string in their order, those of the
    front list first. *)
Lemma with_str_merge s xs : ∀ ys,
  Sorted elem_le xs → Sorted elem_le ys →
  with_str s (list_merge elem_le xs ys) = with_str s xs ++ with_str s ys.
Proof.
  induction xs as [|x xs IHx]; intros ys Hx Hy.
  { by rewrite list_merge_nil_l. }
  induction ys as [|y ys IHy].
  { by rewrite list_merge_nil_r, app_nil_r. }
  rewrite list_merge_cons. destruct (decide (elem_le x y)) as [Hle|Hgt].
  - rewrite !(with_str_cons _ x).
    rewrite IHx; [|by apply Sorted_inv in Hx as [? _]|done].
    by destruct (decide (e_str x = s)).
  - rewrite !(with_str_cons _ y).
    rewrite IHy by (by apply Sorted_inv in Hy as [? _]).
    destruct (decide (e_str y = s)) as [Hs|Hs]; [|done].
    assert (with_str s (x :: xs) = []) as ->; [|done].
    apply with_str_none. intros e He E.
    apply (Sorted_StronglySorted _) in Hx. apply StronglySorted_inv in Hx as [_ Hx].
    apply Hgt. unfold elem_le. rewrite Hs, <- E.
    apply elem_of_cons in He as [->|He]; [by rewrite str_cmp_refl|].
    eapply Forall_forall in Hx; [|done]. done.
Qed.

Lemma msort_stable s fuel : ∀ es,
  (length es ≤ fuel)%nat → with_str s (msort fuel es) = with_str s es.
Proof.
  induction fuel as [|fuel IH]; intros es Hf; [done|].
  destruct es as [|e1 [|e2 r]]; [done|done|].
  rewrite msort_unfold.
  pose proof (half_le (length (e1 :: e2 :: r))) as Hle.
  pose proof (half_pos (length (e1 :: e2 :: r))) as Hpos.
  set (k := ((length (e1 :: e2 :: r) + 1) `div` 2)%nat) in *.
  assert (length (take k (e1 :: e2 :: r)) ≤ fuel)%nat as H1.
  { rewrite length_take. simpl in *. lia. }
  assert (length (drop k (e1 :: e2 :: r)) ≤ fuel)%nat as H2.
  { rewrite length_drop. simpl in *. lia. }
  rewrite with_str_merge by (by apply msort_sorted).
  rewrite !IH by done. rewrite <- with_str_app.
  by rewrite take_drop.
Qed.

(** ** sorted_merge *)

Lemma sorted_merge_null_l fuel q m :
  (0 < fuel)%nat → sorted_merge fuel NULL q m = Ok q m.
Proof.
  intros Hf. destruct fuel as [|fuel]; [lia|]. done.
Qed.

Lemma sorted_merge_null_r fuel p m :
  (0 < fuel)%nat → sorted_merge fuel p NULL m = Ok p m.
Proof.
  intros Hf. destruct fuel as [|fuel]; [lia|]. simpl.
  rewrite decide_True by (by right).
  destruct (decide (p ≠ NULL)) as [|Hp]; [done|].
  apply dec_stable in Hp. by rewrite Hp.
Qed.

(** X9.  On two NULL-terminated chains of elements, each in ascending
    order, [sorted_merge] returns the first node of one chain that holds
    the elements of both in ascending order; elements with the same string
    keep their order, those of the front chain before those of the back
    chain.  Only [next] fields of the nodes of the two chains are written.
    When one chain is empty the other is returned and nothing is
    written. *)
Theorem sorted_merge_merges m xs ys p q fuel :
  chain (nx m) p (e_node <$> xs) → chain (nx m) q (e_node <$> ys) →
  NoDup (e_node <$> xs ++ ys) → NULL ∉ (e_node <$> xs ++ ys) →
  Forall (owns m) (xs ++ ys) → (length xs + length ys < fuel)%nat →
  Sorted elem_le xs → Sorted elem_le ys →
  ∃ r m' zs,
    sorted_merge fuel p q m = Ok r m' ∧
    chain (nx m') r (e_node <$> zs) ∧
    zs ≡ₚ xs ++ ys ∧ Sorted elem_le zs ∧
    (∀ s, with_str s zs = with_str s xs ++ with_str s ys) ∧
    relinked m m' ∧ pv m' = pv m ∧
    (∀ k, k ∉ (e_node <$> xs ++ ys) → nx m' !! k = nx m !! k) ∧
    (xs = [] → r = q ∧ m' = m) ∧
    (ys = [] → r = p ∧ m' = m).
Proof.
  intros Hp Hq Hnd Hnull Ho Hf Hsx Hsy.
  assert (wp (sorted_merge fuel p q) m (λ r m',
    chain (nx m') r (e_node <$> list_merge elem_le xs ys) ∧
    relinked m m' ∧ pv m' = pv m ∧
    (∀ k, k ∉ (e_node <$> xs ++ ys) → nx m' !! k = nx m !! k)))
    as (r&m'&Hrun&Hc&Hrel&Hpv&Hfr)%wp_run.
  { eapply wp_sorted_merge; [done..|]. by intros r m' ? ? ? ?. }
  exists r, m', (list_merge elem_le xs ys). split_and!; try done.
  - apply merge_Permutation.
  - by apply (Sorted_list_merge _).
  - intros s. by apply with_str_merge.
  - intros ->. simpl in Hp. subst p.
    rewrite sorted_merge_null_l in Hrun by lia. by simplify_eq.
  - intros ->. simpl in Hq. subst q.
    rewrite sorted_merge_null_r in Hrun by lia. by simplify_eq.
Qed.

Lemma sorted_merge_merges_witness :
  let m0 := demo ["a"; "c"; "b"; "d"]%string in
  let es := elements m0 demo_head in
  let xs := take 2 es in
  let ys := drop 2 es in
  let m := cut (default NULL (last (e_node <$> ys)))
             (cut (default NULL (last (e_node <$> xs))) m0) in
  let p := default NULL (head (e_node <$> xs)) in
  let q := default NULL (head (e_node <$> ys)) in
  e_str <$> xs = [bytes "a"; bytes "c"] ∧ e_str <$> ys = [bytes "b"; bytes "d"] ∧
  chain (nx m) p (e_node <$> xs) ∧ chain (nx m) q (e_node <$> ys) ∧
  Sorted elem_le xs ∧ Sorted elem_le ys ∧
  ∃ r m' zs, sorted_merge 5 p q m = Ok r m' ∧
             chain (nx m') r (e_node <$> zs) ∧
             zs ≡ₚ xs ++ ys ∧ Sorted elem_le zs.
Proof.
  intros m0 es xs ys m p q.
  assert (chain (nx m) p (e_node <$> xs)) as Hp
    by (apply (bool_decide_unpack _); by vm_compute).
  assert (chain (nx m) q (e_node <$> ys)) as Hq
    by (apply (bool_decide_unpack _); by vm_compute).
  assert (NoDup (e_node <$> xs ++ ys)) as Hnd
    by (apply (bool_decide_unpack _); by vm_compute).
  assert (NULL ∉ (e_node <$> xs ++ ys)) as Hnull
    by (apply (bool_decide_unpack _); by vm_compute).
  assert (Forall (owns m) (xs ++ ys)) as Ho
    by (apply (bool_decide_unpack _); by vm_compute).
  assert (length xs + length ys < 5)%nat as Hf by (vm_compute; lia).
  assert (Sorted elem_le xs) as Hsx by (apply (bool_decide_unpack _); by vm_compute).
  assert (Sorted elem_le ys) as Hsy by (apply (bool_decide_unpack _); by vm_compute).
  split; [by vm_compute|]. split; [by vm_compute|].
  split; [exact Hp|]. split; [exact Hq|]. split; [exact Hsx|]. split; [exact Hsy|].
  destruct (sorted_merge_merges m xs ys p q 5 Hp Hq Hnd Hnull Ho Hf Hsx Hsy)
    as (r&m'&zs&H1&H2&H3&H4&_).
  exists r, m', zs. split_and!; [exact H1|exact H2|exact H3|exact H4].
Defined.

(** ** merge_sort *)

(** X10.  On a NULL-terminated chain of elements [merge_sort] returns the
    first node of a chain of the same elements in ascending order, elements
    with the same string in their old order.  It writes [next] fields of
    the nodes of the chain only: every [prev] field of the heap, and every
    node outside the chain, is as it was. *)
Theorem merge_sort_sorts_chain m es p fuel :
  chain (nx m) p (e_node <$> es) → NoDup (e_node <$> es) →
  NULL ∉ (e_node <$> es) → Forall (owns m) es → (length es < fuel)%nat →
  ∃ r m' es',
    merge_sort fuel p m = Ok r m' ∧
    chain (nx m') r (e_node <$> es') ∧
    es' ≡ₚ es ∧ Sorted elem_le es' ∧
    (∀ s, with_str s es' = with_str s es) ∧
    relinked m m' ∧ pv m' = pv m ∧
    (∀ k, k ∉ (e_node <$> es) → nx m' !! k = nx m !! k).
Proof.
  intros Hp Hnd Hnull Ho Hf.
  assert (wp (merge_sort fuel p) m (λ r m',
    chain (nx m') r (e_node <$> msort fuel es) ∧
    relinked m m' ∧ pv m' = pv m ∧
    (∀ k, k ∉ (e_node <$> es) → nx m' !! k = nx m !! k)))
    as (r&m'&Hrun&Hc&Hrel&Hpv&Hfr)%wp_run.
  { eapply wp_merge_sort; [done..|]. by intros r m' ? ? ? ?. }
  exists r, m', (msort fuel es). split_and!; try done.
  - apply msort_perm.
  - apply msort_sorted. lia.
  - intros s. apply msort_stable. lia.
Qed.

Lemma merge_sort_sorts_chain_witness :
  let m0 := demo ["pear"; "fig"; "apple"]%string in
  let es := elements m0 demo_head in
  let m := cut (default NULL (last (e_node <$> es))) m0 in
  let p := default NULL (head (e_node <$> es)) in
  chain (nx m) p (e_node <$> es) ∧ (length es < 4)%nat ∧
  ∃ r m' es', merge_sort 4 p m = Ok r m' ∧
              chain (nx m') r (e_node <$> es') ∧
              es' ≡ₚ es ∧ Sorted elem_le es' ∧ pv m' = pv m.
Proof.
  intros m0 es m p.
  assert (chain (nx m) p (e_node <$> es)) as Hp
    by (apply (bool_decide_unpack _); by vm_compute).
  assert (NoDup (e_node <$> es)) as Hnd
    by (apply (bool_decide_unpack _); by vm_compute).
  assert (NULL ∉ (e_node <$> es)) as Hnull
    by (apply (bool_decide_unpack _); by vm_compute).
  assert (Forall (owns m) es) as Ho
    by (apply (bool_decide_unpack _); by vm_compute).
  assert (length es < 4)%nat as Hf by (vm_compute; lia).
  split; [exact Hp|]. split; [exact Hf|].
  destruct (merge_sort_sorts_chain m es p 4 Hp Hnd Hnull Ho Hf)
    as (r&m'&es'&H1&H2&H3&H4&_&_&H5&_).
  exists r, m', es'. split_and!; [exact H1|exact H2|exact H3|exact H4|exact H5].
Defined.

(** ** q_sort is stable *)

(** X11.  [q_sort] is a stable sort: in the sorted queue the elements
    that hold the same string are in the order they had before.  It
    touches no node outside the queue. *)
Theorem q_sort_stable m head es fuel :
  queue m head es → (length es < fuel)%nat →
  ∃ m' es',
    q_sort fuel head m = Ok tt m' ∧
    queue m' head es' ∧ Sorted elem_le es' ∧
    (∀ s, with_str s es' = with_str s es) ∧
    (∀ k, k ∉ head :: (e_node <$> es) → nodes m' !! k = nodes m !! k).
Proof.
  intros Hq Hf.
  assert (wp (q_sort fuel head) m (λ _ m',
    queue m' head (msort fuel es) ∧
    (∀ k, k ∉ head :: (e_node <$> es) →
          nx m' !! k = nx m !! k ∧ pv m' !! k = pv m !! k)))
    as ([]&m'&Hrun&Hq'&Hfr)%wp_run.
  { eapply wp_q_sort; [done..|]. by intros m' ? _ _ ?. }
  exists m', (msort fuel es). split_and!; try done.
  - apply msort_sorted. lia.
  - intros s. apply msort_stable. lia.
  - intros k Hk. destruct (Hfr k Hk). by apply nodes_lookup_eq.
Qed.

Lemma q_sort_stable_witness :
  let m := demo ["b"; "a"; "b"; "a"]%string in
  let es := elements m demo_head in
  queue m demo_head es ∧ (length es < 5)%nat ∧
  length (with_str (bytes "a") es) = 2%nat ∧
  ∃ m' es', q_sort 5 demo_head m = Ok tt m' ∧
            queue m' demo_head es' ∧ Sorted elem_le es' ∧
            with_str (bytes "a") es' = with_str (bytes "a") es.
Proof.
  intros m es.
  assert (queue m demo_head es) as Hq by (apply (bool_decide_unpack _); by vm_compute).
  assert (length es < 5)%nat as Hf by (vm_compute; lia).
  split; [exact Hq|]. split; [exact Hf|]. split; [by vm_compute|].
  destruct (q_sort_stable m demo_head es 5 Hq Hf) as (m'&es'&H1&H2&H3&H4&_).
  exists m', es'. split_and!; [exact H1|exact H2|exact H3|apply H4].
Defined.

(** ** q_delete_dup on a queue in any order *)

Lemma differs_iff o e :
  differs o e ↔
  match o with
  | Some x => bool_decide (str_cmp (e_str x) (e_str e) = 0) = false
  | None => True
  end.
Proof.
  destruct o as [x|]; simpl; [|done].
  rewrite bool_decide_eq_false. by rewrite str_cmp_0_iff.
Qed.

Lemma differs_sym x e : differs (Some x) e ↔ differs (Some e) x.
Proof. simpl. split; intros H E; by apply H. Qed.

(** The pass of [q_delete_dup] keeps an element exactly when neither the
    element in front of it nor the element behind it holds the same
    string. *)
Lemma dup_scan_lonely rest : ∀ pre e,
  NoDup (pre ++ rest) →
  e ∈ dup_scan
        (match last pre, head rest with
         | Some p, Some x => bool_decide (str_cmp (e_str p) (e_str x) = 0)
         | _, _ => false
         end) rest ↔
  ∃ a b, rest = a ++ e :: b ∧ differs (last (pre ++ a)) e ∧ differs (head b) e.
Proof.
  induction rest as [|x r IH]; intros pre e Hnd.
  { simpl. destruct (last pre); simpl; split.
    - by intros ?%elem_of_nil.
    - intros (a&b&E&_). by destruct a.
    - by intros ?%elem_of_nil.
    - intros (a&b&E&_). by destruct a. }
  specialize (IH (pre ++ [x]) e). rewrite <- app_assoc in IH.
  specialize (IH Hnd). rewrite last_snoc in IH.
  assert (x ∉ r) as Hx.
  { apply NoDup_app in Hnd as (_&_&Hnd). by apply NoDup_cons in Hnd as [? _]. }
  set (ld := match last pre, head (x :: r) with
             | Some p, Some x0 => bool_decide (str_cmp (e_str p) (e_str x0) = 0)
             | _, _ => false
             end).
  set (mt := match head r with
             | Some x0 => bool_decide (str_cmp (e_str x) (e_str x0) = 0)
             | None => false
             end) in IH.
  assert (dup_scan ld (x :: r) =
          if mt || ld then dup_scan mt r else x :: dup_scan mt r) as ->.
  { subst mt. by destruct r. }
  assert (differs (last pre) x ↔ ld = false) as Hld.
  { rewrite differs_iff. subst ld. simpl. by destruct (last pre). }
  assert (differs (head r) x ↔ mt = false) as Hmt.
  { subst mt. destruct r as [|y r']; simpl; [done|].
    rewrite bool_decide_eq_false, str_cmp_0_iff. split; intros H E; by apply H. }
  split.
  - intros Hin.
    assert (e ∈ dup_scan mt r ∨ (e = x ∧ mt = false ∧ ld = false)) as [Hin'|(->&Hm&Hl)].
    { destruct mt, ld; simpl in Hin; try (by left).
      apply elem_of_cons in Hin as [->|?]; [by right|by left]. }
    + apply IH in Hin' as (a&b&->&Hd1&Hd2).
      exists (x :: a), b. split_and!; [done| |done].
      by rewrite <- app_assoc in Hd1.
    + exists [], r. rewrite app_nil_r. split_and!; [done|by apply Hld|by apply Hmt].
  - intros (a&b&E&Hd1&Hd2). destruct a as [|x' a]; simpl in E.
    + injection E as <- <-. rewrite app_nil_r in Hd1.
      apply Hld in Hd1 as ->. apply Hmt in Hd2 as ->. simpl. set_solver.
    + injection E as <- ->.
      assert (e ∈ dup_scan mt (a ++ e :: b)) as Hin.
      { apply IH. exists a, b. split_and!; [done| |done]. by rewrite <- app_assoc. }
      destruct (mt || ld); [done|set_solver].
Qed.

(** X12.  On any queue, sorted or not, [q_delete_dup] returns [true] and
    unlinks and releases exactly the elements that hold the same string as
    the element in front of them or as the element behind them; the others
    stay, in their order.  Elements with the same string that are not
    neighbours are both kept. *)
Theorem q_delete_dup_adjacent m h es fuel :
  queue m h es → (length es < fuel)%nat →
  ∃ m', q_delete_dup fuel h m = Ok true m' ∧
        queue m' h (dup_scan false es) ∧
        dup_scan false es `sublist_of` es ∧
        (∀ e, e ∈ dup_scan false es ↔
              ∃ pre post, es = pre ++ e :: post ∧
                          differs (last pre) e ∧ differs (head post) e) ∧
        (∀ e, e ∈ es → e ∉ dup_scan false es → released m' e).
Proof.
  intros Hq Hf.
  assert (wp (q_delete_dup fuel h) m (λ b m', b = true ∧
    (queue m' h (dup_scan false es) ∧
     (∀ e, e ∈ es → e ∉ dup_scan false es → released m' e)))) as Hrun.
  { eapply wp_q_delete_dup; [done..|]. intros m' ? ? ?. done. }
  apply wp_eq_run_ex in Hrun as (m'&Hrun&Hq'&Hrel).
  exists m'. split_and!; try done.
  - apply dup_scan_sublist.
  - intros e. apply (dup_scan_lonely es [] e). by eapply queue_NoDup.
Qed.

Lemma q_delete_dup_adjacent_witness :
  let m := demo ["a"; "b"; "a"; "a"; "c"]%string in
  let es := elements m demo_head in
  queue m demo_head es ∧ (length es < 6)%nat ∧
  e_str <$> es = [bytes "a"; bytes "b"; bytes "a"; bytes "a"; bytes "c"] ∧
  ∃ m', q_delete_dup 6 demo_head m = Ok true m' ∧
        queue m' demo_head (dup_scan false es) ∧
        e_str <$> dup_scan false es = [bytes "a"; bytes "b"; bytes "c"].
Proof.
  intros m es.
  assert (queue m demo_head es) as Hq by (apply (bool_decide_unpack _); by vm_compute).
  assert (length es < 6)%nat as Hf by (vm_compute; lia).
  split; [exact Hq|]. split; [exact Hf|]. split; [by vm_compute|].
  destruct (q_delete_dup_adjacent m demo_head es 6 Hq Hf) as (m'&H1&H2&_).
  exists m'. split_and!; [exact H1|exact H2|by vm_compute].
Defined.

(** ** q_sort followed by q_delete_dup *)

Lemma occurrences_perm s es1 es2 :
  es1 ≡ₚ es2 → occurrences s es1 = occurrences s es2.
Proof. intros Hp. unfold occurrences. by rewrite Hp. Qed.

Lemma occurrences_pos s e es : e ∈ es → e_str e = s → (0 < occurrences s es)%nat.
Proof.
  intros Hin Hs. destruct (occurrences s es) eqn:E; [|lia].
  pose proof (proj1 (occurrences_zero s es) E e Hin) as Hne. done.
Qed.

Lemma StronglySorted_filter {A} (R : relation A) (P : A → Prop)
    `{∀ x, Decision (P x)} (l : list A) :
  StronglySorted R l → StronglySorted R (filter P l).
Proof.
  induction 1 as [|x l Hs IH Hall]; [constructor|].
  rewrite filter_cons. destruct (decide (P x)); [|done].
  constructor; [done|]. apply Forall_forall. intros y [_ Hy]%list_elem_of_filter.
  eapply Forall_forall in Hall; done.
Qed.

(** A list in ascending order in which every string occurs once is in
    strictly ascending order. *)
Lemma sorted_once_strict l :
  StronglySorted elem_le l →
  (∀ e, e ∈ l → occurrences (e_str e) l = 1%nat) →
  StronglySorted elem_lt l.
Proof.
  induction 1 as [|x l Hs IH Hall]; intros Honce; [constructor|].
  assert (occurrences (e_str x) l = 0%nat) as Hx.
  { pose proof (Honce x ltac:(set_solver)) as H1.
    rewrite occurrences_cons, decide_True in H1 by done. lia. }
  constructor.
  - apply IH. intros e He. pose proof (Honce e ltac:(set_solver)) as H1.
    rewrite occurrences_cons in H1.
    pose proof (occurrences_pos (e_str e) e l He eq_refl).
    destruct (decide (e_str x = e_str e)); lia.
  - apply Forall_forall. intros y Hy.
    eapply Forall_forall in Hall; [|done]. unfold elem_le in Hall. unfold elem_lt.
    assert (str_cmp (e_str x) (e_str y) ≠ 0); [|lia].
    rewrite str_cmp_0_iff. intros E.
    by apply (proj1 (occurrences_zero _ _) Hx y).
Qed.

Lemma uniques_once es e :
  e ∈ uniques es → occurrences (e_str e) (uniques es) = 1%nat.
Proof.
  intros [Hone He]%list_elem_of_filter. unfold occurrences, uniques in *.
  rewrite list_filter_filter_l; [done|].
  intros x Hx. by rewrite Hx.
Qed.

(** X13.  On any queue, [q_sort] followed by [q_delete_dup] leaves exactly
    the elements whose string occurred once in the original queue, in
    strictly ascending order of their strings, and releases all the
    others. *)
Theorem q_sort_then_delete_dup m head es fuel :
  queue m head es → (length es < fuel)%nat →
  ∃ m1 m2 es',
    q_sort fuel head m = Ok tt m1 ∧
    q_delete_dup fuel head m1 = Ok true m2 ∧
    queue m2 head es' ∧
    (∀ e, e ∈ es' ↔ e ∈ es ∧ occurrences (e_str e) es = 1%nat) ∧
    StronglySorted elem_lt es' ∧
    (∀ e, e ∈ es → e ∉ es' → released m2 e).
Proof.
  intros Hq Hf.
  assert (wp (q_sort fuel head) m (λ _ m1, queue m1 head (msort fuel es)))
    as ([]&m1&Hrun1&Hq1)%wp_run.
  { eapply wp_q_sort; [done..|]. by intros m' ? _ _ _. }
  assert (Sorted elem_le (msort fuel es)) as Hs by (apply msort_sorted; lia).
  assert (wp (q_delete_dup fuel head) m1 (λ b m2, b = true ∧
    (queue m2 head (dup_scan false (msort fuel es)) ∧
     (∀ e, e ∈ msort fuel es → e ∉ dup_scan false (msort fuel es) → released m2 e))))
    as Hrun2.
  { eapply wp_q_delete_dup; [done|by rewrite msort_length|]. intros m' ? ? ?. done. }
  apply wp_eq_run_ex in Hrun2 as (m2&Hrun2&Hq2&Hrel).
  rewrite dup_scan_uniques in * by done.
  exists m1, m2, (uniques (msort fuel es)). split_and!; try done.
  - intros e. unfold uniques. rewrite list_elem_of_filter.
    rewrite (occurrences_perm _ _ _ (msort_perm fuel es)).
    rewrite (msort_perm fuel es). naive_solver.
  - apply sorted_once_strict.
    + apply StronglySorted_filter. by apply (Sorted_StronglySorted _).
    + apply uniques_once.
  - intros e He. apply Hrel. by rewrite (msort_perm fuel es).
Qed.

Lemma q_sort_then_delete_dup_witness :
  let m := demo ["b"; "a"; "c"; "a"]%string in
  let es := elements m demo_head in
  queue m demo_head es ∧ (length es < 5)%nat ∧
  ∃ m1 m2 es',
    q_sort 5 demo_head m = Ok tt m1 ∧
    q_delete_dup 5 demo_head m1 = Ok true m2 ∧
    queue m2 demo_head es' ∧ StronglySorted elem_lt es' ∧
    e_str <$> elements m2 demo_head = [bytes "b"; bytes "c"].
Proof.
  intros m es.
  assert (queue m demo_head es) as Hq by (apply (bool_decide_unpack _); by vm_compute).
  assert (length es < 5)%nat as Hf by (vm_compute; lia).
  split; [exact Hq|]. split; [exact Hf|].
  destruct (q_sort_then_delete_dup m demo_head es 5 Hq Hf)
    as (m1&m2&es'&H1&H2&H3&_&H4&_).
  exists m1, m2, es'. split_and!; [exact H1|exact H2|exact H3|exact H4|].
  vm_compute in H1. injection H1 as <-.
  vm_compute in H2. injection H2 as <-. by vm_compute.
Defined.

(** ** q_delete_mid: what it returns and what it frees *)

(** X14.  [q_delete_mid] returns [false], and leaves the heap as it is, on
    a null pointer and on an empty queue, and in no other case.  When it
    returns [true], of all the storage of the heap exactly the link node,
    the [value] member and the string buffer of one element of the queue
    are gone, and the other elements are in their old order. *)
Theorem q_delete_mid_frees_one m head es fuel :
  queue m head es → (length es < fuel)%nat →
  q_delete_mid fuel NULL m = Ok false m ∧
  (es = [] → q_delete_mid fuel head m = Ok false m) ∧
  (es ≠ [] →
   ∃ ea e ec m',
     es = ea ++ e :: ec ∧
     q_delete_mid fuel head m = Ok true m' ∧
     queue m' head (ea ++ ec) ∧
     dom (nodes m') = dom (nodes m) ∖ {[e_node e]} ∧
     vals m' = delete (container_of (e_node e)) (vals m) ∧
     bufs m' = delete (e_val e) (bufs m)).
Proof.
  intros Hq Hf. split_and!.
  - done.
  - intros ->. apply wp_eq_run. by apply wp_q_delete_mid_empty.
  - intros Hes.
    assert (wp (q_delete_mid fuel head) m (λ b m', b = true ∧
      ∃ ea e ec, es = ea ++ e :: ec ∧ queue m' head (ea ++ ec) ∧
                 dom (nodes m') = dom (nodes m) ∖ {[e_node e]} ∧
                 vals m' = delete (container_of (e_node e)) (vals m) ∧
                 bufs m' = delete (e_val e) (bufs m)))
      as (b&m'&Hrun&->&ea&e&ec&?&?&?&?&?)%wp_run.
    { eapply wp_q_delete_mid; [done..|]. intros ea e ec m1 ? _ (Hd&Hv&Hb&_) ?.
      split; [done|]. exists ea, e, ec. split_and!; try done.
      - simpl. by rewrite dom_delete_L, Hd.
      - simpl. by rewrite Hv.
      - simpl. by rewrite Hb. }
    by exists ea, e, ec, m'.
Qed.

Lemma q_delete_mid_frees_one_witness :
  let m := demo ["a"; "b"; "c"]%string in
  let es := elements m demo_head in
  queue m demo_head es ∧ (length es < 4)%nat ∧ es ≠ [] ∧
  ∃ ea e ec m',
    es = ea ++ e :: ec ∧
    q_delete_mid 4 demo_head m = Ok true m' ∧
    queue m' demo_head (ea ++ ec) ∧
    bufs m' = delete (e_val e) (bufs m).
Proof.
  intros m es.
  assert (queue m demo_head es) as Hq by (apply (bool_decide_unpack _); by vm_compute).
  assert (length es < 4)%nat as Hf by (vm_compute; lia).
  assert (es ≠ []) as Hes by (by vm_compute).
  split; [exact Hq|]. split; [exact Hf|]. split; [exact Hes|].
  destruct (q_delete_mid_frees_one m demo_head es 4 Hq Hf) as (_&_&H).
  destruct (H Hes) as (ea&e&ec&m'&H1&H2&H3&_&_&H4).
  exists ea, e, ec, m'. split_and!; [exact H1|exact H2|exact H3|exact H4].
Defined.

(** ** q_size after the other operations *)


